(** * Midway: a disk-backed LRU cache in front of S3

    A shallow embedding of the cache store (cache/lru.go), the region-aware
    downloader (cache/s3.go) and the request handler (handler/handler.go),
    followed by the properties of the specification that were checked
    against them. *)

From Stdlib Require Import ZArith Lia Ascii String Sorted Permutation.
From stdpp Require Import base tactics option list gmap strings fin_maps.

Local Open Scope Z_scope.

(* ===================================================================== *)
(** * Machine integers *)
(* ===================================================================== *)

Module Int64.

Definition modulus : Z := 2 ^ 64.
Definition half : Z := 2 ^ 63.
Definition max_int : Z := half - 1.
Definition min_int : Z := - half.

(** Go's int64 arithmetic wraps around in two's complement. *)
Definition wrap (x : Z) : Z := (x + half) mod modulus - half.

Definition add (a b : Z) : Z := wrap (a + b).
Definition sub (a b : Z) : Z := wrap (a - b).
Definition mul (a b : Z) : Z := wrap (a * b).
Definition incr (a : Z) : Z := add a 1.

Definition in_range (x : Z) : Prop := min_int <= x <= max_int.

End Int64.

(* ===================================================================== *)
(** * Strings and paths *)
(* ===================================================================== *)

(** A Go string is a sequence of bytes; so is a Rocq [string]. *)

Definition byte_of (c : ascii) : N := N_of_ascii c.

Definition between (lo hi c : ascii) : bool :=
  (byte_of lo <=? byte_of c)%N && (byte_of c <=? byte_of hi)%N.

(** [os.IsPathSeparator] on Unix. *)
Definition IsPathSeparator (c : ascii) : bool := Ascii.eqb c "/".

(** [filepath.Ext]: the suffix beginning at the final dot in the final
    element of the path; empty when there is no dot.  The loop
    [for i := len(path)-1; i >= 0 && !IsPathSeparator(path[i]); i--]
    is unrolled on [n = i + 1]. *)
Fixpoint Ext_loop (path : string) (n : nat) : string :=
  match n with
  | O => ""
  | S i =>
      match String.get i path with
      | Some c =>
          if IsPathSeparator c then ""
          else if Ascii.eqb c "." then
                 String.substring i (String.length path - i) path
               else Ext_loop path i
      | None => ""
      end
  end.

Definition filepath_Ext (path : string) : string :=
  Ext_loop path (String.length path).

(** The characters that [sanitizeFilename] keeps as they are. *)
Definition safe_rune (r : ascii) : bool :=
  between "a" "z" r || between "A" "Z" r || between "0" "9" r
  || Ascii.eqb r "-" || Ascii.eqb r "_" || Ascii.eqb r ".".

(** The body of [for _, r := range base].  Every rune the loop keeps or
    rewrites is a single byte below 0x80, and no byte of a multi-byte
    UTF-8 sequence (or of an invalid one, which decodes to U+FFFD) is
    below 0x80, so ranging over runes and ranging over bytes drop the
    same bytes. *)
Fixpoint sanitize_loop (base : string) (safe : string) : string :=
  match base with
  | EmptyString => safe
  | String r rest =>
      if safe_rune r then sanitize_loop rest (safe +:+ String r EmptyString)
      else if Ascii.eqb r "/" then sanitize_loop rest (safe +:+ "_")
      else sanitize_loop rest safe
  end.

(** [sanitizeFilename] (lru.go). *)
Definition sanitizeFilename (key : string) : string :=
  let ext := filepath_Ext key in
  let base := String.substring 0 (String.length key - String.length ext) key in
  let safe := sanitize_loop base "" in
  safe +:+ ext.

(** Whether every byte of a file name is one of the safe characters. *)
Fixpoint all_safe (s : string) : bool :=
  match s with
  | EmptyString => true
  | String c rest => safe_rune c && all_safe rest
  end.

(** ** [filepath.Clean] and [filepath.Join] on Unix *)

(** The elements of a path: what lies between its separators. *)
Fixpoint split_path (path : string) (elem : string) : list string :=
  match path with
  | EmptyString => [elem]
  | String c rest =>
      if IsPathSeparator c then elem :: split_path rest ""
      else split_path rest (elem +:+ String c EmptyString)
  end.

(** One element of the path against the elements kept so far, the last one
    first: an empty element and "." are dropped; ".." takes back the
    element before it, is dropped at the root, and is kept where a relative
    path has nothing to take back. *)
Definition clean_step (rooted : bool) (out : list string) (elem : string) : list string :=
  if String.eqb elem "" || String.eqb elem "." then out
  else if String.eqb elem ".." then
         match out with
         | top :: out' => if String.eqb top ".." then elem :: out else out'
         | [] => if rooted then [] else [elem]
         end
       else elem :: out.

Definition join_path (elems : list string) : string :=
  match elems with
  | [] => ""
  | e :: rest => foldl (λ acc x, acc +:+ "/" +:+ x) e rest
  end.

(** [filepath.Clean]: the shortest path name equivalent to [path] by
    purely lexical processing. *)
Definition filepath_Clean (path : string) : string :=
  match path with
  | EmptyString => "."
  | String c _ =>
      let rooted := IsPathSeparator c in
      let s := join_path (reverse (foldl (clean_step rooted) [] (split_path path ""))) in
      if rooted then "/" +:+ s
      else if String.eqb s "" then "." else s
  end.

(** [filepath.Join] of two elements: the elements from the first one that
    is not empty are joined by a separator and the result is cleaned; two
    empty elements give the empty string. *)
Definition filepath_Join (dir name : string) : string :=
  if String.eqb dir ""
  then (if String.eqb name "" then "" else filepath_Clean name)
  else filepath_Clean (dir +:+ "/" +:+ name).

(** ** UTF-8 and the strings of [encoding/json] *)

(** [b < utf8.RuneSelf]. *)
Definition is_ascii (c : ascii) : bool := (byte_of c <? 128)%N.

Definition byte_in (lo hi : N) (c : ascii) : bool :=
  (lo <=? byte_of c)%N && (byte_of c <=? hi)%N.

(** The tables [first] and [acceptRanges] of unicode/utf8 for the bytes
    from 0x80 on: the length of the sequence that a byte starts and the
    range of its second byte; nothing for a byte that starts no sequence. *)
Definition utf8_first (c : ascii) : option (nat * (N * N)) :=
  let b := byte_of c in
  if (b <? 194)%N then None
  else if (b <=? 223)%N then Some (2%nat, (128, 191)%N)
  else if (b =? 224)%N then Some (3%nat, (160, 191)%N)
  else if (b =? 237)%N then Some (3%nat, (128, 159)%N)
  else if (b <=? 239)%N then Some (3%nat, (128, 191)%N)
  else if (b =? 240)%N then Some (4%nat, (144, 191)%N)
  else if (b <=? 243)%N then Some (4%nat, (128, 191)%N)
  else if (b =? 244)%N then Some (4%nat, (128, 143)%N)
  else None.

(** [utf8.DecodeRuneInString] on a string that starts with a byte from
    0x80 on: the width of the rune, or nothing where it answers
    [(RuneError, 1)]. *)
Definition rune_width (s : string) : option nat :=
  match s with
  | String s0 (String s1 rest) =>
      match utf8_first s0 with
      | None => None
      | Some (sz, (lo, hi)) =>
          if negb (byte_in lo hi s1) then None
          else if (sz <=? 2)%nat then Some 2%nat
          else match rest with
               | String s2 rest' =>
                   if negb (byte_in 128 191 s2) then None
                   else if (sz <=? 3)%nat then Some 3%nat
                   else match rest' with
                        | String s3 _ =>
                            if byte_in 128 191 s3 then Some 4%nat else None
                        | EmptyString => None
                        end
               | EmptyString => None
               end
      end
  | _ => None
  end.

(** U+FFFD in UTF-8. *)
Definition replacement : string :=
  String "239" (String "191" (String "189" EmptyString)).

(** What [json.Unmarshal] reads back from what [json.MarshalIndent] wrote
    for a string: the encoder copies the bytes below 0x80 (or escapes them,
    and the decoder undoes the escape), copies the bytes of a valid rune,
    and writes U+FFFD for a byte where [utf8.DecodeRuneInString] answers
    [(RuneError, 1)].  [skip] counts the bytes still to copy of the rune
    being copied. *)
Fixpoint json_loop (skip : nat) (s : string) : string :=
  match s with
  | EmptyString => EmptyString
  | String c rest =>
      match skip with
      | S skip' => String c (json_loop skip' rest)
      | O =>
          if is_ascii c then String c (json_loop 0 rest)
          else match rune_width s with
               | Some n => String c (json_loop (n - 1) rest)
               | None => replacement +:+ json_loop 0 rest
               end
      end
  end.

Definition json_string (s : string) : string := json_loop 0 s.

(** A string that is valid UTF-8 is read back as it was written. *)
Definition valid_utf8 (s : string) : Prop := json_string s = s.

(** Whether every byte of a string is below 0x80. *)
Fixpoint all_ascii (s : string) : bool :=
  match s with
  | EmptyString => true
  | String c rest => is_ascii c && all_ascii rest
  end.

(* ===================================================================== *)
(** * The cache store (cache/lru.go) *)
(* ===================================================================== *)

(** ** Data *)

(** Instants ([time.Time]) are counted in nanoseconds. *)
Abbreviation Time := Z (only parsing).

(** [Entry]: a single cached file with its metadata. *)
Record Entry := mkEntry {
  Key : string;
  Filename : string;
  Size : Z;
  AccessTime : Time;
  CreateTime : Time
}.

(** [Stats]. *)
Record Stats := mkStats {
  Hits : Z;
  Misses : Z;
  Evictions : Z;
  TotalBytes : Z;
  MaxBytes : Z;
  EntryCount : Z;
  CacheDir : string
}.

(** [DiskLRUCache].  [accessOrder] is the [container/list] of keys, front
    (most recent) first.  [accessMap] of the source maps a key to its
    element of [accessOrder]; here an element is designated by the key it
    carries, and [accessMap] keeps the keys that have one. *)
Record DiskLRUCache := mkCache {
  cacheDir : string;
  filesDir : string;
  maxSizeBytes : Z;
  currentSize : Z;
  entries : gmap string Entry;
  accessOrder : list string;
  accessMap : gset string;
  stats : Stats
}.

(** ** The disk *)

Definition bytes := list Byte.byte.

(** What is stored in metadata.json: nothing, something that cannot be read
    or parsed, or a JSON array, given by the entries that [json.Unmarshal]
    reads from it.  An array with a [null] element, which [saveMetadata]
    never writes and on which [loadFromDisk] panics, has no value here. *)
Inductive MetaFile :=
| MetaAbsent
| MetaInvalid
| MetaEntries (l : list Entry).

(** [files] holds the regular files of the files directory by name.  The
    names the cache gives its files have no separator ([sanitizeFilename]
    leaves none); the names "", "." and "..", for which
    [filepath.Join(filesDir, name)] is the files directory or its parent,
    are never given to a file: see [tmp_name] and [rename_tmp]. *)
Record Disk := mkDisk {
  files : gmap string bytes;
  metadata : MetaFile
}.

(** The cache object together with the directory it owns. *)
Record World := mkWorld {
  cache : DiskLRUCache;
  disk : Disk
}.

(** [os.Stat] of [filepath.Join(filesDir, name)] for the name of a file:
    the size of the file, or nothing when it does not exist.  On this disk a
    stat fails for no other reason, so the test [os.IsNotExist(err)] of
    [Get] and the test [err != nil] of [loadFromDisk] are the same.  The
    directories that "", "." and ".." name, which only a metadata.json
    written by hand can make the cache look up, are not on this disk. *)
Definition os_Stat (d : Disk) (name : string) : option Z :=
  (λ content : bytes, Z.of_nat (length content)) <$> files d !! name.

Definition os_Remove (name : string) (d : Disk) : Disk :=
  mkDisk (delete name (files d)) (metadata d).

Definition os_WriteFile (name : string) (content : bytes) (d : Disk) : Disk :=
  mkDisk (<[name := content]> (files d)) (metadata d).

(** [os.Rename] fails when the source is missing. *)
Definition os_Rename (src dst : string) (d : Disk) : option Disk :=
  match files d !! src with
  | Some content =>
      Some (mkDisk (<[dst := content]> (delete src (files d))) (metadata d))
  | None => None
  end.

(** For these names [filepath.Join(filesDir, name)] is the files directory
    itself or its parent, not a file inside it. *)
Definition is_dir_name (name : string) : bool :=
  String.eqb name "" || String.eqb name "." || String.eqb name "..".

(** The name of [filePath + ".tmp"] inside the files directory; when
    [filePath] is a directory the temporary file lies beside that directory,
    outside the files directory. *)
Definition tmp_name (filename : string) : option string :=
  if is_dir_name filename then None else Some (filename +:+ ".tmp").

Definition on_tmp (f : string → Disk → Disk) (tmp : option string) (d : Disk) : Disk :=
  match tmp with
  | Some name => f name d
  | None => d
  end.

(** ** [container/list] on keys *)

Definition list_PushFront (key : string) (l : list string) : list string := key :: l.
Definition list_PushBack (key : string) (l : list string) : list string := l ++ [key].
Definition list_Back (l : list string) : option string := last l.
Definition list_Remove (key : string) (l : list string) : list string :=
  filter (λ k, k ≠ key) l.
Definition list_MoveToFront (key : string) (l : list string) : list string :=
  if decide (key ∈ l) then key :: list_Remove key l else l.

(** ** Operations *)

Definition with_cache (f : DiskLRUCache → DiskLRUCache) (w : World) : World :=
  mkWorld (f (cache w)) (disk w).

Definition with_disk (f : Disk → Disk) (w : World) : World :=
  mkWorld (cache w) (f (disk w)).

Definition with_stats (f : Stats → Stats) (c : DiskLRUCache) : DiskLRUCache :=
  mkCache (cacheDir c) (filesDir c) (maxSizeBytes c) (currentSize c)
          (entries c) (accessOrder c) (accessMap c) (f (stats c)).

Definition incr_Hits (s : Stats) : Stats :=
  mkStats (Int64.incr (Hits s)) (Misses s) (Evictions s) (TotalBytes s)
          (MaxBytes s) (EntryCount s) (CacheDir s).

Definition incr_Misses (s : Stats) : Stats :=
  mkStats (Hits s) (Int64.incr (Misses s)) (Evictions s) (TotalBytes s)
          (MaxBytes s) (EntryCount s) (CacheDir s).

Definition incr_Evictions (s : Stats) : Stats :=
  mkStats (Hits s) (Misses s) (Int64.incr (Evictions s)) (TotalBytes s)
          (MaxBytes s) (EntryCount s) (CacheDir s).

Definition set_totals (total count : Z) (s : Stats) : Stats :=
  mkStats (Hits s) (Misses s) (Evictions s) total (MaxBytes s) count (CacheDir s).

(** [len(c.entries)]. *)
Definition len_entries (c : DiskLRUCache) : Z := Z.of_nat (size (entries c)).

(** [removeEntry]. *)
Definition removeEntry (key : string) (w : World) : World :=
  let c := cache w in
  match entries c !! key with
  | None => w
  | Some entry =>
      let d := os_Remove (Filename entry) (disk w) in
      let '(order, amap) :=
        if decide (key ∈ accessMap c)
        then (list_Remove key (accessOrder c), accessMap c ∖ {[key]})
        else (accessOrder c, accessMap c) in
      mkWorld
        (mkCache (cacheDir c) (filesDir c) (maxSizeBytes c)
                 (Int64.sub (currentSize c) (Size entry))
                 (delete key (entries c)) order amap (stats c))
        d
  end.

(** Go's [error]; [None] is [nil]. *)
Definition error := option string.

(** The loop condition of [evictIfNeeded]. *)
Definition over_capacity (newSize : Z) (c : DiskLRUCache) : bool :=
  bool_decide (Int64.add (currentSize c) newSize > maxSizeBytes c)
  && bool_decide (0 < length (accessOrder c))%nat.

(** The loop of [evictIfNeeded].  An iteration whose key has no entry leaves
    everything the condition reads as it was, so the loop then never ends;
    every other iteration deletes an entry.  A run that ends therefore takes
    at most [size entries] iterations, and running out of fuel stands for a
    loop that does not end. *)
Fixpoint evict_loop (fuel : nat) (newSize : Z) (w : World) : option World :=
  if over_capacity newSize (cache w) then
    match fuel with
    | O => None
    | S fuel' =>
        match list_Back (accessOrder (cache w)) with
        | None => Some w
        | Some key =>
            evict_loop fuel' newSize
              (with_cache (with_stats incr_Evictions) (removeEntry key w))
        end
    end
  else Some w.

(** [evictIfNeeded]; the error it returns is always [nil]. *)
Definition evictIfNeeded (newSize : Z) (w : World) : option (error * World) :=
  w' ← evict_loop (size (entries (cache w))) newSize w;
  Some (None, w').

(** What a write of metadata.json did: replaced it, left the old one, or
    left something that does not parse. *)
Inductive WriteOutcome := Written | NotWritten | Torn.

(** The order in which a [range] over a map yields its pairs. *)
Definition RangeOrder := list (string * Entry) → list (string * Entry).

Definition range_ok (ord : RangeOrder) : Prop := ∀ l, ord l ≡ₚ l.

(** An entry as it is read back from metadata.json: the two strings go
    through [json_string]; an int64 and an instant are read back as they
    were written. *)
Definition json_entry (e : Entry) : Entry :=
  mkEntry (json_string (Key e)) (json_string (Filename e)) (Size e)
          (AccessTime e) (CreateTime e).

(** [saveMetadata]; [Put] drops the error it returns. *)
Definition saveMetadata (ord : RangeOrder) (out : WriteOutcome) (w : World) : World :=
  let es := json_entry <$> (ord (map_to_list (entries (cache w)))).*2 in
  match out with
  | Written => with_disk (λ d, mkDisk (files d) (MetaEntries es)) w
  | NotWritten => w
  | Torn => with_disk (λ d, mkDisk (files d) MetaInvalid) w
  end.

(** What the environment does during one [Put]. *)
Record PutIO := mkPutIO {
  create_ok : bool;
  copy_ok : bool;
  rename_ok : bool;
  meta_write : WriteOutcome;
  now_access : Time;
  now_create : Time;
  range_order : RangeOrder
}.

Inductive PutError := ErrCreateTemp | ErrWriteFile | ErrEvict | ErrRename.

Inductive PutResult :=
| PutOk (filePath : string)
| PutErr (e : PutError).

(** [os.Rename(tmpPath, filePath)]: onto a directory it fails. *)
Definition rename_tmp (ok : bool) (tmp : option string) (filename : string)
    (d : Disk) : option Disk :=
  match tmp with
  | Some name => if ok then os_Rename name filename d else None
  | None => None
  end.

(** The index update at the end of [Put]. *)
Definition install (entry : Entry) (c : DiskLRUCache) : DiskLRUCache :=
  let es := <[Key entry := entry]> (entries c) in
  let cur := Int64.add (currentSize c) (Size entry) in
  mkCache (cacheDir c) (filesDir c) (maxSizeBytes c) cur es
          (list_PushFront (Key entry) (accessOrder c))
          ({[Key entry]} ∪ accessMap c)
          (set_totals cur (Z.of_nat (size es)) (stats c)).

(** [Put]; [None] when the eviction loop does not end. *)
Definition Put (key : string) (data : bytes) (io : PutIO) (w : World)
    : option (PutResult * World) :=
  let w := if decide (is_Some (entries (cache w) !! key))
           then removeEntry key w else w in
  let filename := sanitizeFilename key in
  let filePath := filepath_Join (filesDir (cache w)) filename in
  let tmp := tmp_name filename in
  if negb (create_ok io) then Some (PutErr ErrCreateTemp, w) else
  let w := with_disk (on_tmp (λ n, os_WriteFile n []) tmp) w in
  let size := Z.of_nat (length data) in
  if negb (copy_ok io)
  then Some (PutErr ErrWriteFile, with_disk (on_tmp os_Remove tmp) w) else
  let w := with_disk (on_tmp (λ n, os_WriteFile n data) tmp) w in
  match evictIfNeeded size w with
  | None => None
  | Some (Some _, w) => Some (PutErr ErrEvict, with_disk (on_tmp os_Remove tmp) w)
  | Some (None, w) =>
      match rename_tmp (rename_ok io) tmp filename (disk w) with
      | None => Some (PutErr ErrRename, with_disk (on_tmp os_Remove tmp) w)
      | Some d =>
          let entry := mkEntry key filename size (now_access io) (now_create io) in
          let w := mkWorld (install entry (cache w)) d in
          Some (PutOk filePath, saveMetadata (range_order io) (meta_write io) w)
      end
  end.

(** [entry.AccessTime = time.Now()] through the pointer held by the map. *)
Definition touch (key : string) (now : Time) (c : DiskLRUCache) : DiskLRUCache :=
  mkCache (cacheDir c) (filesDir c) (maxSizeBytes c) (currentSize c)
          (alter (λ e, mkEntry (Key e) (Filename e) (Size e) now (CreateTime e))
                 key (entries c))
          (accessOrder c) (accessMap c) (stats c).

Definition move_to_front (key : string) (c : DiskLRUCache) : DiskLRUCache :=
  if decide (key ∈ accessMap c)
  then mkCache (cacheDir c) (filesDir c) (maxSizeBytes c) (currentSize c)
               (entries c) (list_MoveToFront key (accessOrder c))
               (accessMap c) (stats c)
  else c.

(** [Get]: the path and whether the key was found. *)
Definition Get (key : string) (now : Time) (w : World) : (string * bool) * World :=
  let c := cache w in
  match entries c !! key with
  | None => (("", false), with_cache (with_stats incr_Misses) w)
  | Some entry =>
      let filePath := filepath_Join (filesDir c) (Filename entry) in
      match os_Stat (disk w) (Filename entry) with
      | None =>
          (("", false), with_cache (with_stats incr_Misses) (removeEntry key w))
      | Some _ =>
          ((filePath, true),
           with_cache (λ c, with_stats incr_Hits (move_to_front key (touch key now c))) w)
      end
  end.

(** [GetStats]. *)
Definition GetStats (w : World) : Stats :=
  set_totals (currentSize (cache w)) (len_entries (cache w)) (stats (cache w)).

(** ** Startup recovery *)

(** The body of the first loop of [loadFromDisk]. *)
Definition load_entry (d : Disk) (c : DiskLRUCache) (entry : Entry) : DiskLRUCache :=
  match os_Stat d (Filename entry) with
  | None => c
  | Some sz =>
      let entry := mkEntry (Key entry) (Filename entry) sz
                           (AccessTime entry) (CreateTime entry) in
      mkCache (cacheDir c) (filesDir c) (maxSizeBytes c)
              (Int64.add (currentSize c) (Size entry))
              (<[Key entry := entry]> (entries c))
              (list_PushBack (Key entry) (accessOrder c))
              ({[Key entry]} ∪ accessMap c)
              (stats c)
  end.

(** [entryWithTime]. *)
Abbreviation entryWithTime := (string * Time)%type (only parsing).

(** [if sorted[i].time.Before(sorted[j].time) { swap }]. *)
Definition swap_if_before (i j : nat) (sorted : list entryWithTime) : list entryWithTime :=
  match sorted !! i, sorted !! j with
  | Some a, Some b =>
      if bool_decide (a.2 < b.2) then <[i := b]> (<[j := a]> sorted) else sorted
  | _, _ => sorted
  end.

(** [for j := i + 1; j < len(sorted); j++], with [n] iterations left. *)
Fixpoint sort_inner (n i j : nat) (sorted : list entryWithTime) : list entryWithTime :=
  match n with
  | O => sorted
  | S n' => sort_inner n' i (S j) (swap_if_before i j sorted)
  end.

(** [for i := 0; i < len(sorted)-1; i++], with [n] iterations left. *)
Fixpoint sort_outer (n i : nat) (sorted : list entryWithTime) : list entryWithTime :=
  match n with
  | O => sorted
  | S n' =>
      sort_outer n' (S i) (sort_inner (length sorted - S i) i (S i) sorted)
  end.

Definition sort_by_access_time (sorted : list entryWithTime) : list entryWithTime :=
  sort_outer (length sorted - 1) 0 sorted.

(** [loadFromDisk]; [ord] is the order in which [range c.entries] runs. *)
Definition loadFromDisk (ord : RangeOrder) (w : World) : error * World :=
  match metadata (disk w) with
  | MetaAbsent => (None, w)
  | MetaInvalid => (Some "metadata", w)
  | MetaEntries l =>
      let c := foldl (load_entry (disk w)) (cache w) l in
      let sorted :=
        (λ p : string * Entry, (p.1, AccessTime p.2)) <$> ord (map_to_list (entries c)) in
      let sorted := sort_by_access_time sorted in
      let order := foldl (λ acc (e : entryWithTime), list_PushBack e.1 acc) [] sorted in
      let amap : gset string := foldl (λ acc (e : entryWithTime), {[e.1]} ∪ acc) ∅ sorted in
      (None,
       mkWorld
         (mkCache (cacheDir c) (filesDir c) (maxSizeBytes c) (currentSize c)
                  (entries c) order amap
                  (set_totals (currentSize c) (len_entries c) (stats c)))
         (disk w))
  end.

Definition GB (maxSizeGB : Z) : Z :=
  Int64.mul (Int64.mul (Int64.mul maxSizeGB 1024) 1024) 1024.

(** The struct literal of [NewDiskLRUCache], for a capacity in bytes. *)
Definition empty_cache (cacheDir : string) (maxSizeBytes : Z) : DiskLRUCache :=
  mkCache cacheDir (filepath_Join cacheDir "files") maxSizeBytes 0 ∅ [] ∅
          (mkStats 0 0 0 0 maxSizeBytes 0 cacheDir).

(** The empty cache followed by [loadFromDisk], whose error is only
    printed. *)
Definition open_cache (cacheDir : string) (maxSizeBytes : Z)
    (ord : RangeOrder) (d : Disk) : World :=
  (loadFromDisk ord (mkWorld (empty_cache cacheDir maxSizeBytes) d)).2.

(** [NewDiskLRUCache]; [None] when the cache directory cannot be created. *)
Definition NewDiskLRUCache (cacheDir : string) (maxSizeGB : Z)
    (mkdir_ok : bool) (ord : RangeOrder) (d : Disk) : option World :=
  if negb mkdir_ok then None
  else Some (open_cache cacheDir (GB maxSizeGB) ord d).

(* ===================================================================== *)
(** * The downloader (cache/s3.go) *)
(* ===================================================================== *)

(** [strings.Index(s, "/")]. *)
Fixpoint index_slash (s : string) : option nat :=
  match s with
  | EmptyString => None
  | String c rest =>
      if Ascii.eqb c "/" then Some O else S <$> index_slash rest
  end.

(** [strings.SplitN(s, "/", 2)]. *)
Definition SplitN2 (s : string) : list string :=
  match index_slash s with
  | None => [s]
  | Some m =>
      [String.substring 0 m s;
       String.substring (S m) (String.length s - S m) s]
  end.

(** [parseS3Key]; [None] is the "invalid key format" error. *)
Definition parseS3Key (key : string) : option (string * string) :=
  match SplitN2 key with
  | [bucket; objectKey] => Some (bucket, objectKey)
  | _ => None
  end.

(** [S3Downloader]: the configured region and the bucket-to-region map. *)
Record S3Downloader := mkDownloader {
  cfg_Region : string;
  bucketRegions : gmap string string
}.

Definition NewS3Downloader (region : string) : S3Downloader :=
  mkDownloader region ∅.

(** A request that reached the storage service, with what it answered:
    for a location query the location constraint or a failure, for a fetch
    whether an object came back. *)
Inductive BackendCall :=
| GetBucketLocation (region bucket : string) (answer : option string)
| GetObject (region bucket objectKey : string) (found : bool).

Record Object := mkObject {
  Body : bytes;
  ContentLength : option Z
}.

(** The storage service: its answers may depend on the calls so far. *)
Record Backend := mkBackend {
  locate : list BackendCall → string → option string;
  fetch : list BackendCall → string → string → string → option Object
}.

(** The downloader with the log of the calls it made, oldest first. *)
Record S3State := mkS3 {
  downloader : S3Downloader;
  calls : list BackendCall
}.

(** [getClientForBucket]: a client is its region. *)
Definition getClientForBucket (be : Backend) (bucket : string) (s : S3State)
    : option string * S3State :=
  let d := downloader s in
  match bucketRegions d !! bucket with
  | Some region => (Some region, s)
  | None =>
      let answer := locate be (calls s) bucket in
      let log := calls s ++ [GetBucketLocation "us-east-1" bucket answer] in
      match answer with
      | None => (None, mkS3 d log)
      | Some location =>
          let region := if String.eqb location "" then "us-east-1" else location in
          (Some region,
           mkS3 (mkDownloader (cfg_Region d) (<[bucket := region]> (bucketRegions d))) log)
      end
  end.

Inductive DownloadError := ErrParseKey | ErrClient | ErrDownload.

Inductive DownloadResult :=
| Downloaded (body : bytes) (size : Z)
| DownloadErr (e : DownloadError).

(** [Download]. *)
Definition Download (be : Backend) (key : string) (s : S3State)
    : DownloadResult * S3State :=
  match parseS3Key key with
  | None => (DownloadErr ErrParseKey, s)
  | Some (bucket, objectKey) =>
      match getClientForBucket be bucket s with
      | (None, s) => (DownloadErr ErrClient, s)
      | (Some region, s) =>
          let result := fetch be (calls s) region bucket objectKey in
          let s := mkS3 (downloader s)
                        (calls s ++ [GetObject region bucket objectKey
                                               (bool_decide (is_Some result))]) in
          match result with
          | None => (DownloadErr ErrDownload, s)
          | Some obj =>
              let size := match ContentLength obj with
                          | Some n => n
                          | None => 0
                          end in
              (Downloaded (Body obj) size, s)
          end
      end
  end.

(* ===================================================================== *)
(** * The request handler (handler/handler.go) *)
(* ===================================================================== *)

(** [Handler] with what its two collaborators own. *)
Record Server := mkServer {
  world : World;
  s3 : S3State
}.

(** What the handler answers: [http.Error] or [http.NotFound] with a status
    (the message is cut to its fixed part), or [http.ServeFile]. *)
Inductive Response :=
| HttpError (status : Z) (msg : string)
| ServeFile (filePath : string).

Definition StatusNotFound : Z := 404.
Definition StatusMethodNotAllowed : Z := 405.
Definition StatusInternalServerError : Z := 500.

(** [strings.TrimPrefix(s, "/")]. *)
Definition TrimPrefix_slash (s : string) : string :=
  match s with
  | String c rest => if Ascii.eqb c "/" then rest else s
  | EmptyString => s
  end.

(** What the environment does during one request. *)
Record RequestIO := mkRequestIO {
  now_get : Time;
  put_io : PutIO
}.

(** [HandleFile]; [None] when [Put] does not return. *)
Definition HandleFile (be : Backend) (method path : string) (io : RequestIO)
    (srv : Server) : option (Response * Server) :=
  if negb (String.eqb method "GET")
  then Some (HttpError StatusMethodNotAllowed "Method not allowed", srv) else
  let key := TrimPrefix_slash path in
  if String.eqb key "" || String.eqb key "health" || String.eqb key "stats"
  then Some (HttpError StatusNotFound "404 page not found", srv) else
  let '((filePath, found), w) := Get key (now_get io) (world srv) in
  if found then Some (ServeFile filePath, mkServer w (s3 srv)) else
  match Download be key (s3 srv) with
  | (DownloadErr _, s) =>
      Some (HttpError StatusNotFound "Failed to download", mkServer w s)
  | (Downloaded reader _, s) =>
      match Put key reader (put_io io) w with
      | None => None
      | Some (PutErr _, w) =>
          Some (HttpError StatusInternalServerError "Failed to cache", mkServer w s)
      | Some (PutOk filePath, w) => Some (ServeFile filePath, mkServer w s)
      end
  end.

(* ===================================================================== *)
(** * Well-formed and reachable states *)
(* ===================================================================== *)

(** The sum of the [Size] fields of the index. *)
Definition total_size (m : gmap string Entry) : Z :=
  map_fold (λ _ e acc, Size e + acc) 0 m.

(** What the index of a cache satisfies between two operations. *)
Record wf (c : DiskLRUCache) : Prop := mkWf {
  wf_key : ∀ k e, entries c !! k = Some e → Key e = k;
  wf_size : ∀ k e, entries c !! k = Some e → 0 <= Size e;
  wf_nodup : NoDup (accessOrder c);
  wf_order : ∀ k, k ∈ accessOrder c ↔ is_Some (entries c !! k);
  wf_amap : ∀ k, k ∈ accessMap c ↔ is_Some (entries c !! k);
  wf_current : currentSize c = Int64.wrap (total_size (entries c))
}.

(** The entries of metadata.json have one key each. *)
Definition meta_ok (d : Disk) : Prop :=
  ∀ l, metadata d = MetaEntries l → NoDup (Key <$> l).

(** The strings of the entries, in the index and in metadata.json, are
    valid UTF-8: they are read back as they are written. *)
Definition utf8_ok (w : World) : Prop :=
  (∀ k e, entries (cache w) !! k = Some e → json_entry e = e)
  ∧ (∀ l e, metadata (disk w) = MetaEntries l → e ∈ l → json_entry e = e).

(** One event in the life of a cache directory: a [Get], a [Put] that
    returns, of a key that is valid UTF-8, a change made to the files
    directory from outside, or a restart of the process, possibly with
    another capacity. *)
Inductive step : World → World → Prop :=
| step_Get key now w :
    step w (Get key now w).2
| step_Put key data io w r w' :
    valid_utf8 key →
    range_ok (range_order io) →
    Put key data io w = Some (r, w') →
    step w w'
| step_outside (fs : gmap string bytes) w :
    step w (with_disk (λ d, mkDisk fs (metadata d)) w)
| step_restart maxSizeBytes ord w :
    range_ok ord →
    step w (open_cache (cacheDir (cache w)) maxSizeBytes ord (disk w)).

(** The states a cache goes through, from a directory without metadata,
    as long as the keys it is given are valid UTF-8. *)
Inductive reachable : World → Prop :=
| reachable_fresh cacheDir maxSizeBytes ord fs :
    reachable (open_cache cacheDir maxSizeBytes ord (mkDisk fs MetaAbsent))
| reachable_step w w' :
    reachable w → step w w' → reachable w'.

(** A run of [Put]s that all succeed. *)
Fixpoint put_all (ops : list (string * bytes * PutIO)) (w : World) : option World :=
  match ops with
  | [] => Some w
  | (key, data, io) :: rest =>
      match Put key data io w with
      | Some (PutOk _, w') => put_all rest w'
      | _ => None
      end
  end.

(** A run of [Download]s, one after the other. *)
Definition download_all (be : Backend) (keys : list string) (s : S3State) : S3State :=
  foldl (λ s key, (Download be key s).2) s keys.

(** The location queries of a log for one bucket. *)
Definition is_location_query (bucket : string) (c : BackendCall) : bool :=
  match c with
  | GetBucketLocation _ b _ => String.eqb b bucket
  | GetObject _ _ _ _ => false
  end.

Definition is_location_answer (bucket : string) (c : BackendCall) : bool :=
  match c with
  | GetBucketLocation _ b (Some _) => String.eqb b bucket
  | _ => false
  end.

Definition count_calls (p : BackendCall → bool) (log : list BackendCall) : nat :=
  length (filter (λ c, p c = true) log).

(** The region stored for a location constraint. *)
Definition region_of (location : string) : string :=
  if String.eqb location "" then "us-east-1" else location.

(** What the log says about a bucket whose region is [region]: one
    answered location query, none answered before it and none at all
    after it. *)
Definition resolved_in (bucket region : string) (log : list BackendCall) : Prop :=
  ∃ l1 r location l2,
    log = l1 ++ GetBucketLocation r bucket (Some location) :: l2
    ∧ count_calls (is_location_answer bucket) l1 = 0%nat
    ∧ count_calls (is_location_query bucket) l2 = 0%nat
    ∧ region = region_of location.

Definition regions_inv (s : S3State) : Prop :=
  ∀ bucket,
    match bucketRegions (downloader s) !! bucket with
    | None => count_calls (is_location_answer bucket) (calls s) = 0%nat
    | Some region => resolved_in bucket region (calls s)
    end.

(** When no location query fails, every query in the log is answered. *)
Definition all_answered (s : S3State) : Prop :=
  ∀ bucket, count_calls (is_location_query bucket) (calls s)
            = count_calls (is_location_answer bucket) (calls s).

(** The key has a separator. *)
Definition has_slash (s : string) : Prop :=
  "/"%char ∈ list_ascii_of_string s.

(** What the sort of [loadFromDisk] is given: the pairs of the index in the
    order of the range, each key with its access time. *)
Definition with_times (ord : RangeOrder) (m : gmap string Entry) : list entryWithTime :=
  (λ p : string * Entry, (p.1, AccessTime p.2)) <$> ord (map_to_list m).

(** No two entries of the index were last accessed at the same instant. *)
Definition no_ties (m : gmap string Entry) : Prop :=
  ∀ k1 k2 e1 e2,
    m !! k1 = Some e1 → m !! k2 = Some e2 → AccessTime e1 = AccessTime e2 → k1 = k2.

(** Most recent first. *)
Definition sorted_desc (l : list entryWithTime) : Prop :=
  ∀ i j a b, (i < j)%nat → l !! i = Some a → l !! j = Some b → b.2 <= a.2.

(** The state in which an eviction run ends, and what it took away. *)
Record evicted_to (newSize : Z) (w w' : World) (evicted : list string) : Prop := {
  ev_wf : wf (cache w');
  ev_room : over_capacity newSize (cache w') = false;
  ev_order : accessOrder (cache w) = accessOrder (cache w') ++ evicted;
  ev_entries : ∀ k, entries (cache w') !! k
                    = if decide (k ∈ evicted) then None else entries (cache w) !! k;
  ev_max : maxSizeBytes (cache w') = maxSizeBytes (cache w);
  ev_filesDir : filesDir (cache w') = filesDir (cache w);
  ev_cacheDir : cacheDir (cache w') = cacheDir (cache w);
  ev_metadata : metadata (disk w') = metadata (disk w);
  ev_files : files (disk w') ⊆ files (disk w)
}.

(** Position [p] holds an instant no earlier than any later position. *)
Definition dominates (s : list entryWithTime) (p : nat) : Prop :=
  ∀ q a b, (p < q)%nat → s !! p = Some a → s !! q = Some b → b.2 <= a.2.

(** Position [i] holds an instant no earlier than the positions after it
    and before [j]. *)
Definition dominates_upto (s : list entryWithTime) (i j : nat) : Prop :=
  ∀ q a b, (i < q < j)%nat → s !! i = Some a → s !! q = Some b → b.2 <= a.2.

(** The part of [wf] that holds inside the first loop of [loadFromDisk]. *)
Definition entries_ok (c : DiskLRUCache) : Prop :=
  (∀ k e, entries c !! k = Some e → Key e = k)
  ∧ (∀ k e, entries c !! k = Some e → 0 <= Size e)
  ∧ currentSize c = Int64.wrap (total_size (entries c)).

(** A persisted entry with its size read again from the file. *)
Definition refreshed (e : Entry) (sz : Z) : Entry :=
  mkEntry (Key e) (Filename e) sz (AccessTime e) (CreateTime e).

(** The sizes of the files of the persisted entries, one per entry of the
    metadata whose file exists. *)
Definition surviving_sizes (d : Disk) (l : list Entry) : list Z :=
  omap (λ e, os_Stat d (Filename e)) l.

Definition sum_list (l : list Z) : Z := foldr Z.add 0 l.

(** The state in which [Put] starts to write: the old entry of the key, if
    any, is removed and the data is in the temporary file. *)
Definition Put_start (key : string) (w : World) : World :=
  if decide (is_Some (entries (cache w) !! key)) then removeEntry key w else w.

Definition Put_written (key : string) (data : bytes) (w : World) : World :=
  let tmp := tmp_name (sanitizeFilename key) in
  with_disk (on_tmp (λ n, os_WriteFile n data) tmp)
            (with_disk (on_tmp (λ n, os_WriteFile n []) tmp) (Put_start key w)).

(** The entry that [Put] installs. *)
Definition Put_entry (key : string) (data : bytes) (io : PutIO) : Entry :=
  mkEntry key (sanitizeFilename key) (Z.of_nat (length data))
          (now_access io) (now_create io).

(** An index whose recency list is [keys], most recent first, whose entries
    all have size [s], with capacity [max] and [evictions] evictions so
    far. *)
Record uniform (s max evictions : Z) (keys : list string) (c : DiskLRUCache) : Prop := {
  un_wf : wf c;
  un_order : accessOrder c = keys;
  un_size : ∀ k e, entries c !! k = Some e → Size e = s;
  un_max : maxSizeBytes c = max;
  un_evictions : Evictions (stats c) = evictions
}.

(** The keys of a run of [Put]s. *)
Definition op_keys (ops : list (string * bytes * PutIO)) : list string :=
  (λ op, op.1.1) <$> ops.

(** Every object of the run has [n] bytes. *)
Definition op_sized (n : nat) (ops : list (string * bytes * PutIO)) : Prop :=
  ∀ op, op ∈ ops → length op.1.2 = n.

(** ** More predicates *)

(** The key with every '/' replaced by '_'. *)
Fixpoint slash_to_underscore (s : string) : string :=
  match s with
  | EmptyString => EmptyString
  | String c rest =>
      String (if Ascii.eqb c "/" then "_"%char else c) (slash_to_underscore rest)
  end.

(** Every byte of the key is a safe character or a '/'. *)
Fixpoint safe_or_slash (s : string) : bool :=
  match s with
  | EmptyString => true
  | String c rest => (safe_rune c || Ascii.eqb c "/") && safe_or_slash rest
  end.

(** Every object fetch of the log is made in the region that an earlier
    location query of the log was answered with for its bucket. *)
Definition fetch_inv (log : list BackendCall) : Prop :=
  ∀ l1 r b o f l2,
    log = l1 ++ GetObject r b o f :: l2 →
    ∃ location,
      GetBucketLocation "us-east-1" b (Some location) ∈ l1
      ∧ r = region_of location.

(** The region map only holds regions the log shows being answered. *)
Definition regions_from_log (s : S3State) : Prop :=
  ∀ b r,
    bucketRegions (downloader s) !! b = Some r →
    ∃ location,
      GetBucketLocation "us-east-1" b (Some location) ∈ calls s
      ∧ r = region_of location.

(** Every location query of the log was sent to us-east-1. *)
Definition queries_inv (log : list BackendCall) : Prop :=
  ∀ r b a, GetBucketLocation r b a ∈ log → r = "us-east-1"%string.

(** The paths that [HandleFile] answers itself with 404. *)
Definition reserved (key : string) : bool :=
  String.eqb key "" || String.eqb key "health" || String.eqb key "stats".

(** The key is in the index, its file is in the files directory, and it is
    the most recently used one. *)
Definition held_at (key filePath : string) (w : World) : Prop :=
  ∃ e, entries (cache w) !! key = Some e
       ∧ filePath = filepath_Join (filesDir (cache w)) (Filename e)
       ∧ is_Some (files (disk w) !! Filename e)
       ∧ head (accessOrder (cache w)) = Some key.

(** The entries of the index and of metadata.json are named after their
    keys. *)
Definition named_ok (w : World) : Prop :=
  (∀ k e, entries (cache w) !! k = Some e → Filename e = sanitizeFilename (Key e))
  ∧ (∀ l e, metadata (disk w) = MetaEntries l → e ∈ l →
       Filename e = sanitizeFilename (Key e)).

(** The two fields of [stats] that are set once, in [NewDiskLRUCache]. *)
Definition stats_ok (c : DiskLRUCache) : Prop :=
  MaxBytes (stats c) = maxSizeBytes c ∧ CacheDir (stats c) = cacheDir c.

(* ===================================================================== *)
(** * Sample states *)
(* ===================================================================== *)

(** An environment in which nothing fails and maps are ranged over in the
    order of [map_to_list]. *)
Definition sample_io (t : Time) : PutIO :=
  mkPutIO true true true Written t t (λ l, l).

Definition zeros (n : nat) : bytes := replicate n Byte.x00.

(** A cache over an empty directory. *)
Definition sample_fresh (maxSizeBytes : Z) : World :=
  open_cache "/c" maxSizeBytes (λ l, l) (mkDisk ∅ MetaAbsent).

(** The state after a [Put], whatever it returned. *)
Definition after_Put (key : string) (data : bytes) (io : PutIO) (w : World) : World :=
  match Put key data io w with
  | Some (_, w') => w'
  | None => w
  end.

(** A cache holding "b/x" (6 bytes) whose file was then deleted from
    outside. *)
Definition sample_stale : World :=
  with_disk (λ d, mkDisk ∅ (metadata d))
            (after_Put "b/x" (zeros 6) (sample_io 1) (sample_fresh 10)).

(** A cache holding "b/x" (6 bytes). *)
Definition sample_held : World :=
  after_Put "b/x" (zeros 6) (sample_io 1) (sample_fresh 10).

(** An environment in which the copy into the temporary file fails. *)
Definition sample_io_copy_fails : PutIO :=
  mkPutIO true false true Written 2 2 (λ l, l).

Definition sample_failed : World :=
  after_Put "b/x" (zeros 3) sample_io_copy_fails sample_held.

(** A storage service that knows every bucket and every object. *)
Definition sample_backend : Backend :=
  mkBackend (λ _ _, Some "eu-west-1")
            (λ _ _ _ _, Some (mkObject (zeros 4) (Some 4))).

(** A storage service whose location query always fails. *)
Definition sample_backend_down : Backend :=
  mkBackend (λ _ _, None) (λ _ _ _ _, None).

Definition sample_s3 : S3State := mkS3 (NewS3Downloader "us-east-1") [].

Definition sample_server : Server := mkServer (sample_fresh 10) sample_s3.

Definition sample_request_io : RequestIO := mkRequestIO 1 (sample_io 1).

(** Three objects of three bytes for a cache that holds two of them. *)
Definition sample_op (key : string) (t : Time) : string * bytes * PutIO :=
  (key, zeros 3, sample_io t).

Definition after_put_all (ops : list (string * bytes * PutIO)) (w : World) : World :=
  match put_all ops w with
  | Some w' => w'
  | None => w
  end.

Definition sample_three : World :=
  after_put_all [sample_op "b/k1" 1; sample_op "b/k2" 2; sample_op "b/k3" 3]
                (sample_fresh 7).

Definition sample_two : World :=
  after_put_all [sample_op "b/k1" 1; sample_op "b/k2" 2] (sample_fresh 7).

Definition sample_touched : World :=
  after_Put "b/k3" (zeros 3) (sample_io 4) (Get "b/k1" 3 sample_two).2.

(** Two objects stored at the same instant. *)
Definition sample_tied : World :=
  after_put_all [sample_op "b/k1" 5; sample_op "b/k2" 5] (sample_fresh 10).

(** Two keys that differ in a byte that is not valid UTF-8; both have the
    file name "b_". *)
Definition sample_key_ff : string := "b/" +:+ String "255" EmptyString.
Definition sample_key_fe : string := "b/" +:+ String "254" EmptyString.

Definition sample_merge_ops : list (string * bytes * PutIO) :=
  [(sample_key_ff, zeros 6, sample_io 1); (sample_key_fe, zeros 6, sample_io 2)].

(** A cache of one gigabyte in which both were stored, and the cache that a
    restart opens on its directory, with the same capacity and with none. *)
Definition sample_merged : World :=
  after_put_all sample_merge_ops (sample_fresh (GB 1)).

Definition sample_reloaded : World :=
  open_cache "/c" (GB 1) (λ l, l) (disk sample_merged).



(** An environment in which the write of metadata.json fails. *)
Definition sample_io_unsaved : PutIO :=
  mkPutIO true true true NotWritten 1 1 (λ l, l).

Definition sample_unsaved : World :=
  after_Put "b/x" (zeros 6) sample_io_unsaved (sample_fresh 10).

(** The cache holding "b/x" after "b_x" (3 bytes) was stored too. *)
Definition sample_shared : World :=
  after_Put "b_x" (zeros 3) (sample_io 2) sample_held.

(** The server after it served "/b/x" from the storage service. *)
Definition sample_served : Server :=
  mkServer (after_Put "b/x" (zeros 4) (sample_io 1) (Get "b/x" 1 (sample_fresh 10)).2)
           (Download sample_backend "b/x" sample_s3).2.


(* ===================================================================== *)
(** * Properties *)
(* ===================================================================== *)

(** ** Removal and eviction only take away *)

Lemma removeEntry_entries key w :
  entries (cache (removeEntry key w)) = delete key (entries (cache w)).
Proof.
  unfold removeEntry. destruct (entries (cache w) !! key) eqn:E.
  - destruct (decide (key ∈ accessMap (cache w))); reflexivity.
  - symmetry. by apply delete_id.
Qed.

Lemma removeEntry_files_None key w name :
  files (disk w) !! name = None →
  files (disk (removeEntry key w)) !! name = None.
Proof.
  intros H. unfold removeEntry. destruct (entries (cache w) !! key); [|done].
  destruct (decide (key ∈ accessMap (cache w))); simpl;
    rewrite lookup_delete_None; by right.
Qed.

Lemma removeEntry_files_subseteq key w :
  files (disk (removeEntry key w)) ⊆ files (disk w).
Proof.
  unfold removeEntry. destruct (entries (cache w) !! key); [|done].
  destruct (decide (key ∈ accessMap (cache w))); simpl; apply delete_subseteq.
Qed.

Lemma removeEntry_metadata key w :
  metadata (disk (removeEntry key w)) = metadata (disk w).
Proof.
  unfold removeEntry. destruct (entries (cache w) !! key); [|done].
  by destruct (decide (key ∈ accessMap (cache w))).
Qed.

Lemma removeEntry_present key w entry :
  entries (cache w) !! key = Some entry →
  files (disk (removeEntry key w)) !! Filename entry = None
  ∧ currentSize (cache (removeEntry key w))
    = Int64.sub (currentSize (cache w)) (Size entry).
Proof.
  intros H. unfold removeEntry. rewrite H.
  destruct (decide (key ∈ accessMap (cache w))); simpl;
    by rewrite lookup_delete_eq.
Qed.

Lemma evict_loop_entries_None fuel newSize w w' key :
  evict_loop fuel newSize w = Some w' →
  entries (cache w) !! key = None →
  entries (cache w') !! key = None.
Proof.
  revert w. induction fuel as [|fuel IH]; intros w; simpl.
  - destruct (over_capacity newSize (cache w)); [done|]. by intros [= <-].
  - destruct (over_capacity newSize (cache w)); [|by intros [= <-]].
    destruct (list_Back (accessOrder (cache w))) as [victim|]; [|by intros [= <-]].
    intros Hrun Hk. apply (IH _ Hrun). simpl.
    rewrite removeEntry_entries, lookup_delete_None. by right.
Qed.

Lemma evict_loop_files_None fuel newSize w w' name :
  evict_loop fuel newSize w = Some w' →
  files (disk w) !! name = None →
  files (disk w') !! name = None.
Proof.
  revert w. induction fuel as [|fuel IH]; intros w; simpl.
  - destruct (over_capacity newSize (cache w)); [done|]. by intros [= <-].
  - destruct (over_capacity newSize (cache w)); [|by intros [= <-]].
    destruct (list_Back (accessOrder (cache w))) as [victim|]; [|by intros [= <-]].
    intros Hrun Hk. apply (IH _ Hrun). simpl.
    by apply removeEntry_files_None.
Qed.

Lemma evictIfNeeded_nil newSize w err w' :
  evictIfNeeded newSize w = Some (err, w') → err = None.
Proof.
  unfold evictIfNeeded. destruct (evict_loop _ _ _); simpl; [|done].
  by intros [= <- _].
Qed.

Lemma evictIfNeeded_loop newSize w err w' :
  evictIfNeeded newSize w = Some (err, w') →
  evict_loop (size (entries (cache w))) newSize w = Some w'.
Proof.
  unfold evictIfNeeded. destruct (evict_loop _ _ _); simpl; [|done].
  by intros [= _ <-].
Qed.

Lemma Get_absent key now w :
  entries (cache w) !! key = None →
  Get key now w = (("", false), with_cache (with_stats incr_Misses) w).
Proof. intros H. unfold Get. by rewrite H. Qed.


Lemma Get_hit key now w entry sz :
  entries (cache w) !! key = Some entry →
  os_Stat (disk w) (Filename entry) = Some sz →
  Get key now w
  = ((filepath_Join (filesDir (cache w)) (Filename entry), true),
     with_cache (λ c, with_stats incr_Hits (move_to_front key (touch key now c))) w).
Proof. intros H1 H2. unfold Get. by rewrite H1, H2. Qed.



(** ** What a failed [Put] leaves behind *)

Lemma on_tmp_remove_None tmp d name :
  files d !! name = None ∨ tmp = Some name →
  files (on_tmp os_Remove tmp d) !! name = None.
Proof.
  intros H. destruct tmp as [n|]; simpl.
  - rewrite lookup_delete_None. destruct H as [H|[= ->]]; auto.
  - by destruct H.
Qed.

Lemma on_tmp_write_None tmp content d name :
  files d !! name = None →
  files (on_tmp (λ n, os_WriteFile n content) tmp d) !! name = None ∨ tmp = Some name.
Proof.
  intros H. destruct tmp as [n|]; simpl; [|by left].
  destruct (decide (n = name)) as [->|Hne]; [by right|].
  left. by rewrite lookup_insert_ne.
Qed.

(** C10.  When the key already has an entry, [Put] removes it (its file,
    its size, its place in the index) before it writes the new data; a [Put]
    that then returns an error has not put it back: the entry and its file
    are gone and the next [Get] of the key counts a miss. *)
Theorem C10_Put_error_leaves_key_removed
    (key : string) (data : bytes) (io : PutIO) (w w' : World)
    (old : Entry) (e : PutError) (now : Time) :
  entries (cache w) !! key = Some old →
  Put key data io w = Some (PutErr e, w') →
  entries (cache w') !! key = None
  ∧ files (disk w') !! Filename old = None
  ∧ (e ≠ ErrRename →
     cache w' = cache (removeEntry key w)
     ∧ currentSize (cache w') = Int64.sub (currentSize (cache w)) (Size old))
  ∧ (Get key now w').1 = ("", false)
  ∧ Misses (stats (cache (Get key now w').2)) = Int64.incr (Misses (stats (cache w')))
  ∧ Hits (stats (cache (Get key now w').2)) = Hits (stats (cache w')).
Proof.
  intros Hold HPut.
  destruct (removeEntry_present _ _ _ Hold) as [Hfile Hcur].
  assert (Hgone : entries (cache (removeEntry key w)) !! key = None)
    by (rewrite removeEntry_entries; apply lookup_delete_eq).
  assert (Hmain : entries (cache w') !! key = None
                  ∧ files (disk w') !! Filename old = None
                  ∧ (e ≠ ErrRename → cache w' = cache (removeEntry key w))).
  { unfold Put in HPut.
    rewrite decide_True in HPut by (rewrite Hold; eauto).
    destruct (create_ok io); simpl in HPut.
    2:{ injection HPut as <- <-. done. }
    destruct (copy_ok io); simpl in HPut.
    2:{ injection HPut as <- <-. simpl. split; [done|]. split; [|done].
        apply on_tmp_remove_None.
        destruct (on_tmp_write_None (tmp_name (sanitizeFilename key)) []
                    (disk (removeEntry key w)) _ Hfile); auto. }
    match type of HPut with
    | context [evictIfNeeded _ ?x] => set (w1 := x) in HPut
    end.
    assert (Hw1 : files (disk w1) !! Filename old = None
                  ∨ tmp_name (sanitizeFilename key) = Some (Filename old)).
    { subst w1. simpl.
      destruct (on_tmp_write_None (tmp_name (sanitizeFilename key)) []
                  (disk (removeEntry key w)) _ Hfile) as [H|H]; [|by right].
      exact (on_tmp_write_None (tmp_name (sanitizeFilename key)) data _ _ H). }
    destruct (evictIfNeeded (Z.of_nat (length data)) w1) as [[err w2]|] eqn:Hev;
      [|done].
    pose proof (evictIfNeeded_nil _ _ _ _ Hev) as ->.
    apply evictIfNeeded_loop in Hev.
    destruct (rename_tmp _ _ _ _) eqn:Hren; [done|].
    injection HPut as <- <-. simpl. split.
    { by apply (evict_loop_entries_None _ _ _ _ _ Hev). }
    split; [|done].
    apply on_tmp_remove_None. destruct Hw1 as [H|H]; [|by right].
    left. by apply (evict_loop_files_None _ _ _ _ _ Hev). }
  destruct Hmain as (Hk & Hf & Hc). split; [done|]. split; [done|].
  split. { intros Hne. rewrite (Hc Hne). done. }
  by rewrite (Get_absent _ _ _ Hk).
Qed.

Lemma C10_Put_error_leaves_key_removed_witness :
  entries (cache sample_held) !! "b/x" = Some (mkEntry "b/x" "b_x" 6 1 1)
  ∧ Put "b/x" (zeros 3) sample_io_copy_fails sample_held
    = Some (PutErr ErrWriteFile, sample_failed)
  ∧ entries (cache sample_failed) !! "b/x" = None
  ∧ files (disk sample_failed) !! "b_x" = None
  ∧ (Get "b/x" 3 sample_failed).1 = ("", false).
Proof.
  assert (Hold : entries (cache sample_held) !! "b/x"
                 = Some (mkEntry "b/x" "b_x" 6 1 1)) by (vm_compute; reflexivity).
  assert (HPut : Put "b/x" (zeros 3) sample_io_copy_fails sample_held
                 = Some (PutErr ErrWriteFile, sample_failed))
    by (vm_compute; reflexivity).
  pose proof (C10_Put_error_leaves_key_removed _ _ _ _ _ _ _ 3 Hold HPut)
    as (Hgone & Hfile & _ & Hmiss & _).
  repeat split; assumption.
Defined.

(** ** File names *)

Lemma all_safe_app (s t : string) :
  all_safe (s +:+ t) = all_safe s && all_safe t.
Proof.
  induction s as [|c s IH]; simpl; [done|]. by rewrite IH, andb_assoc.
Qed.

Lemma sanitize_loop_safe (base safe : string) :
  all_safe safe = true → all_safe (sanitize_loop base safe) = true.
Proof.
  revert safe. induction base as [|r rest IH]; intros safe Hsafe; simpl; [done|].
  destruct (safe_rune r) eqn:Hr.
  - apply IH. rewrite all_safe_app, Hsafe. simpl. by rewrite Hr.
  - destruct (Ascii.eqb r "/"); apply IH; [|done].
    by rewrite all_safe_app, Hsafe.
Qed.

(** C9.  [sanitizeFilename] keeps the alphanumerics, '-', '_' and '.' of
    the part of the key before its extension, maps '/' to '_' there and
    appends the extension as it is, so a byte of the extension that is not
    one of the safe characters reaches the file name: for "b/x.a b" the
    name is "b_x.a b", with a space. *)
Theorem C9_sanitizeFilename_keeps_extension_bytes :
  sanitizeFilename "b/x.a b" = "b_x.a b"
  ∧ all_safe (sanitizeFilename "b/x.a b") = false
  ∧ (∀ key, ∃ safe,
        sanitizeFilename key = safe +:+ filepath_Ext key ∧ all_safe safe = true).
Proof.
  split; [reflexivity|]. split; [reflexivity|].
  intros key. eexists. split; [reflexivity|]. by apply sanitize_loop_safe.
Qed.

(** ** Strings as lists of bytes *)

Lemma get_list (s : string) (i : nat) :
  String.get i s = list_ascii_of_string s !! i.
Proof.
  revert i. induction s as [|c s IH]; intros [|i]; simpl; auto.
Qed.

Lemma substring_list (s : string) (i n : nat) :
  list_ascii_of_string (String.substring i n s)
  = take n (drop i (list_ascii_of_string s)).
Proof.
  revert i n. induction s as [|c s IH]; intros [|i] [|n]; simpl;
    rewrite ?IH; done.
Qed.

Lemma append_list (s t : string) :
  list_ascii_of_string (s +:+ t) = list_ascii_of_string s ++ list_ascii_of_string t.
Proof. induction s as [|c s IH]; simpl; [done|]. by rewrite IH. Qed.

Lemma length_list (s : string) :
  length (list_ascii_of_string s) = String.length s.
Proof. induction s as [|c s IH]; simpl; [done|]. by rewrite IH. Qed.

Lemma length_append (s t : string) :
  String.length (s +:+ t) = (String.length s + String.length t)%nat.
Proof. by rewrite <- !length_list, append_list, length_app. Qed.

Lemma list_inj (s t : string) :
  list_ascii_of_string s = list_ascii_of_string t → s = t.
Proof.
  intros H. rewrite <- (string_of_list_ascii_of_string s),
    <- (string_of_list_ascii_of_string t). by rewrite H.
Qed.

Lemma append_cons (c : ascii) (s t : string) :
  String c s +:+ t = String c (s +:+ t).
Proof. reflexivity. Qed.

Lemma append_assoc (s t u : string) : (s +:+ t) +:+ u = s +:+ t +:+ u.
Proof. induction s as [|c s IH]; [done|]. rewrite !append_cons. by rewrite IH. Qed.

Lemma append_empty_r (s : string) : s +:+ "" = s.
Proof. induction s as [|c s IH]; [done|]. rewrite !append_cons. by rewrite IH. Qed.

Lemma append_inj_length (s1 s2 t1 t2 : string) :
  String.length s1 = String.length s2 →
  s1 +:+ t1 = s2 +:+ t2 → s1 = s2 ∧ t1 = t2.
Proof.
  revert s2. induction s1 as [|c s1 IH]; intros [|c2 s2]; simpl; try done.
  intros [= Hlen]. rewrite !append_cons. intros [= -> Heq].
  by destruct (IH s2 Hlen Heq) as [-> ->].
Qed.

(** ** Strings read back from JSON *)

Lemma safe_rune_ascii (c : ascii) : safe_rune c = true → is_ascii c = true.
Proof.
  destruct c as [[] [] [] [] [] [] [] []]; vm_compute; done.
Qed.

Lemma all_safe_ascii (s : string) : all_safe s = true → all_ascii s = true.
Proof.
  induction s as [|c s IH]; simpl; [done|].
  intros [Hc Hs]%andb_true_iff. by rewrite (safe_rune_ascii c Hc), IH.
Qed.

Lemma json_loop_ascii (a b : string) :
  all_ascii a = true → json_loop 0 (a +:+ b) = a +:+ json_loop 0 b.
Proof.
  induction a as [|c a IH]; simpl; [done|].
  intros [Hc Ha]%andb_true_iff. rewrite append_cons. simpl.
  by rewrite Hc, IH.
Qed.

Lemma ascii_not_in (lo hi : N) (c : ascii) :
  is_ascii c = true → (128 <= lo)%N → byte_in lo hi c = false.
Proof.
  unfold is_ascii, byte_in. intros Hc%N.ltb_lt Hlo.
  apply andb_false_iff. left. apply N.leb_gt. lia.
Qed.

Lemma utf8_first_lo (x : ascii) (sz : nat) (lo hi : N) :
  utf8_first x = Some (sz, (lo, hi)) → (128 <= lo)%N ∧ (2 ≤ sz ≤ 4)%nat.
Proof.
  unfold utf8_first.
  repeat (match goal with |- context [if ?b then _ else _] => destruct b end);
    intros [= <- <- <-] || intros [=]; lia.
Qed.

(** What [rune_width] answers depends on the bytes it accepts only: a byte
    below 0x80 ends the sequence as the end of the string does. *)
Lemma rune_width_ascii_end (x : ascii) (a : string) (c : ascii) (b : string) :
  is_ascii c = true →
  rune_width (String x (a +:+ String c b)) = rune_width (String x a)
  ∧ ∀ n, rune_width (String x a) = Some n → (n - 1 ≤ String.length a)%nat.
Proof.
  intros Hc.
  assert (Hcont : byte_in 128 191 c = false) by (by apply ascii_not_in).
  destruct (utf8_first x) as [[sz [lo hi]]|] eqn:Hx.
  2:{ destruct a as [|a1 a]; simpl; rewrite ?append_cons; simpl; rewrite Hx;
        (split; [done|by intros n]). }
  destruct (utf8_first_lo _ _ _ _ Hx) as [Hlo Hsz].
  assert (Hlead : byte_in lo hi c = false) by (by apply ascii_not_in).
  destruct a as [|a1 [|a2 [|a3 a]]]; rewrite ?append_cons; simpl; rewrite Hx.
  - simpl. rewrite Hlead. simpl. split; [done|by intros n].
  - destruct (byte_in lo hi a1); simpl; [|split; [done|by intros n]].
    destruct (sz <=? 2)%nat eqn:H2; [split; [done|intros n [= <-]; simpl; lia]|].
    rewrite Hcont. simpl. split; [done|by intros n].
  - destruct (byte_in lo hi a1); simpl; [|split; [done|by intros n]].
    destruct (sz <=? 2)%nat eqn:H2; [split; [done|intros n [= <-]; simpl; lia]|].
    destruct (byte_in 128 191 a2); simpl; [|split; [done|by intros n]].
    destruct (sz <=? 3)%nat eqn:H3; [split; [done|intros n [= <-]; simpl; lia]|].
    rewrite Hcont. split; [done|by intros n].
  - destruct (byte_in lo hi a1); simpl; [|split; [done|by intros n]].
    destruct (sz <=? 2)%nat eqn:H2; [split; [done|intros n [= <-]; simpl; lia]|].
    destruct (byte_in 128 191 a2); simpl; [|split; [done|by intros n]].
    destruct (sz <=? 3)%nat eqn:H3; [split; [done|intros n [= <-]; simpl; lia]|].
    destruct (byte_in 128 191 a3); split; try done; intros n [= <-]; simpl; lia.
Qed.

(** A byte below 0x80 is never inside a rune: the string is read back
    piece by piece on both sides of it. *)
Lemma json_loop_split (a : string) (k : nat) (c : ascii) (b : string) :
  is_ascii c = true → (k ≤ String.length a)%nat →
  json_loop k (a +:+ String c b) = json_loop k a +:+ String c (json_loop 0 b).
Proof.
  intros Hc. revert k. induction a as [|x a IH]; intros k Hk.
  - simpl in Hk. assert (k = 0%nat) as -> by lia. simpl. by rewrite Hc.
  - rewrite append_cons. destruct k as [|k].
    + cbn [json_loop]. destruct (is_ascii x).
      { rewrite append_cons, IH; [done|simpl; lia]. }
      destruct (rune_width_ascii_end x a c b Hc) as [-> Hlen].
      destruct (rune_width (String x a)) as [n|].
      * rewrite append_cons, IH; [done|]. by apply Hlen.
      * rewrite IH by (simpl; lia). by rewrite append_assoc.
    + cbn [json_loop]. rewrite append_cons, IH; [done|]. simpl in Hk. lia.
Qed.

Lemma json_loop_length (k : nat) (s : string) :
  (String.length s ≤ String.length (json_loop k s))%nat.
Proof.
  revert k. induction s as [|c s IH]; intros k; [simpl; lia|].
  destruct k as [|k]; cbn [json_loop].
  - destruct (is_ascii c); [simpl; specialize (IH 0%nat); lia|].
    destruct (rune_width (String c s)) as [n|].
    + simpl. specialize (IH (n - 1)%nat). lia.
    + rewrite length_append. specialize (IH 0%nat). simpl. lia.
  - simpl. specialize (IH k). lia.
Qed.

Lemma valid_utf8_split (a : string) (c : ascii) (b : string) :
  is_ascii c = true →
  valid_utf8 (a +:+ String c b) → valid_utf8 a ∧ valid_utf8 (String c b).
Proof.
  intros Hc. unfold valid_utf8, json_string.
  rewrite json_loop_split by (done || lia). intros Heq.
  pose proof (json_loop_length 0 a) as Ha.
  pose proof (json_loop_length 0 b) as Hb.
  assert (Hlen : String.length (json_loop 0 a) = String.length a).
  { apply (f_equal String.length) in Heq. rewrite !length_append in Heq.
    simpl in Heq. lia. }
  destruct (append_inj_length _ _ _ _ Hlen Heq) as [Ha' [= Hb']].
  split; [done|]. simpl. by rewrite Hc, Hb'.
Qed.

(** What [filepath.Ext] returns is empty or starts with a dot. *)
Lemma Ext_loop_dot (path : string) (n : nat) :
  Ext_loop path n = "" ∨ ∃ t, Ext_loop path n = String "." t.
Proof.
  induction n as [|n IH]; simpl; [by left|].
  rewrite get_list.
  destruct (list_ascii_of_string path !! n) as [c|] eqn:Hc; [|by left].
  destruct (IsPathSeparator c); [by left|].
  destruct (Ascii.eqb_spec c ".") as [->|_]; [|exact IH].
  right. exists (string_of_list_ascii (drop (S n) (list_ascii_of_string path))).
  apply list_inj. rewrite substring_list. simpl.
  rewrite list_ascii_of_string_of_list_ascii.
  rewrite take_ge by (rewrite length_drop, length_list; lia).
  by apply drop_S.
Qed.

(** What [filepath.Ext] returns is the end of the path, from some index on,
    and has no separator. *)
Lemma Ext_loop_spec (path : string) (n : nat) :
  (n ≤ String.length path)%nat →
  "/"%char ∉ drop n (list_ascii_of_string path) →
  ∃ i, (i ≤ String.length path)%nat
       ∧ list_ascii_of_string (Ext_loop path n) = drop i (list_ascii_of_string path)
       ∧ "/"%char ∉ drop i (list_ascii_of_string path).
Proof.
  induction n as [|n IH]; intros Hn Htail; simpl.
  - exists (String.length path). split; [done|].
    rewrite <- length_list, drop_all. split; [done|]. apply not_elem_of_nil.
  - rewrite get_list.
    destruct (list_ascii_of_string path !! n) as [c|] eqn:Hc.
    2:{ apply lookup_ge_None in Hc. rewrite length_list in Hc. lia. }
    assert (Hdrop : drop n (list_ascii_of_string path)
                    = c :: drop (S n) (list_ascii_of_string path)).
    { by apply drop_S. }
    unfold IsPathSeparator. destruct (Ascii.eqb_spec c "/") as [->|Hsep].
    { exists (String.length path). split; [done|].
      rewrite <- length_list, drop_all. split; [done|]. apply not_elem_of_nil. }
    assert (Htail' : "/"%char ∉ drop n (list_ascii_of_string path)).
    { rewrite Hdrop, not_elem_of_cons. split; [congruence|done]. }
    destruct (Ascii.eqb c "."); [|apply IH; [lia|done]].
    exists n. split; [lia|]. split; [|done].
    rewrite substring_list, take_ge; [done|].
    rewrite length_drop, length_list. lia.
Qed.

Lemma Ext_spec (path : string) :
  ∃ base,
    path = base +:+ filepath_Ext path
    ∧ ¬ has_slash (filepath_Ext path)
    ∧ String.substring 0 (String.length path - String.length (filepath_Ext path)) path
      = base.
Proof.
  destruct (Ext_loop_spec path (String.length path)) as (i & Hi & Hext & Hno).
  { done. }
  { rewrite <- length_list, drop_all. apply not_elem_of_nil. }
  fold (filepath_Ext path) in Hext.
  assert (Hlen : String.length (filepath_Ext path) = (String.length path - i)%nat).
  { by rewrite <- length_list, Hext, length_drop, length_list. }
  exists (String.substring 0 i path). split; [|split].
  - apply list_inj. rewrite append_list, Hext, substring_list. simpl.
    by rewrite take_drop.
  - unfold has_slash. by rewrite Hext.
  - rewrite Hlen. f_equal. lia.
Qed.

(** The file name of a key that is valid UTF-8 is valid UTF-8. *)
Lemma valid_utf8_sanitizeFilename (key : string) :
  valid_utf8 key → valid_utf8 (sanitizeFilename key).
Proof.
  intros Hkey. destruct (Ext_spec key) as (base & Heq & _ & Hbase).
  unfold sanitizeFilename. rewrite Hbase.
  assert (Hext : valid_utf8 (filepath_Ext key)).
  { destruct (Ext_loop_dot key (String.length key)) as [H|[t H]];
      fold (filepath_Ext key) in H; rewrite H; [done|].
    rewrite Heq, H in Hkey. by apply valid_utf8_split in Hkey as [_ Hkey]. }
  unfold valid_utf8, json_string in *. rewrite json_loop_ascii.
  - by rewrite Hext.
  - by apply all_safe_ascii, sanitize_loop_safe.
Qed.

Lemma json_entry_valid (e : Entry) :
  json_entry e = e ↔ valid_utf8 (Key e) ∧ valid_utf8 (Filename e).
Proof.
  destruct e as [k f sz atime ctime]. unfold json_entry, valid_utf8. simpl. split.
  - by intros [= -> ->].
  - by intros [-> ->].
Qed.

(** ** Keys of the storage service *)

Lemma has_slash_cons c s :
  has_slash (String c s) ↔ c = "/"%char ∨ has_slash s.
Proof.
  unfold has_slash. simpl. rewrite elem_of_cons.
  split; (intros [H|H]; [left|right]); done.
Qed.

Lemma substring_prefix (b x : string) :
  String.substring 0 (String.length b) (b +:+ x) = b.
Proof.
  induction b as [|c b IH]; simpl.
  - by destruct x.
  - by rewrite IH.
Qed.

Lemma substring_whole (s : string) :
  String.substring 0 (String.length s) s = s.
Proof. induction s as [|c s IH]; simpl; [done|]. by rewrite IH. Qed.

Lemma substring_suffix (b o : string) (c : ascii) :
  String.substring (S (String.length b))
    (String.length (b +:+ String c o) - S (String.length b))
    (b +:+ String c o) = o.
Proof.
  induction b as [|a b IH]; simpl.
  - rewrite Nat.sub_0_r. apply substring_whole.
  - apply IH.
Qed.

Lemma index_slash_spec (s : string) :
  match index_slash s with
  | None => ¬ has_slash s
  | Some m =>
      ∃ b o, s = b +:+ String "/" o ∧ ¬ has_slash b ∧ String.length b = m
  end.
Proof.
  induction s as [|c s IH]; simpl.
  - unfold has_slash. simpl. by intros ?%elem_of_nil.
  - destruct (Ascii.eqb_spec c "/") as [->|Hne].
    + exists "", s. split; [done|]. split; [|done].
      unfold has_slash. simpl. by intros ?%elem_of_nil.
    + destruct (index_slash s) as [m|]; simpl.
      * destruct IH as (b & o & -> & Hb & <-).
        exists (String c b), o. split; [done|]. split; [|done].
        rewrite has_slash_cons. by intros [?|?].
      * rewrite has_slash_cons. by intros [?|?].
Qed.

Lemma parseS3Key_spec (key : string) :
  match parseS3Key key with
  | None => ¬ has_slash key
  | Some (bucket, objectKey) =>
      key = bucket +:+ String "/" objectKey ∧ ¬ has_slash bucket
  end.
Proof.
  unfold parseS3Key, SplitN2.
  pose proof (index_slash_spec key) as H.
  destruct (index_slash key) as [m|]; [|done].
  destruct H as (b & o & -> & Hb & <-).
  by rewrite substring_prefix, substring_suffix.
Qed.

Lemma has_slash_app (b o : string) : has_slash (b +:+ String "/" o).
Proof.
  induction b as [|c b IH].
  - apply has_slash_cons. by left.
  - apply has_slash_cons. by right.
Qed.

Lemma split_unique (b1 o1 b2 o2 : string) :
  ¬ has_slash b1 → ¬ has_slash b2 →
  b1 +:+ String "/" o1 = b2 +:+ String "/" o2 → b1 = b2 ∧ o1 = o2.
Proof.
  revert b2. induction b1 as [|c b1 IH]; intros [|c2 b2] H1 H2; simpl.
  - by intros [= ->].
  - intros [= <- _]. exfalso. apply H2, has_slash_cons. by left.
  - intros [= -> _]. exfalso. apply H1, has_slash_cons. by left.
  - intros [= -> Heq]. rewrite has_slash_cons in H1, H2.
    destruct (IH b2) as [-> ->]; [tauto..|done].
Qed.

Lemma parseS3Key_split (bucket objectPath : string) :
  ¬ has_slash bucket →
  parseS3Key (bucket +:+ String "/" objectPath) = Some (bucket, objectPath).
Proof.
  intros Hb. pose proof (parseS3Key_spec (bucket +:+ String "/" objectPath)) as H.
  destruct (parseS3Key _) as [[b o]|].
  - destruct H as [Heq Hb']. by destruct (split_unique _ _ _ _ Hb Hb' Heq) as [-> ->].
  - destruct H. apply has_slash_app.
Qed.

Lemma parseS3Key_no_slash (key : string) :
  ¬ has_slash key → parseS3Key key = None.
Proof.
  intros Hk. pose proof (parseS3Key_spec key) as H.
  destruct (parseS3Key key) as [[b o]|]; [|done].
  destruct H as [-> _]. destruct Hk. apply has_slash_app.
Qed.

(** C6.  For a key without '/', [Download] returns an error and leaves the
    downloader and the log of backend calls as they were, and the handler
    answers 404 when it gets there (the cache lookup missed); a key with a
    '/' is split at the first one into the container and the object path. *)
Theorem C6_key_without_separator_is_rejected :
  (∀ (be : Backend) (key : string) (s : S3State),
      ¬ has_slash key →
      Download be key s = (DownloadErr ErrParseKey, s))
  ∧ (∀ (be : Backend) (path : string) (io : RequestIO) (srv : Server),
      ¬ has_slash (TrimPrefix_slash path) →
      (Get (TrimPrefix_slash path) (now_get io) (world srv)).1.2 = false →
      ∃ msg srv',
        HandleFile be "GET" path io srv = Some (HttpError StatusNotFound msg, srv')
        ∧ s3 srv' = s3 srv)
  ∧ (∀ key : string,
      has_slash key →
      ∃ bucket objectPath,
        key = bucket +:+ "/" +:+ objectPath
        ∧ ¬ has_slash bucket
        ∧ parseS3Key key = Some (bucket, objectPath)).
Proof.
  split; [|split].
  - intros be key s Hk. unfold Download. by rewrite parseS3Key_no_slash.
  - intros be path io srv Hk Hmiss. unfold HandleFile. simpl.
    destruct (_ || _); [by eauto|].
    destruct (Get _ _ _) as [[filePath found] w]. simpl in Hmiss. subst found.
    unfold Download. rewrite parseS3Key_no_slash by done. by eauto.
  - intros key Hk. pose proof (parseS3Key_spec key) as H.
    destruct (parseS3Key key) as [[b o]|]; [|done].
    destruct H as [-> Hb]. by exists b, o.
Qed.

Lemma C6_key_without_separator_is_rejected_witness :
  (¬ has_slash "nokey"
   ∧ Download sample_backend "nokey" sample_s3 = (DownloadErr ErrParseKey, sample_s3))
  ∧ (¬ has_slash (TrimPrefix_slash "/nokey")
     ∧ (Get (TrimPrefix_slash "/nokey") (now_get sample_request_io)
            (world sample_server)).1.2 = false
     ∧ ∃ msg srv',
         HandleFile sample_backend "GET" "/nokey" sample_request_io sample_server
         = Some (HttpError StatusNotFound msg, srv')
         ∧ s3 srv' = s3 sample_server)
  ∧ (has_slash "bucket/a/b"
     ∧ ∃ bucket objectPath,
         "bucket/a/b" = bucket +:+ "/" +:+ objectPath
         ∧ ¬ has_slash bucket
         ∧ parseS3Key "bucket/a/b" = Some (bucket, objectPath)).
Proof.
  destruct C6_key_without_separator_is_rejected as (HDownload & HHandle & Hsplit).
  assert (Hno : ¬ has_slash "nokey").
  { pose proof (parseS3Key_spec "nokey") as H. exact H. }
  assert (Hyes : has_slash "bucket/a/b") by apply (has_slash_app "bucket" "a/b").
  split; [|split].
  - split; [exact Hno|]. by apply HDownload.
  - split; [exact Hno|]. split; [reflexivity|]. by apply HHandle.
  - split; [exact Hyes|]. by apply Hsplit.
Defined.

(** ** Region resolution *)

Section Regions.

Variable be : Backend.

Lemma count_calls_snoc (p : BackendCall → bool) (log : list BackendCall) (c : BackendCall) :
  count_calls p (log ++ [c]) = (count_calls p log + (if p c then 1 else 0))%nat.
Proof.
  unfold count_calls. rewrite filter_app, length_app. f_equal.
  rewrite filter_cons, filter_nil.
  destruct (decide (p c = true)) as [H|H]; destruct (p c); done.
Qed.

Lemma count_calls_app (p : BackendCall → bool) (l1 l2 : list BackendCall) :
  count_calls p (l1 ++ l2) = (count_calls p l1 + count_calls p l2)%nat.
Proof. unfold count_calls. by rewrite filter_app, length_app. Qed.

Lemma count_calls_cons (p : BackendCall → bool) (c : BackendCall) (l : list BackendCall) :
  count_calls p (c :: l) = ((if p c then 1 else 0) + count_calls p l)%nat.
Proof.
  unfold count_calls. rewrite filter_cons.
  destruct (decide (p c = true)) as [H|H]; destruct (p c); done.
Qed.

Lemma answer_is_query (bucket : string) (log : list BackendCall) :
  (count_calls (is_location_answer bucket) log
   ≤ count_calls (is_location_query bucket) log)%nat.
Proof.
  induction log as [|c log IH]; [done|]. rewrite !count_calls_cons.
  destruct c as [r b [loc|]|r b o f]; simpl; try destruct (String.eqb b bucket); lia.
Qed.

Lemma resolved_in_snoc bucket region log c :
  is_location_query bucket c = false →
  resolved_in bucket region log → resolved_in bucket region (log ++ [c]).
Proof.
  intros Hc (l1 & r & loc & l2 & -> & H1 & H2 & ->).
  exists l1, r, loc, (l2 ++ [c]). rewrite <- app_assoc. split; [done|].
  split; [done|]. split; [|done]. rewrite count_calls_snoc, H2, Hc. done.
Qed.

Lemma regions_inv_snoc s c :
  (∀ bucket, is_location_query bucket c = true →
             bucketRegions (downloader s) !! bucket = None
             ∧ is_location_answer bucket c = false) →
  regions_inv s → regions_inv (mkS3 (downloader s) (calls s ++ [c])).
Proof.
  intros Hc Hinv bucket. specialize (Hinv bucket). simpl.
  destruct (is_location_query bucket c) eqn:Hq.
  - destruct (Hc _ Hq) as [Hnone Ha]. rewrite Hnone in Hinv |- *.
    by rewrite count_calls_snoc, Hinv, Ha.
  - destruct (bucketRegions (downloader s) !! bucket).
    + by apply resolved_in_snoc.
    + rewrite count_calls_snoc, Hinv.
      destruct (is_location_answer bucket c) eqn:Ha; [|done].
      destruct c as [r b [loc|]|]; simpl in *; congruence.
Qed.

Lemma getClientForBucket_inv bucket s :
  regions_inv s → regions_inv (getClientForBucket be bucket s).2.
Proof.
  intros Hinv. unfold getClientForBucket.
  destruct (bucketRegions (downloader s) !! bucket) as [region|] eqn:Hb; [done|].
  destruct (locate be (calls s) bucket) as [location|]; simpl.
  - intros b. simpl. specialize (Hinv b).
    destruct (decide (bucket = b)) as [<-|Hne].
    + rewrite lookup_insert_eq. rewrite Hb in Hinv.
      exists (calls s), "us-east-1"%string, location, []. done.
    + rewrite lookup_insert_ne by done.
      assert (Hq : is_location_query b
                     (GetBucketLocation "us-east-1" bucket (Some location)) = false).
      { simpl. by apply String.eqb_neq. }
      destruct (bucketRegions (downloader s) !! b).
      * by apply resolved_in_snoc.
      * rewrite count_calls_snoc, Hinv. simpl.
        by rewrite (proj2 (String.eqb_neq bucket b)).
  - apply regions_inv_snoc; [|done]. intros b Hq. simpl in Hq.
    apply String.eqb_eq in Hq as <-. done.
Qed.

Lemma Download_inv key s :
  regions_inv s → regions_inv (Download be key s).2.
Proof.
  intros Hinv. unfold Download. destruct (parseS3Key key) as [[bucket objectKey]|]; [|done].
  pose proof (getClientForBucket_inv bucket s Hinv) as Hc.
  destruct (getClientForBucket be bucket s) as [[region|] s1]; [|done].
  simpl in Hc.
  assert (regions_inv
            (mkS3 (downloader s1)
                  (calls s1 ++ [GetObject region bucket objectKey
                     (bool_decide (is_Some (fetch be (calls s1) region bucket objectKey)))]))).
  { apply regions_inv_snoc; [|done]. intros b Hq. done. }
  by destruct (fetch be (calls s1) region bucket objectKey).
Qed.

Lemma download_all_inv keys s :
  regions_inv s → regions_inv (download_all be keys s).
Proof.
  revert s. induction keys as [|key keys IH]; intros s Hinv; [done|].
  apply IH. by apply Download_inv.
Qed.

Lemma regions_inv_fresh region : regions_inv (mkS3 (NewS3Downloader region) []).
Proof. intros bucket. simpl. by rewrite lookup_empty. Qed.

Hypothesis locate_total : ∀ log bucket, is_Some (locate be log bucket).

Lemma Download_all_answered key s :
  all_answered s → all_answered (Download be key s).2.
Proof.
  intros Hinv. unfold Download.
  destruct (parseS3Key key) as [[bucket objectKey]|]; [|done].
  assert (Hc : all_answered (getClientForBucket be bucket s).2).
  { unfold getClientForBucket.
    destruct (bucketRegions (downloader s) !! bucket); [done|].
    destruct (locate_total (calls s) bucket) as [location ->]. simpl.
    intros b. simpl. by rewrite !count_calls_snoc, Hinv. }
  destruct (getClientForBucket be bucket s) as [[region|] s1]; [|done].
  simpl in Hc.
  assert (all_answered
            (mkS3 (downloader s1)
                  (calls s1 ++ [GetObject region bucket objectKey
                     (bool_decide (is_Some (fetch be (calls s1) region bucket objectKey)))]))).
  { intros b. simpl. by rewrite !count_calls_snoc, Hc. }
  by destruct (fetch be (calls s1) region bucket objectKey).
Qed.

Lemma download_all_answered keys s :
  all_answered s → all_answered (download_all be keys s).
Proof.
  revert s. induction keys as [|key keys IH]; intros s Hinv; [done|].
  apply IH. by apply Download_all_answered.
Qed.

End Regions.

Lemma resolved_in_once bucket region log :
  resolved_in bucket region log →
  count_calls (is_location_answer bucket) log = 1%nat.
Proof.
  intros (l1 & r & loc & l2 & -> & H1 & H2 & _).
  rewrite count_calls_app, count_calls_cons, H1. simpl.
  rewrite String.eqb_refl.
  pose proof (answer_is_query bucket l2). lia.
Qed.

(** C7, amended.  Across any sequence of [Download]s, at most one location
    query for a bucket is answered: the answer is stored, an empty location
    as us-east-1, and from then on no [Download] queries the location of that
    bucket again.  A query that fails stores nothing, so the next [Download]
    for the bucket asks again; when no location query fails, there is at
    most one query per bucket. *)
Theorem C7_region_resolved_once_it_is_answered
    (be : Backend) (region0 : string) (keys : list string) (bucket : string) :
  let s := download_all be keys (mkS3 (NewS3Downloader region0) []) in
  match bucketRegions (downloader s) !! bucket with
  | None => count_calls (is_location_answer bucket) (calls s) = 0%nat
  | Some region =>
      ∃ l1 r location l2,
        calls s = l1 ++ GetBucketLocation r bucket (Some location) :: l2
        ∧ count_calls (is_location_answer bucket) l1 = 0%nat
        ∧ count_calls (is_location_query bucket) l2 = 0%nat
        ∧ region = (if String.eqb location "" then "us-east-1" else location)
  end
  ∧ (count_calls (is_location_answer bucket) (calls s) ≤ 1)%nat
  ∧ ((∀ log b, is_Some (locate be log b)) →
     (count_calls (is_location_query bucket) (calls s) ≤ 1)%nat).
Proof.
  intros s.
  pose proof (download_all_inv be keys _ (regions_inv_fresh region0) bucket) as Hinv.
  fold s in Hinv.
  assert (Hle : (count_calls (is_location_answer bucket) (calls s) ≤ 1)%nat).
  { destruct (bucketRegions (downloader s) !! bucket).
    - rewrite (resolved_in_once _ _ _ Hinv). lia.
    - rewrite Hinv. lia. }
  split; [exact Hinv|]. split; [exact Hle|].
  intros Htotal.
  rewrite (download_all_answered be Htotal keys (mkS3 (NewS3Downloader region0) []));
    [exact Hle|].
  intros b. done.
Qed.

Lemma C7_region_resolved_once_it_is_answered_witness :
  (∀ log b, is_Some (locate sample_backend log b))
  ∧ (count_calls (is_location_query "b")
       (calls (download_all sample_backend ["b/x"; "b/y"; "b/x"] sample_s3)) ≤ 1)%nat.
Proof.
  assert (Htotal : ∀ log b, is_Some (locate sample_backend log b)) by (intros; simpl; eauto).
  split; [exact Htotal|].
  by apply (C7_region_resolved_once_it_is_answered sample_backend "us-east-1"
              ["b/x"; "b/y"; "b/x"] "b").
Defined.

(** When the location query fails, two [Download]s for one bucket make two
    location queries. *)
Lemma C7_location_query_repeated_after_failure :
  count_calls (is_location_query "b")
    (calls (download_all sample_backend_down ["b/x"; "b/y"] sample_s3)) = 2%nat
  ∧ ¬ (count_calls (is_location_query "b")
         (calls (download_all sample_backend_down ["b/x"; "b/y"] sample_s3)) ≤ 1)%nat.
Proof.
  assert (H : count_calls (is_location_query "b")
    (calls (download_all sample_backend_down ["b/x"; "b/y"] sample_s3)) = 2%nat)
    by (vm_compute; reflexivity).
  split; [exact H|]. rewrite H. lia.
Qed.

(** ** Arithmetic modulo 2^64 *)

(** The bounds of an int64, spelled out for [lia]. *)
Ltac int64_bounds :=
  unfold Int64.in_range, Int64.min_int, Int64.max_int, Int64.half,
    Int64.modulus in *.

Lemma wrap_in_range (x : Z) : Int64.in_range x → Int64.wrap x = x.
Proof.
  unfold Int64.wrap. int64_bounds. intros H. rewrite Z.mod_small; lia.
Qed.

Lemma wrap_fits (x : Z) : 0 <= x <= Int64.max_int → Int64.wrap x = x.
Proof. intros H. apply wrap_in_range. int64_bounds. lia. Qed.

Lemma wrap_add_l (a b : Z) : Int64.wrap (Int64.wrap a + b) = Int64.wrap (a + b).
Proof.
  unfold Int64.wrap.
  replace ((a + Int64.half) mod Int64.modulus - Int64.half + b + Int64.half)
    with ((a + Int64.half) mod Int64.modulus + b) by lia.
  rewrite Zplus_mod_idemp_l. f_equal. f_equal. lia.
Qed.

Lemma wrap_sub_l (a b : Z) : Int64.wrap (Int64.wrap a - b) = Int64.wrap (a - b).
Proof. rewrite <- !Z.add_opp_r. apply wrap_add_l. Qed.

Lemma wrap_0 : Int64.wrap 0 = 0.
Proof. reflexivity. Qed.

(** ** The sum of the sizes *)

Lemma total_size_empty : total_size ∅ = 0.
Proof. apply map_fold_empty. Qed.

Lemma total_size_insert (m : gmap string Entry) (k : string) (e : Entry) :
  m !! k = None → total_size (<[k := e]> m) = Size e + total_size m.
Proof.
  intros H. unfold total_size. rewrite map_fold_insert_L; [done| |done].
  intros. lia.
Qed.

Lemma total_size_delete (m : gmap string Entry) (k : string) (e : Entry) :
  m !! k = Some e → total_size (delete k m) = total_size m - Size e.
Proof.
  intros H. unfold total_size.
  rewrite (map_fold_delete_L _ _ k e m); [lia| |done].
  intros. lia.
Qed.

Lemma total_size_nonneg (m : gmap string Entry) :
  (∀ k e, m !! k = Some e → 0 <= Size e) → 0 <= total_size m.
Proof.
  induction m as [|k e m Hk IH] using map_ind; intros Hm.
  - by rewrite total_size_empty.
  - rewrite total_size_insert by done.
    assert (0 <= Size e) by (apply (Hm k); apply lookup_insert_eq).
    assert (0 <= total_size m).
    { apply IH. intros k' e' H'. apply (Hm k').
      rewrite lookup_insert_ne; [done|]. intros ->. congruence. }
    lia.
Qed.

Lemma total_size_le_delete (m : gmap string Entry) (k : string) :
  (∀ k e, m !! k = Some e → 0 <= Size e) →
  total_size (delete k m) <= total_size m.
Proof.
  intros Hm. destruct (m !! k) as [e|] eqn:Hk.
  - rewrite (total_size_delete _ _ _ Hk). specialize (Hm _ _ Hk). lia.
  - by rewrite delete_id.
Qed.

(** ** The index stays well formed *)

Lemma wf_stats (f : Stats → Stats) (c : DiskLRUCache) : wf c → wf (with_stats f c).
Proof. intros []. by constructor. Qed.

Lemma size_entries_order (c : DiskLRUCache) :
  wf c → size (entries c) = length (accessOrder c).
Proof.
  intros Hwf. rewrite <- size_dom.
  assert (Hdom : dom (entries c) = list_to_set (accessOrder c)).
  { apply set_eq. intros k. rewrite elem_of_dom, elem_of_list_to_set.
    symmetry. apply (wf_order _ Hwf). }
  rewrite Hdom. apply size_list_to_set, (wf_nodup _ Hwf).
Qed.

Lemma list_Remove_elem (key k : string) (l : list string) :
  k ∈ list_Remove key l ↔ k ≠ key ∧ k ∈ l.
Proof. unfold list_Remove. by rewrite list_elem_of_filter. Qed.

Lemma list_Remove_snoc (key : string) (l : list string) :
  key ∉ l → list_Remove key (l ++ [key]) = l.
Proof.
  intros Hk. unfold list_Remove. rewrite filter_app, filter_cons, filter_nil.
  rewrite decide_False by (intros H; by apply H).
  rewrite app_nil_r. induction l as [|x l IH]; [done|].
  rewrite not_elem_of_cons in Hk. destruct Hk as [Hx Hl].
  rewrite filter_cons, decide_True by done. by rewrite IH.
Qed.

Lemma wf_removeEntry (key : string) (w : World) :
  wf (cache w) → wf (cache (removeEntry key w)).
Proof.
  intros Hwf. unfold removeEntry.
  destruct (entries (cache w) !! key) as [entry|] eqn:Hin; [|done].
  rewrite decide_True by (apply (wf_amap _ Hwf); eauto). simpl.
  constructor; simpl.
  - intros k e [_ H]%lookup_delete_Some. by apply (wf_key _ Hwf).
  - intros k e [_ H]%lookup_delete_Some. by apply (wf_size _ Hwf k).
  - apply NoDup_filter, (wf_nodup _ Hwf).
  - intros k. rewrite list_Remove_elem, (wf_order _ Hwf).
    unfold is_Some. setoid_rewrite lookup_delete_Some.
    split; [intros [Hne [e He]]|intros [e [Hne He]]]; eauto.
  - intros k. rewrite elem_of_difference, elem_of_singleton, (wf_amap _ Hwf).
    unfold is_Some. setoid_rewrite lookup_delete_Some.
    split; [intros [[e He] Hne]|intros [e [Hne He]]]; eauto.
  - unfold Int64.sub. rewrite (wf_current _ Hwf), wrap_sub_l.
    by rewrite (total_size_delete _ _ _ Hin).
Qed.

(** Under [wf], evicting the back of the list takes exactly that key away. *)
Lemma removeEntry_back (key : string) (l : list string) (w : World) :
  wf (cache w) → accessOrder (cache w) = l ++ [key] →
  ∃ entry,
    entries (cache w) !! key = Some entry
    ∧ accessOrder (cache (removeEntry key w)) = l
    ∧ entries (cache (removeEntry key w)) = delete key (entries (cache w))
    ∧ currentSize (cache (removeEntry key w))
      = Int64.wrap (total_size (entries (cache w)) - Size entry).
Proof.
  intros Hwf Hl.
  assert (Hin : is_Some (entries (cache w) !! key)).
  { apply (wf_order _ Hwf). rewrite Hl, elem_of_app, list_elem_of_singleton. by right. }
  destruct Hin as [entry Hin]. exists entry. split; [done|].
  pose proof (wf_nodup _ Hwf) as Hnd. rewrite Hl in Hnd.
  apply NoDup_app in Hnd as (_ & Hnot & _).
  unfold removeEntry. rewrite Hin.
  rewrite decide_True by (apply (wf_amap _ Hwf); eauto). simpl.
  split.
  { rewrite Hl. apply list_Remove_snoc. intros Hk. apply (Hnot _ Hk).
    by apply list_elem_of_singleton. }
  split; [done|].
  unfold Int64.sub. by rewrite (wf_current _ Hwf), wrap_sub_l.
Qed.

Lemma removeEntry_fields (key : string) (w : World) :
  maxSizeBytes (cache (removeEntry key w)) = maxSizeBytes (cache w)
  ∧ filesDir (cache (removeEntry key w)) = filesDir (cache w)
  ∧ cacheDir (cache (removeEntry key w)) = cacheDir (cache w)
  ∧ stats (cache (removeEntry key w)) = stats (cache w).
Proof.
  unfold removeEntry. destruct (entries (cache w) !! key); [|done].
  by destruct (decide (key ∈ accessMap (cache w))).
Qed.

Lemma evict_loop_spec (fuel : nat) (newSize : Z) (w : World) :
  wf (cache w) →
  (length (accessOrder (cache w)) ≤ fuel)%nat →
  ∃ w' evicted,
    evict_loop fuel newSize w = Some w' ∧ evicted_to newSize w w' evicted.
Proof.
  revert w. induction fuel as [|fuel IH]; intros w Hwf Hlen; simpl.
  - destruct (over_capacity newSize (cache w)) eqn:Hover.
    + unfold over_capacity in Hover. apply andb_true_iff in Hover as [_ H].
      apply bool_decide_eq_true in H. lia.
    + exists w, []. split; [done|]. constructor; try done.
      by rewrite app_nil_r.
  - destruct (over_capacity newSize (cache w)) eqn:Hover.
    2:{ exists w, []. split; [done|]. constructor; try done.
        by rewrite app_nil_r. }
    unfold list_Back. destruct (last (accessOrder (cache w))) as [key|] eqn:Hlast.
    2:{ apply last_None in Hlast. unfold over_capacity in Hover.
        apply andb_true_iff in Hover as [_ H]. apply bool_decide_eq_true in H.
        rewrite Hlast in H. simpl in H. lia. }
    apply last_Some in Hlast as [l Hl].
    destruct (removeEntry_back key l w Hwf Hl) as (entry & Hin & Hord & Hent & Hcur).
    destruct (removeEntry_fields key w) as (Hmax & Hfd & Hcd & Hst).
    set (w1 := with_cache (with_stats incr_Evictions) (removeEntry key w)).
    destruct (IH w1) as (w' & evicted & Hrun & Hspec).
    { apply wf_stats, wf_removeEntry, Hwf. }
    { subst w1. simpl. rewrite Hord. rewrite Hl, length_app in Hlen.
      simpl in Hlen. lia. }
    exists w', (evicted ++ [key]). split; [done|].
    destruct Hspec. subst w1. simpl in *. constructor; try congruence.
    + rewrite Hl, app_assoc. f_equal. by rewrite <- Hord.
    + intros k. rewrite ev_entries0, Hent.
      destruct (decide (k ∈ evicted)) as [Hk|Hk].
      * rewrite decide_True; [done|]. rewrite elem_of_app. by left.
      * destruct (decide (k = key)) as [->|Hne].
        -- rewrite lookup_delete_eq, decide_True; [done|].
           rewrite elem_of_app, list_elem_of_singleton. by right.
        -- rewrite lookup_delete_ne by done. rewrite decide_False; [done|].
           rewrite elem_of_app, list_elem_of_singleton. tauto.
    + by rewrite removeEntry_metadata in ev_metadata0.
    + etrans; [done|]. apply removeEntry_files_subseteq.
Qed.

(** ** The exchange sort of [loadFromDisk] *)

Lemma swap_if_before_length i j s : length (swap_if_before i j s) = length s.
Proof.
  unfold swap_if_before. destruct (s !! i) as [a|]; [|done].
  destruct (s !! j) as [b|]; [|done].
  case_bool_decide; [|done]. by rewrite !length_insert.
Qed.

Lemma swap_if_before_perm i j s : swap_if_before i j s ≡ₚ s.
Proof.
  unfold swap_if_before. destruct (s !! i) as [a|] eqn:Hi; [|done].
  destruct (s !! j) as [b|] eqn:Hj; [|done].
  case_bool_decide; [|done]. by apply Permutation_insert_swap.
Qed.

(** Where an element found after the exchange was before it. *)
Lemma swap_if_before_from i j s q x :
  swap_if_before i j s !! q = Some x →
  s !! q = Some x ∨ (q = i ∧ s !! j = Some x) ∨ (q = j ∧ s !! i = Some x).
Proof.
  unfold swap_if_before. destruct (s !! i) as [a|] eqn:Hi; [|by left].
  destruct (s !! j) as [b|] eqn:Hj; [|by left].
  case_bool_decide; [|by left].
  intros [(-> & -> & _)|[Hne Hq]]%list_lookup_insert_Some; [by right; left|].
  apply list_lookup_insert_Some in Hq as [(-> & -> & _)|[Hne' Hq]]; [by right; right|].
  by left.
Qed.

Lemma swap_if_before_other i j s q :
  q ≠ i → q ≠ j → swap_if_before i j s !! q = s !! q.
Proof.
  intros Hi Hj. unfold swap_if_before. destruct (s !! i) as [a|]; [|done].
  destruct (s !! j) as [b|]; [|done].
  case_bool_decide; [|done]. by rewrite !list_lookup_insert_ne.
Qed.

(** After the exchange the later of the two instants is at [i]. *)
Lemma swap_if_before_pair i j s a b :
  i ≠ j → s !! i = Some a → s !! j = Some b →
  ∃ a' b', swap_if_before i j s !! i = Some a'
           ∧ swap_if_before i j s !! j = Some b'
           ∧ b'.2 <= a'.2 ∧ a.2 <= a'.2.
Proof.
  intros Hne Hi Hj. unfold swap_if_before. rewrite Hi, Hj.
  pose proof (lookup_lt_Some _ _ _ Hi). pose proof (lookup_lt_Some _ _ _ Hj).
  case_bool_decide.
  - exists b, a. rewrite list_lookup_insert_eq by (by rewrite length_insert).
    rewrite list_lookup_insert_ne by done.
    rewrite list_lookup_insert_eq by done. repeat split; lia.
  - exists a, b. repeat split; [done..|lia|lia].
Qed.

Lemma swap_if_before_dominates i j s p :
  (p < i)%nat → (p < j)%nat → dominates s p → dominates (swap_if_before i j s) p.
Proof.
  intros Hpi Hpj Hdom q a b Hq Ha Hb.
  rewrite swap_if_before_other in Ha by lia.
  apply swap_if_before_from in Hb as [Hb|[[-> Hb]|[-> Hb]]].
  - by apply (Hdom q).
  - by apply (Hdom j).
  - by apply (Hdom i).
Qed.

Lemma sort_inner_spec n i j s :
  (i < j)%nat → (j + n = length s)%nat →
  dominates_upto s i j →
  let s' := sort_inner n i j s in
  length s' = length s
  ∧ s' ≡ₚ s
  ∧ (∀ p, (p < i)%nat → dominates s p → dominates s' p)
  ∧ dominates s' i.
Proof.
  revert j s. induction n as [|n IH]; intros j s Hij Hlen Hupto; simpl.
  - split; [done|]. split; [done|]. split; [done|].
    intros q a b Hq Ha Hb. apply (Hupto q); [|done..].
    apply lookup_lt_Some in Hb. lia.
  - assert (Hj : is_Some (s !! j)) by (apply lookup_lt_is_Some; lia).
    assert (Hi : is_Some (s !! i)) by (apply lookup_lt_is_Some; lia).
    destruct Hi as [a Hi], Hj as [b Hj].
    destruct (swap_if_before_pair i j s a b) as (a' & b' & Hi' & Hj' & Hba & Haa);
      [lia|done..|].
    destruct (IH (S j) (swap_if_before i j s)) as (H1 & H2 & H3 & H4).
    { lia. }
    { rewrite swap_if_before_length. lia. }
    { intros q x y Hq Hx Hy. rewrite Hi' in Hx. injection Hx as <-.
      destruct (decide (q = j)) as [->|Hne].
      - rewrite Hj' in Hy. injection Hy as <-. done.
      - rewrite swap_if_before_other in Hy by lia.
        specialize (Hupto q a y). etrans; [apply Hupto; [lia|done..]|done]. }
    split. { by rewrite H1, swap_if_before_length. }
    split. { by rewrite H2, swap_if_before_perm. }
    split; [|done].
    intros p Hp Hdom. apply H3; [done|].
    apply swap_if_before_dominates; [lia..|done].
Qed.

Lemma sort_outer_spec n i s :
  (∀ p, (p < i)%nat → dominates s p) →
  let s' := sort_outer n i s in
  length s' = length s
  ∧ s' ≡ₚ s
  ∧ (∀ p, (p < i + n)%nat → (p + 1 < length s)%nat → dominates s' p).
Proof.
  revert i s. induction n as [|n IH]; intros i s Hsorted; simpl.
  - split; [done|]. split; [done|]. intros p Hp _. apply Hsorted. lia.
  - destruct (decide (S i ≤ length s)%nat) as [Hle|Hgt].
    + destruct (sort_inner_spec (length s - S i) i (S i) s) as (H1 & H2 & H3 & H4).
      { lia. } { lia. } { intros q a b Hq. lia. }
      destruct (IH (S i) (sort_inner (length s - S i) i (S i) s)) as (H5 & H6 & H7).
      { intros p Hp. destruct (decide (p = i)) as [->|Hne]; [done|].
        apply H3; [lia|]. apply Hsorted. lia. }
      split. { by rewrite H5, H1. }
      split. { by rewrite H6, H2. }
      intros p Hp Hlen. apply H7; [lia|]. by rewrite H1.
    + replace (length s - S i)%nat with 0%nat by lia. simpl.
      destruct (IH (S i) s) as (H5 & H6 & H7).
      { intros p Hp. destruct (decide (p = i)) as [->|Hne]; [|apply Hsorted; lia].
        intros q a b Hq Ha Hb. apply lookup_lt_Some in Ha. lia. }
      split; [done|]. split; [done|].
      intros p Hp Hlen. apply H7; [lia|done].
Qed.

Lemma sort_by_access_time_length s : length (sort_by_access_time s) = length s.
Proof. apply (sort_outer_spec (length s - 1) 0 s). intros p Hp. lia. Qed.

Lemma sort_by_access_time_perm s : sort_by_access_time s ≡ₚ s.
Proof. apply (sort_outer_spec (length s - 1) 0 s). intros p Hp. lia. Qed.

Lemma sort_by_access_time_sorted s : sorted_desc (sort_by_access_time s).
Proof.
  destruct (sort_outer_spec (length s - 1) 0 s) as (H1 & H2 & H3).
  { intros p Hp. lia. }
  intros i j a b Hij Ha Hb. apply (H3 i) with (q := j); try done.
  - apply lookup_lt_Some in Hb. fold (sort_by_access_time s) in Hb.
    rewrite sort_by_access_time_length in Hb. lia.
  - apply lookup_lt_Some in Hb. fold (sort_by_access_time s) in Hb.
    rewrite sort_by_access_time_length in Hb. lia.
Qed.

(** ** Loading *)

Lemma load_entry_found d c e sz :
  os_Stat d (Filename e) = Some sz →
  entries (load_entry d c e) = <[Key e := refreshed e sz]> (entries c)
  ∧ currentSize (load_entry d c e) = Int64.add (currentSize c) sz.
Proof. intros H. unfold load_entry. by rewrite H. Qed.

Lemma load_entry_missing d c e :
  os_Stat d (Filename e) = None → load_entry d c e = c.
Proof. intros H. unfold load_entry. by rewrite H. Qed.

Lemma os_Stat_nonneg d name sz : os_Stat d name = Some sz → 0 <= sz.
Proof.
  unfold os_Stat. destruct (files d !! name); simpl; [|done].
  intros [= <-]. lia.
Qed.

Lemma load_entry_fields d c e :
  maxSizeBytes (load_entry d c e) = maxSizeBytes c
  ∧ filesDir (load_entry d c e) = filesDir c
  ∧ cacheDir (load_entry d c e) = cacheDir c
  ∧ stats (load_entry d c e) = stats c.
Proof. unfold load_entry. by destruct (os_Stat d (Filename e)). Qed.

Lemma foldl_load_fields d l c :
  maxSizeBytes (foldl (load_entry d) c l) = maxSizeBytes c
  ∧ filesDir (foldl (load_entry d) c l) = filesDir c
  ∧ cacheDir (foldl (load_entry d) c l) = cacheDir c
  ∧ stats (foldl (load_entry d) c l) = stats c.
Proof.
  revert c. induction l as [|e l IH]; intros c; simpl; [done|].
  destruct (IH (load_entry d c e)) as (-> & -> & -> & ->).
  apply load_entry_fields.
Qed.

Lemma foldl_load_keep d l c k :
  (∀ e, e ∈ l → Key e ≠ k) →
  entries (foldl (load_entry d) c l) !! k = entries c !! k.
Proof.
  revert c. induction l as [|x l IH]; intros c Hl; simpl; [done|].
  rewrite IH by (intros e He; apply Hl; by right).
  unfold load_entry. destruct (os_Stat d (Filename x)); [|done]. simpl.
  apply lookup_insert_ne, Hl. by left.
Qed.

Lemma foldl_load_found d l c e sz :
  NoDup (Key <$> l) → e ∈ l → os_Stat d (Filename e) = Some sz →
  entries (foldl (load_entry d) c l) !! Key e = Some (refreshed e sz).
Proof.
  revert c. induction l as [|x l IH]; intros c Hnd He Hstat; simpl.
  - by apply elem_of_nil in He.
  - rewrite fmap_cons in Hnd. apply NoDup_cons in Hnd as [Hx Hnd].
    apply elem_of_cons in He as [->|He]; [|by apply IH].
    rewrite foldl_load_keep.
    + destruct (load_entry_found d c x sz Hstat) as [-> _].
      apply lookup_insert_eq.
    + intros e He Heq. apply Hx. rewrite <- Heq. by apply list_elem_of_fmap_2.
Qed.

Lemma foldl_load_from d l c k e' :
  entries (foldl (load_entry d) c l) !! k = Some e' →
  entries c !! k = Some e'
  ∨ ∃ e, e ∈ l ∧ Key e = k
         ∧ os_Stat d (Filename e) = Some (Size e') ∧ e' = refreshed e (Size e').
Proof.
  revert c. induction l as [|x l IH]; intros c; simpl; [by left|].
  intros [H|(e & He & Hk & Hs & Hr)]%IH.
  - unfold load_entry in H. destruct (os_Stat d (Filename x)) as [sz|] eqn:Hstat;
      [|by left]. simpl in H.
    apply lookup_insert_Some in H as [[<- <-]|[_ H]]; [|by left].
    right. exists x. split; [by left|]. by simpl.
  - right. exists e. split; [by right|done].
Qed.

Lemma foldl_load_ok d l c :
  NoDup (Key <$> l) → (∀ e, e ∈ l → entries c !! Key e = None) →
  entries_ok c → entries_ok (foldl (load_entry d) c l).
Proof.
  revert c. induction l as [|x l IH]; intros c Hnd Hfresh Hok; simpl; [done|].
  rewrite fmap_cons in Hnd. apply NoDup_cons in Hnd as [Hx Hnd].
  apply IH; [done|..].
  - intros e He. unfold load_entry. destruct (os_Stat d (Filename x)); simpl.
    + rewrite lookup_insert_ne; [apply Hfresh; by right|].
      intros Heq. apply Hx. rewrite Heq. by apply list_elem_of_fmap_2.
    + apply Hfresh. by right.
  - destruct (os_Stat d (Filename x)) as [sz|] eqn:Hstat.
    2:{ by rewrite load_entry_missing. }
    destruct (load_entry_found d c x sz Hstat) as [He Hc].
    destruct Hok as (Hkey & Hsize & Hcur).
    assert (Hnone : entries c !! Key x = None) by (apply Hfresh; by left).
    unfold entries_ok. rewrite He, Hc. split; [|split].
    + intros k e [[<- <-]|[_ H]]%lookup_insert_Some; [done|by apply Hkey].
    + intros k e [[<- <-]|[_ H]]%lookup_insert_Some; [|by apply (Hsize k)].
      simpl. by apply (os_Stat_nonneg _ _ _ Hstat).
    + unfold Int64.add. rewrite Hcur, wrap_add_l.
      rewrite total_size_insert by done. simpl. f_equal. lia.
Qed.

Lemma foldl_PushBack (sorted : list entryWithTime) (acc : list string) :
  foldl (λ acc (e : entryWithTime), list_PushBack e.1 acc) acc sorted
  = acc ++ sorted.*1.
Proof.
  revert acc. induction sorted as [|e l IH]; intros acc; simpl.
  - by rewrite app_nil_r.
  - rewrite IH. unfold list_PushBack. by rewrite <- app_assoc.
Qed.

Lemma foldl_accessMap (sorted : list entryWithTime) (acc : gset string) (k : string) :
  k ∈ foldl (λ acc (e : entryWithTime), {[e.1]} ∪ acc) acc sorted
  ↔ k ∈ sorted.*1 ∨ k ∈ acc.
Proof.
  revert acc. induction sorted as [|e l IH]; intros acc; simpl.
  - rewrite elem_of_nil. tauto.
  - rewrite IH, elem_of_union, elem_of_singleton, elem_of_cons. tauto.
Qed.

(** The keys in the rebuilt recency list, in the order of the list. *)
Lemma loaded_order_perm (ord : RangeOrder) (m : gmap string Entry) :
  range_ok ord →
  (sort_by_access_time
     ((λ p : string * Entry, (p.1, AccessTime p.2)) <$> ord (map_to_list m))).*1
  ≡ₚ (map_to_list m).*1.
Proof.
  intros Hord. rewrite sort_by_access_time_perm, (Hord (map_to_list m)).
  rewrite <- list_fmap_compose. done.
Qed.

Lemma open_cache_cache dir maxBytes ord d :
  ∃ c,
    cache (open_cache dir maxBytes ord d) = c
    ∧ disk (open_cache dir maxBytes ord d) = d
    ∧ maxSizeBytes c = maxBytes
    ∧ match metadata d with
      | MetaEntries l =>
          let c1 := foldl (load_entry d) (empty_cache dir maxBytes) l in
          entries c = entries c1
          ∧ currentSize c = currentSize c1
          ∧ accessOrder c
            = (sort_by_access_time
                 ((λ p : string * Entry, (p.1, AccessTime p.2))
                    <$> ord (map_to_list (entries c1)))).*1
          ∧ (∀ k, k ∈ accessMap c ↔ k ∈ accessOrder c)
      | _ => c = empty_cache dir maxBytes
      end.
Proof.
  eexists. split; [reflexivity|]. unfold open_cache, loadFromDisk. simpl.
  destruct (metadata d) as [| |l]; simpl; [done..|].
  split; [done|].
  destruct (foldl_load_fields d l (empty_cache dir maxBytes)) as (-> & _).
  split; [done|]. split; [done|]. split; [done|]. split.
  { by rewrite foldl_PushBack. }
  intros k. rewrite foldl_accessMap, foldl_PushBack. simpl.
  rewrite elem_of_empty. tauto.
Qed.

Lemma entries_ok_empty dir maxBytes :
  entries_ok (empty_cache dir maxBytes).
Proof.
  unfold entries_ok. simpl. split; [|split].
  - intros k e. by rewrite lookup_empty.
  - intros k e. by rewrite lookup_empty.
  - by rewrite total_size_empty.
Qed.

Lemma wf_empty_cache dir maxBytes : wf (empty_cache dir maxBytes).
Proof.
  destruct (entries_ok_empty dir maxBytes) as (H1 & H2 & H3).
  constructor; try done; simpl.
  - constructor.
  - intros k. rewrite lookup_empty, elem_of_nil. split; [done|]. by intros [? ?].
  - intros k. rewrite lookup_empty, elem_of_empty. split; [done|]. by intros [? ?].
Qed.

Lemma wf_open_cache dir maxBytes ord d :
  range_ok ord → meta_ok d → wf (cache (open_cache dir maxBytes ord d)).
Proof.
  intros Hord Hmeta.
  destruct (open_cache_cache dir maxBytes ord d) as (c & -> & _ & _ & Hc).
  destruct (metadata d) as [| |l] eqn:Hm; [subst c; apply wf_empty_cache..|].
  simpl in Hc. destruct Hc as (He & Hcur & Hord' & Hamap).
  destruct (foldl_load_ok d l (empty_cache dir maxBytes)) as (H1 & H2 & H3).
  { by apply Hmeta. }
  { intros e _. apply lookup_empty. }
  { apply entries_ok_empty. }
  assert (Hperm : accessOrder c ≡ₚ (map_to_list (entries c)).*1).
  { rewrite Hord', He. by apply loaded_order_perm. }
  assert (Helem : ∀ k, k ∈ accessOrder c ↔ is_Some (entries c !! k)).
  { intros k. rewrite Hperm, list_elem_of_fmap. split.
    - intros [[k' e] [-> H]]. apply elem_of_map_to_list in H. eauto.
    - intros [e H]. exists (k, e). split; [done|]. by apply elem_of_map_to_list. }
  constructor.
  - rewrite He. apply H1.
  - rewrite He. apply H2.
  - rewrite Hperm. apply NoDup_fst_map_to_list.
  - done.
  - intros k. by rewrite Hamap.
  - by rewrite Hcur, He.
Qed.

(** ** [Put] and [Get] on a well-formed index *)

Lemma wf_install (entry : Entry) (c : DiskLRUCache) :
  wf c → entries c !! Key entry = None → 0 <= Size entry → wf (install entry c).
Proof.
  intros Hwf Hnone Hsize. constructor; simpl.
  - intros k e [[<- <-]|[_ H]]%lookup_insert_Some; [done|by apply (wf_key _ Hwf)].
  - intros k e [[<- <-]|[_ H]]%lookup_insert_Some; [done|by apply (wf_size _ Hwf k)].
  - unfold list_PushFront. apply NoDup_cons. split; [|apply (wf_nodup _ Hwf)].
    rewrite (wf_order _ Hwf), Hnone. by intros [? ?].
  - intros k. unfold list_PushFront.
    rewrite elem_of_cons, (wf_order _ Hwf), lookup_insert_is_Some. 
    destruct (decide (Key entry = k)) as [->|Hne]; [tauto|].
    split; [intros [->|?]|intros [->|[? ?]]]; tauto.
  - intros k. rewrite elem_of_union, elem_of_singleton, (wf_amap _ Hwf),
      lookup_insert_is_Some.
    destruct (decide (Key entry = k)) as [->|Hne]; [tauto|].
    split; [intros [->|?]|intros [->|[? ?]]]; tauto.
  - unfold Int64.add. rewrite (wf_current _ Hwf), wrap_add_l.
    rewrite total_size_insert by done. f_equal. lia.
Qed.

Lemma wf_Put_start key w : wf (cache w) → wf (cache (Put_start key w)).
Proof.
  intros Hwf. unfold Put_start. case_decide; [by apply wf_removeEntry|done].
Qed.

Lemma Put_start_entries key w :
  entries (cache (Put_start key w)) = delete key (entries (cache w)).
Proof.
  unfold Put_start. case_decide as H.
  - apply removeEntry_entries.
  - symmetry. apply delete_id. by apply eq_None_not_Some.
Qed.

Lemma Put_start_fields key w :
  maxSizeBytes (cache (Put_start key w)) = maxSizeBytes (cache w)
  ∧ filesDir (cache (Put_start key w)) = filesDir (cache w)
  ∧ cacheDir (cache (Put_start key w)) = cacheDir (cache w)
  ∧ stats (cache (Put_start key w)) = stats (cache w).
Proof. unfold Put_start. case_decide; [apply removeEntry_fields|done]. Qed.

Lemma Put_start_metadata key w :
  metadata (disk (Put_start key w)) = metadata (disk w).
Proof. unfold Put_start. case_decide; [apply removeEntry_metadata|done]. Qed.

Lemma on_tmp_metadata f tmp d :
  (∀ n d, metadata (f n d) = metadata d) → metadata (on_tmp f tmp d) = metadata d.
Proof. intros H. destruct tmp; simpl; [apply H|done]. Qed.

(** [Put] in terms of the states it goes through. *)
Lemma Put_eq (key : string) (data : bytes) (io : PutIO) (w : World) :
  Put key data io w =
  let filename := sanitizeFilename key in
  let tmp := tmp_name filename in
  let w0 := Put_start key w in
  if negb (create_ok io) then Some (PutErr ErrCreateTemp, w0) else
  if negb (copy_ok io)
  then Some (PutErr ErrWriteFile,
             with_disk (on_tmp os_Remove tmp)
                       (with_disk (on_tmp (λ n, os_WriteFile n []) tmp) w0)) else
  match evictIfNeeded (Z.of_nat (length data)) (Put_written key data w) with
  | None => None
  | Some (Some _, w2) =>
      Some (PutErr ErrEvict, with_disk (on_tmp os_Remove tmp) w2)
  | Some (None, w2) =>
      match rename_tmp (rename_ok io) tmp filename (disk w2) with
      | None => Some (PutErr ErrRename, with_disk (on_tmp os_Remove tmp) w2)
      | Some d =>
          Some (PutOk (filepath_Join (filesDir (cache w0)) filename),
                saveMetadata (range_order io) (meta_write io)
                  (mkWorld (install (Put_entry key data io) (cache w2)) d))
      end
  end.
Proof. reflexivity. Qed.

(** [Put] on a well-formed index, without the fuel: it returns, and what it
    returns follows the three things that can fail. *)
Lemma Put_unfold (key : string) (data : bytes) (io : PutIO) (w : World) :
  wf (cache w) →
  let filename := sanitizeFilename key in
  let tmp := tmp_name filename in
  let w0 := Put_start key w in
  let w1 := Put_written key data w in
  ∃ w2 evicted,
    evicted_to (Z.of_nat (length data)) w1 w2 evicted
    ∧ entries (cache w2) !! key = None
    ∧ Put key data io w =
      Some (if negb (create_ok io) then (PutErr ErrCreateTemp, w0)
            else if negb (copy_ok io)
            then (PutErr ErrWriteFile,
                  with_disk (on_tmp os_Remove tmp)
                            (with_disk (on_tmp (λ n, os_WriteFile n []) tmp) w0))
            else match rename_tmp (rename_ok io) tmp filename (disk w2) with
                 | None => (PutErr ErrRename, with_disk (on_tmp os_Remove tmp) w2)
                 | Some d =>
                     (PutOk (filepath_Join (filesDir (cache w0)) filename),
                      saveMetadata (range_order io) (meta_write io)
                        (mkWorld (install (Put_entry key data io) (cache w2)) d))
                 end).
Proof.
  intros Hwf filename tmp w0 w1.
  assert (Hwf1 : wf (cache w1)) by (apply wf_Put_start, Hwf).
  destruct (evict_loop_spec (size (entries (cache w1))) (Z.of_nat (length data)) w1)
    as (w2 & evicted & Hrun & Hspec); [done|by rewrite size_entries_order|].
  exists w2, evicted. split; [done|]. split.
  { rewrite (ev_entries _ _ _ _ Hspec). case_decide; [done|].
    subst w1. simpl. rewrite Put_start_entries. apply lookup_delete_eq. }
  rewrite Put_eq. cbv zeta. fold filename tmp w0 w1.
  destruct (create_ok io); simpl; [|done].
  destruct (copy_ok io); simpl; [|done].
  unfold evictIfNeeded. rewrite Hrun. simpl.
  by destruct (rename_tmp (rename_ok io) tmp filename (disk w2)).
Qed.

Lemma Put_total key data io w :
  wf (cache w) → ∃ r w', Put key data io w = Some (r, w').
Proof.
  intros Hwf. destruct (Put_unfold key data io w Hwf) as (w2 & ev & _ & _ & ->).
  eexists _, _. apply f_equal, surjective_pairing.
Qed.

Lemma Put_never_ErrEvict key data io w r w' :
  Put key data io w = Some (r, w') → r ≠ PutErr ErrEvict.
Proof.
  unfold Put. destruct (create_ok io); simpl; [|by intros [= <- _]].
  destruct (copy_ok io); simpl; [|by intros [= <- _]].
  destruct (evictIfNeeded _ _) as [[err w2]|] eqn:Hev; [|done].
  rewrite (evictIfNeeded_nil _ _ _ _ Hev).
  destruct (rename_tmp _ _ _ _); by intros [= <- _].
Qed.

Lemma saveMetadata_cache ord out w : cache (saveMetadata ord out w) = cache w.
Proof. by destruct out. Qed.

Lemma Put_wf key data io w r w' :
  wf (cache w) → Put key data io w = Some (r, w') → wf (cache w').
Proof.
  intros Hwf. destruct (Put_unfold key data io w Hwf) as (w2 & ev & Hspec & Hk & ->).
  destruct (create_ok io); simpl.
  2:{ intros [= <- <-]. by apply wf_Put_start. }
  destruct (copy_ok io); simpl.
  2:{ intros [= <- <-]. by apply wf_Put_start. }
  destruct (rename_tmp _ _ _ _); intros [= <- <-].
  - rewrite saveMetadata_cache. simpl. apply wf_install; simpl; [|done|lia].
    apply (ev_wf _ _ _ _ Hspec).
  - apply (ev_wf _ _ _ _ Hspec).
Qed.

Lemma wf_touch key now c : wf c → wf (touch key now c).
Proof.
  intros Hwf. constructor; simpl.
  - intros k e. rewrite lookup_alter_Some.
    intros [(-> & e0 & H & ->)|[_ H]]; simpl; by apply (wf_key _ Hwf).
  - intros k e. rewrite lookup_alter_Some.
    intros [(-> & e0 & H & ->)|[_ H]]; simpl; by apply (wf_size _ Hwf k).
  - apply (wf_nodup _ Hwf).
  - intros k. rewrite (wf_order _ Hwf), lookup_alter_is_Some. done.
  - intros k. rewrite (wf_amap _ Hwf), lookup_alter_is_Some. done.
  - rewrite (wf_current _ Hwf). f_equal.
    destruct (entries c !! key) as [e|] eqn:He.
    + rewrite <- (insert_delete_id (entries c) key e) by done.
      rewrite alter_insert_eq.
      rewrite !total_size_insert by apply lookup_delete_eq. done.
    + f_equal. apply map_eq. intros k. rewrite lookup_alter.
      case_decide; [|done]. subst. by rewrite He.
Qed.

Lemma wf_move_to_front key c : wf c → wf (move_to_front key c).
Proof.
  intros Hwf. unfold move_to_front. case_decide as Hk; [|done].
  assert (Hin : key ∈ accessOrder c).
  { apply (wf_order _ Hwf), (wf_amap _ Hwf), Hk. }
  unfold list_MoveToFront. rewrite decide_True by done.
  constructor; simpl; try apply Hwf.
  - apply NoDup_cons. split.
    + rewrite list_Remove_elem. tauto.
    + apply NoDup_filter, (wf_nodup _ Hwf).
  - intros k. rewrite elem_of_cons, list_Remove_elem, <- (wf_order _ Hwf).
    destruct (decide (k = key)) as [->|Hne]; tauto.
Qed.

Lemma Get_wf key now w : wf (cache w) → wf (cache (Get key now w).2).
Proof.
  intros Hwf. unfold Get. destruct (entries (cache w) !! key) as [entry|].
  - destruct (os_Stat (disk w) (Filename entry)); simpl.
    + by apply wf_stats, wf_move_to_front, wf_touch.
    + by apply wf_stats, wf_removeEntry.
  - simpl. by apply wf_stats.
Qed.

Lemma Get_metadata key now w :
  metadata (disk (Get key now w).2) = metadata (disk w).
Proof.
  unfold Get. destruct (entries (cache w) !! key) as [entry|]; [|done].
  destruct (os_Stat (disk w) (Filename entry)); simpl; [done|].
  apply removeEntry_metadata.
Qed.

Lemma Get_cacheDir key now w :
  cacheDir (cache (Get key now w).2) = cacheDir (cache w).
Proof.
  unfold Get. destruct (entries (cache w) !! key) as [entry|]; [|done].
  destruct (os_Stat (disk w) (Filename entry)); simpl.
  - unfold move_to_front. by case_decide.
  - apply removeEntry_fields.
Qed.

Lemma Disk_eta (d : Disk) : mkDisk (files d) (metadata d) = d.
Proof. by destruct d. Qed.

Lemma os_Stat_None d name : os_Stat d name = None ↔ files d !! name = None.
Proof. unfold os_Stat. destruct (files d !! name); simpl; split; done. Qed.

Lemma removeEntry_stats key w :
  stats (cache (removeEntry key w)) = stats (cache w).
Proof. apply removeEntry_fields. Qed.

(** [Get] leaves the disk as it is: the file it removes with a stale entry
    is not there. *)
Lemma Get_disk (key : string) (now : Time) (w : World) :
  disk (Get key now w).2 = disk w.
Proof.
  unfold Get. destruct (entries (cache w) !! key) as [entry|] eqn:Hin; [|done].
  destruct (os_Stat (disk w) (Filename entry)) eqn:Hstat; [done|]. simpl.
  apply os_Stat_None in Hstat. unfold removeEntry. rewrite Hin.
  destruct (decide (key ∈ accessMap (cache w))); simpl;
    unfold os_Remove; rewrite delete_id by done; apply Disk_eta.
Qed.

Lemma Get_entries_from key now w k e' :
  entries (cache (Get key now w).2) !! k = Some e' →
  ∃ e, entries (cache w) !! k = Some e
       ∧ Key e' = Key e ∧ Filename e' = Filename e ∧ Size e' = Size e.
Proof.
  unfold Get. destruct (entries (cache w) !! key) as [entry|] eqn:Hin.
  - destruct (os_Stat (disk w) (Filename entry)); simpl.
    + assert (Hmove : ∀ c, entries (move_to_front key c) = entries c).
      { intros c. unfold move_to_front. by case_decide. }
      rewrite Hmove. simpl. rewrite lookup_alter_Some.
      intros [(-> & e & He & ->)|[_ He]]; by eexists.
    + rewrite removeEntry_entries. intros [_ He]%lookup_delete_Some. by eexists.
  - simpl. intros He. by eexists.
Qed.

Lemma evict_loop_files_subseteq fuel newSize w w' :
  evict_loop fuel newSize w = Some w' → files (disk w') ⊆ files (disk w).
Proof.
  revert w. induction fuel as [|fuel IH]; intros w; simpl.
  - destruct (over_capacity newSize (cache w)); [done|]. by intros [= <-].
  - destruct (over_capacity newSize (cache w)); [|by intros [= <-]].
    destruct (list_Back (accessOrder (cache w))) as [victim|]; [|by intros [= <-]].
    intros Hrun. etrans; [apply (IH _ Hrun)|]. simpl.
    apply removeEntry_files_subseteq.
Qed.

Lemma evict_loop_entries_subseteq fuel newSize w w' :
  evict_loop fuel newSize w = Some w' → entries (cache w') ⊆ entries (cache w).
Proof.
  revert w. induction fuel as [|fuel IH]; intros w; simpl.
  - destruct (over_capacity newSize (cache w)); [done|]. by intros [= <-].
  - destruct (over_capacity newSize (cache w)); [|by intros [= <-]].
    destruct (list_Back (accessOrder (cache w))) as [victim|]; [|by intros [= <-]].
    intros Hrun. etrans; [apply (IH _ Hrun)|]. simpl.
    rewrite removeEntry_entries. apply delete_subseteq.
Qed.

(** What an eviction run leaves as it was. *)
Lemma evict_loop_keeps fuel newSize w w' :
  evict_loop fuel newSize w = Some w' →
  metadata (disk w') = metadata (disk w)
  ∧ filesDir (cache w') = filesDir (cache w)
  ∧ Hits (stats (cache w')) = Hits (stats (cache w))
  ∧ Misses (stats (cache w')) = Misses (stats (cache w)).
Proof.
  revert w. induction fuel as [|fuel IH]; intros w; simpl.
  - destruct (over_capacity newSize (cache w)); [done|]. by intros [= <-].
  - destruct (over_capacity newSize (cache w)); [|by intros [= <-]].
    destruct (list_Back (accessOrder (cache w))) as [victim|]; [|by intros [= <-]].
    intros Hrun. destruct (IH _ Hrun) as (-> & -> & -> & ->). simpl.
    rewrite removeEntry_metadata, removeEntry_stats.
    by destruct (removeEntry_fields victim w) as (_ & -> & _).
Qed.

Lemma Put_start_files key w : files (disk (Put_start key w)) ⊆ files (disk w).
Proof. unfold Put_start. case_decide; [apply removeEntry_files_subseteq|done]. Qed.

Lemma Put_start_stats key w : stats (cache (Put_start key w)) = stats (cache w).
Proof. apply Put_start_fields. Qed.

Lemma tmp_name_neq filename n : tmp_name filename = Some n → n ≠ filename.
Proof.
  unfold tmp_name. destruct (is_dir_name filename); [done|]. intros [= <-] Heq.
  apply (f_equal String.length) in Heq. rewrite length_append in Heq.
  simpl in Heq. lia.
Qed.

(** After the temporary file was written and removed again, nothing is on
    disk that was not there before. *)
Lemma on_tmp_remove_subseteq tmp content (d0 d : Disk) :
  files d ⊆ files (on_tmp (λ n, os_WriteFile n content) tmp d0) →
  files (on_tmp os_Remove tmp d) ⊆ files d0.
Proof.
  destruct tmp as [n|]; simpl; [|done]. intros H.
  etrans; [apply (delete_mono (files d) (<[n:=content]> (files d0)) n), H|].
  rewrite delete_insert_eq. apply delete_subseteq.
Qed.

(** A [Put] that returns an error has only taken away. *)
Lemma Put_err_removes key data io w w' e :
  Put key data io w = Some (PutErr e, w') →
  files (disk w') ⊆ files (disk w)
  ∧ metadata (disk w') = metadata (disk w)
  ∧ entries (cache w') ⊆ entries (cache w)
  ∧ Hits (stats (cache w')) = Hits (stats (cache w))
  ∧ Misses (stats (cache w')) = Misses (stats (cache w)).
Proof.
  rewrite Put_eq. cbv zeta.
  set (tmp := tmp_name (sanitizeFilename key)).
  pose proof (Put_start_files key w) as Hf0.
  pose proof (Put_start_metadata key w) as Hm0.
  pose proof (Put_start_stats key w) as Hs0.
  assert (He0 : entries (cache (Put_start key w)) ⊆ entries (cache w)).
  { rewrite Put_start_entries. apply delete_subseteq. }
  assert (Hrm : ∀ d, metadata (on_tmp os_Remove tmp d) = metadata d).
  { intros d. by destruct tmp. }
  assert (Hwr : ∀ d content,
             metadata (on_tmp (λ n, os_WriteFile n content) tmp d) = metadata d).
  { intros d content. by destruct tmp. }
  destruct (create_ok io); simpl.
  2:{ intros [= <- <-]. by rewrite Hm0, Hs0. }
  destruct (copy_ok io); simpl.
  2:{ intros [= <- <-]. simpl. rewrite Hrm, Hwr, Hm0, Hs0.
      split; [|done]. etrans; [|exact Hf0].
      by apply (on_tmp_remove_subseteq tmp [] (disk (Put_start key w))). }
  destruct (evictIfNeeded _ _) as [[err w2]|] eqn:Hev; [|done].
  pose proof (evictIfNeeded_nil _ _ _ _ Hev) as ->.
  apply evictIfNeeded_loop in Hev.
  destruct (rename_tmp _ _ _ _); [done|]. intros [= <- <-]. simpl.
  destruct (evict_loop_keeps _ _ _ _ Hev) as (Hm2 & _ & Hh2 & Hmi2).
  pose proof (evict_loop_files_subseteq _ _ _ _ Hev) as Hf2.
  pose proof (evict_loop_entries_subseteq _ _ _ _ Hev) as He2.
  unfold Put_written in *. fold tmp in Hf2, Hm2, Hh2, Hmi2, He2. simpl in *.
  rewrite Hrm, Hm2, !Hwr, Hm0, Hh2, Hmi2, Hs0.
  split; [|split; [done|split; [by etrans|done]]].
  etrans; [|exact Hf0].
  apply (on_tmp_remove_subseteq tmp data (disk (Put_start key w))).
  etrans; [exact Hf2|]. destruct tmp as [n|]; simpl; [|done].
  by rewrite insert_insert_eq.
Qed.

Lemma rename_tmp_Some ok tmp filename d d' :
  rename_tmp ok tmp filename d = Some d' →
  ∃ n content,
    tmp = Some n ∧ files d !! n = Some content
    ∧ d' = mkDisk (<[filename := content]> (delete n (files d))) (metadata d).
Proof.
  unfold rename_tmp, os_Rename. destruct tmp as [n|]; [|done].
  destruct ok; [|done]. destruct (files d !! n) as [content|] eqn:Hn; [|done].
  intros [= <-]. by exists n, content.
Qed.

Lemma Put_written_tmp key data w n :
  tmp_name (sanitizeFilename key) = Some n →
  files (disk (Put_written key data w)) !! n = Some data.
Proof. intros H. unfold Put_written. rewrite H. simpl. apply lookup_insert_eq. Qed.

(** What a [Put] that succeeds has done, from the state [w2] that the
    eviction pass left. *)
Lemma Put_ok_parts key data io w filePath w' :
  Put key data io w = Some (PutOk filePath, w') →
  ∃ w2 n,
    evict_loop (size (entries (cache (Put_written key data w))))
               (Z.of_nat (length data)) (Put_written key data w) = Some w2
    ∧ tmp_name (sanitizeFilename key) = Some n
    ∧ files (disk w2) !! n = Some data
    ∧ filePath = filepath_Join (filesDir (cache w)) (sanitizeFilename key)
    ∧ cache w' = install (Put_entry key data io) (cache w2)
    ∧ files (disk w') = <[sanitizeFilename key := data]> (delete n (files (disk w2)))
    ∧ metadata (disk w')
      = match meta_write io with
        | Written =>
            MetaEntries
              (json_entry <$> (range_order io (map_to_list (entries (cache w')))).*2)
        | NotWritten => metadata (disk w)
        | Torn => MetaInvalid
        end.
Proof.
  rewrite Put_eq. cbv zeta.
  destruct (create_ok io); simpl; [|done].
  destruct (copy_ok io); simpl; [|done].
  destruct (evictIfNeeded _ _) as [[err w2]|] eqn:Hev; [|done].
  pose proof (evictIfNeeded_nil _ _ _ _ Hev) as ->.
  apply evictIfNeeded_loop in Hev.
  destruct (rename_tmp _ _ _ _) as [d|] eqn:Hren; [|done]. intros [= <- <-].
  apply rename_tmp_Some in Hren as (n & content & Htmp & Hn & ->).
  exists w2, n. split; [exact Hev|]. split; [exact Htmp|].
  assert (content = data) as ->.
  { pose proof (Put_written_tmp key data w n Htmp) as Hdata.
    pose proof (lookup_weaken _ _ _ _ Hn (evict_loop_files_subseteq _ _ _ _ Hev)) as Hn'.
    congruence. }
  split; [exact Hn|].
  split; [by destruct (Put_start_fields key w) as (_ & -> & _)|].
  rewrite saveMetadata_cache. simpl. split; [done|].
  destruct (evict_loop_keeps _ _ _ _ Hev) as (Hm2 & _).
  assert (Hm : metadata (disk w2) = metadata (disk w)).
  { rewrite Hm2. unfold Put_written. simpl. rewrite Htmp. simpl.
    apply Put_start_metadata. }
  destruct (meta_write io); simpl; by rewrite ?Hm.
Qed.
Lemma Put_entries_from key data io w r w' k e :
  Put key data io w = Some (r, w') →
  entries (cache w') !! k = Some e →
  (k = key ∧ e = Put_entry key data io) ∨ (entries (cache w) !! k = Some e).
Proof.
  intros HPut He. destruct r as [filePath|err].
  - destruct (Put_ok_parts _ _ _ _ _ _ HPut) as (w2 & n & Hrun & _ & _ & _ & Hc & _).
    rewrite Hc in He. simpl in He. destruct (decide (k = key)) as [->|Hne].
    + rewrite lookup_insert_eq in He. injection He as <-. by left.
    + rewrite lookup_insert_ne in He by done. right.
      pose proof (lookup_weaken _ _ _ _ He (evict_loop_entries_subseteq _ _ _ _ Hrun))
        as H1.
      simpl in H1. rewrite Put_start_entries in H1.
      by apply lookup_delete_Some in H1 as [_ H1].
  - destruct (Put_err_removes _ _ _ _ _ _ HPut) as (_ & _ & Hsub & _).
    right. by apply (lookup_weaken _ _ _ _ He Hsub).
Qed.

(** ** What is written to metadata.json and read back *)

(** What [saveMetadata] takes from the index has one entry per key. *)
Lemma saved_entries_NoDup (ord : RangeOrder) (c : DiskLRUCache) :
  range_ok ord → wf c →
  NoDup (Key <$> (ord (map_to_list (entries c))).*2).
Proof.
  intros Hord Hwf. rewrite (Hord (map_to_list (entries c))).
  assert (Heq : Key <$> (map_to_list (entries c)).*2 = (map_to_list (entries c)).*1).
  { rewrite <- list_fmap_compose. apply list_eq. intros i.
    rewrite !list_lookup_fmap.
    destruct (map_to_list (entries c) !! i) as [[k e]|] eqn:Hi; [|done]. simpl.
    apply list_elem_of_lookup_2, elem_of_map_to_list in Hi.
    f_equal. by apply (wf_key _ Hwf). }
  rewrite Heq. apply NoDup_fst_map_to_list.
Qed.

Lemma saved_entries_elem (ord : RangeOrder) (c : DiskLRUCache) (e : Entry) :
  range_ok ord →
  e ∈ (ord (map_to_list (entries c))).*2 ↔ ∃ k, entries c !! k = Some e.
Proof.
  intros Hord. rewrite (Hord (map_to_list (entries c))), list_elem_of_fmap. split.
  - intros ([k e'] & -> & Hin%elem_of_map_to_list). by exists k.
  - intros [k Hk]. exists (k, e). split; [done|]. by apply elem_of_map_to_list.
Qed.

(** Entries whose strings are valid UTF-8 are written as they are. *)
Lemma saved_entries_exact (ord : RangeOrder) (c : DiskLRUCache) :
  range_ok ord →
  (∀ k e, entries c !! k = Some e → json_entry e = e) →
  json_entry <$> (ord (map_to_list (entries c))).*2
  = (ord (map_to_list (entries c))).*2.
Proof.
  intros Hord Hvalid. apply list_eq. intros i. rewrite list_lookup_fmap.
  destruct ((ord (map_to_list (entries c))).*2 !! i) as [e|] eqn:Hi; [|done].
  simpl. f_equal.
  apply list_elem_of_lookup_2, saved_entries_elem in Hi as [k Hk]; [|done].
  by apply (Hvalid k).
Qed.

Lemma json_entry_Put_entry key data io :
  valid_utf8 key → json_entry (Put_entry key data io) = Put_entry key data io.
Proof.
  intros Hkey. apply json_entry_valid. simpl.
  split; [done|by apply valid_utf8_sanitizeFilename].
Qed.

Lemma Get_utf8_ok key now w : utf8_ok w → utf8_ok (Get key now w).2.
Proof.
  intros [Hent Hmeta]. split.
  - intros k e' (e & He & Hk & Hf & _)%Get_entries_from.
    apply json_entry_valid. rewrite Hk, Hf. by apply json_entry_valid, (Hent k).
  - rewrite Get_metadata. exact Hmeta.
Qed.

Lemma Put_utf8_ok key data io w r w' :
  valid_utf8 key → range_ok (range_order io) → utf8_ok w →
  Put key data io w = Some (r, w') → utf8_ok w'.
Proof.
  intros Hkey Hord [Hent Hmeta] HPut.
  assert (Hent' : ∀ k e, entries (cache w') !! k = Some e → json_entry e = e).
  { intros k e He.
    destruct (Put_entries_from _ _ _ _ _ _ _ _ HPut He) as [[_ ->]|He0].
    - by apply json_entry_Put_entry.
    - by apply (Hent k). }
  split; [exact Hent'|]. destruct r as [filePath|err].
  - destruct (Put_ok_parts _ _ _ _ _ _ HPut) as (w2 & n & _ & _ & _ & _ & _ & _ & Hm).
    rewrite Hm. destruct (meta_write io); [|exact Hmeta|done].
    intros l e [= <-]. rewrite (saved_entries_exact _ _ Hord Hent').
    intros [k Hk]%saved_entries_elem; [|done]. by apply (Hent' k).
  - destruct (Put_err_removes _ _ _ _ _ _ HPut) as (_ & -> & _). exact Hmeta.
Qed.

Lemma Put_meta_ok key data io w r w' :
  valid_utf8 key → range_ok (range_order io) →
  wf (cache w) → utf8_ok w → meta_ok (disk w) →
  Put key data io w = Some (r, w') → meta_ok (disk w').
Proof.
  intros Hkey Hord Hwf Hutf Hmeta HPut.
  destruct (Put_utf8_ok _ _ _ _ _ _ Hkey Hord Hutf HPut) as [Hent' _].
  pose proof (Put_wf _ _ _ _ _ _ Hwf HPut) as Hwf'.
  unfold meta_ok. destruct r as [filePath|err].
  - destruct (Put_ok_parts _ _ _ _ _ _ HPut) as (w2 & n & _ & _ & _ & _ & _ & _ & Hm).
    rewrite Hm. destruct (meta_write io); [|exact Hmeta|done].
    intros l [= <-]. rewrite (saved_entries_exact _ _ Hord Hent').
    by apply saved_entries_NoDup.
  - destruct (Put_err_removes _ _ _ _ _ _ HPut) as (_ & -> & _). exact Hmeta.
Qed.

Lemma open_cache_disk dir maxBytes ord d :
  disk (open_cache dir maxBytes ord d) = d.
Proof. unfold open_cache, loadFromDisk. simpl. by destruct (metadata d). Qed.

Lemma open_cache_utf8_ok dir maxBytes ord d :
  (∀ l e, metadata d = MetaEntries l → e ∈ l → json_entry e = e) →
  utf8_ok (open_cache dir maxBytes ord d).
Proof.
  intros Hmeta. unfold utf8_ok. rewrite open_cache_disk. split; [|exact Hmeta].
  destruct (open_cache_cache dir maxBytes ord d) as (c & -> & _ & _ & Hc).
  destruct (metadata d) as [| |l] eqn:Hl.
  - rewrite Hc. intros k e He. simpl in He. by apply lookup_empty_Some in He.
  - rewrite Hc. intros k e He. simpl in He. by apply lookup_empty_Some in He.
  - destruct Hc as (-> & _). intros k e'.
    intros [He|(e & He & _ & _ & ->)]%foldl_load_from.
    + simpl in He. by apply lookup_empty_Some in He.
    + apply json_entry_valid. simpl. by apply json_entry_valid, (Hmeta l).
Qed.

(** The invariant of the reachable states. *)
Lemma reachable_inv (w : World) :
  reachable w → wf (cache w) ∧ meta_ok (disk w) ∧ utf8_ok w.
Proof.
  induction 1 as [dir maxBytes ord fs|w w' Hreach (Hwf & Hmeta & Hutf) Hstep].
  - split; [|split].
    + unfold open_cache, loadFromDisk. simpl. apply wf_empty_cache.
    + rewrite open_cache_disk. by intros l.
    + apply open_cache_utf8_ok. by intros l e.
  - destruct Hstep
      as [key now w|key data io w r w' Hkey Hord HPut|fs w|maxBytes ord w Hord].
    + split; [by apply Get_wf|]. split; [|by apply Get_utf8_ok].
      unfold meta_ok. by rewrite Get_metadata.
    + split; [by apply (Put_wf _ _ _ _ _ _ Hwf HPut)|]. split.
      * by apply (Put_meta_ok _ _ _ _ _ _ Hkey Hord Hwf Hutf Hmeta HPut).
      * by apply (Put_utf8_ok _ _ _ _ _ _ Hkey Hord Hutf HPut).
    + done.
    + split; [by apply wf_open_cache|]. rewrite open_cache_disk. split; [done|].
      apply open_cache_utf8_ok. apply Hutf.
Qed.

Lemma reachable_wf (w : World) :
  reachable w → wf (cache w) ∧ meta_ok (disk w).
Proof. intros (Hwf & Hmeta & _)%reachable_inv. by split. Qed.

(** [NewDiskLRUCache] is [open_cache] at a capacity given in gigabytes. *)
Lemma NewDiskLRUCache_open dir maxSizeGB ord d :
  NewDiskLRUCache dir maxSizeGB true ord d
  = Some (open_cache dir (GB maxSizeGB) ord d).
Proof. reflexivity. Qed.

Lemma NewDiskLRUCache_reachable dir maxSizeGB ord fs w :
  NewDiskLRUCache dir maxSizeGB true ord (mkDisk fs MetaAbsent) = Some w →
  reachable w.
Proof. rewrite NewDiskLRUCache_open. intros [= <-]. apply reachable_fresh. Qed.

(** ** The invariant of the index *)

Lemma GetStats_TotalBytes w : TotalBytes (GetStats w) = currentSize (cache w).
Proof. reflexivity. Qed.

(** X20.  In every state a cache reaches from a directory
    without metadata, through [Get]s, [Put]s of keys that are valid UTF-8,
    changes made to the files from outside and restarts, a key has one
    element in the recency list and one entry, the entry stored under it,
    and the current size, which [GetStats] reports as [TotalBytes], is the
    sum of the sizes of the entries, as an int64: the sum itself as long as
    it fits. *)
Theorem index_invariant (w : World) :
  reachable w →
  NoDup (accessOrder (cache w))
  ∧ (∀ k, k ∈ accessOrder (cache w) ↔ is_Some (entries (cache w) !! k))
  ∧ (∀ k e, entries (cache w) !! k = Some e → Key e = k)
  ∧ currentSize (cache w) = Int64.wrap (total_size (entries (cache w)))
  ∧ TotalBytes (GetStats w) = Int64.wrap (total_size (entries (cache w)))
  ∧ (total_size (entries (cache w)) <= Int64.max_int →
     currentSize (cache w) = total_size (entries (cache w))
     ∧ TotalBytes (GetStats w) = total_size (entries (cache w))).
Proof.
  intros [Hwf _]%reachable_wf.
  split; [apply (wf_nodup _ Hwf)|]. split; [apply (wf_order _ Hwf)|].
  split; [apply (wf_key _ Hwf)|]. split; [apply (wf_current _ Hwf)|].
  rewrite GetStats_TotalBytes. split; [apply (wf_current _ Hwf)|].
  intros Hfit. rewrite (wf_current _ Hwf), wrap_in_range; [done|].
  pose proof (total_size_nonneg _ (wf_size _ Hwf)).
  int64_bounds. lia.
Qed.

Lemma sample_held_reachable : reachable sample_held.
Proof.
  apply (reachable_step (sample_fresh 10)); [apply reachable_fresh|].
  apply (step_Put "b/x" (zeros 6) (sample_io 1) _ (PutOk "/c/files/b_x")).
  - reflexivity.
  - intros l. done.
  - vm_compute. reflexivity.
Qed.

Lemma index_invariant_witness :
  reachable sample_held
  ∧ currentSize (cache sample_held) = total_size (entries (cache sample_held)).
Proof.
  split; [exact sample_held_reachable|].
  apply (index_invariant sample_held sample_held_reachable).
  vm_compute. discriminate.
Defined.

(** C5.  Two keys that differ in a byte that is not valid UTF-8 are stored
    in a cache of one gigabyte; the current size is the sum of the two
    sizes.  Both keys are written to metadata.json as the same string, and
    the cache that a restart opens on the directory has one entry of 6
    bytes under that string while [loadFromDisk] has added the size of the
    file once for each of the two persisted entries: the current size, and
    [TotalBytes] of [GetStats], is 12. *)
Theorem C5_reload_counts_a_merged_key_twice :
  put_all sample_merge_ops (sample_fresh (GB 1)) = Some sample_merged
  ∧ currentSize (cache sample_merged) = total_size (entries (cache sample_merged))
  ∧ NewDiskLRUCache "/c" 1 true (λ l, l) (disk sample_merged) = Some sample_reloaded
  ∧ dom (entries (cache sample_reloaded)) = {[ json_string sample_key_ff ]}
  ∧ json_string sample_key_ff = json_string sample_key_fe
  ∧ total_size (entries (cache sample_reloaded)) = 6
  ∧ currentSize (cache sample_reloaded) = 12
  ∧ TotalBytes (GetStats sample_reloaded) = 12.
Proof. vm_compute. by split_and!. Qed.

(** ** Capacity *)

Lemma total_size_subseteq (m1 m2 : gmap string Entry) :
  m1 ⊆ m2 → (∀ k e, m2 !! k = Some e → 0 <= Size e) →
  total_size m1 <= total_size m2.
Proof.
  revert m2. induction m1 as [|k e m1 Hk IH] using map_ind; intros m2 Hsub Hpos.
  - rewrite total_size_empty. by apply total_size_nonneg.
  - assert (Hin : m2 !! k = Some e).
    { apply (lookup_weaken (<[k:=e]> m1)); [apply lookup_insert_eq|done]. }
    rewrite total_size_insert by done.
    assert (total_size m1 <= total_size (delete k m2)).
    { apply IH.
      - apply map_subseteq_spec. intros k' e' H'.
        assert (k' ≠ k) by (intros ->; congruence).
        rewrite lookup_delete_ne by done.
        apply (lookup_weaken (<[k:=e]> m1)); [|done].
        by rewrite lookup_insert_ne.
      - intros k' e' [_ H']%lookup_delete_Some. by apply (Hpos k'). }
    rewrite (total_size_delete _ _ _ Hin) in *. lia.
Qed.

Lemma evicted_to_subseteq newSize w w' evicted :
  evicted_to newSize w w' evicted → entries (cache w') ⊆ entries (cache w).
Proof.
  intros Hspec. apply map_subseteq_spec. intros k e.
  rewrite (ev_entries _ _ _ _ Hspec). by case_decide.
Qed.

(** X21.  On a well-formed index, as long as the bytes held and the
    new object together fit an int64: [Put] returns, never with an eviction
    error, and its errors are those of creating, writing or renaming the
    temporary file; when it succeeds the current size is at most the
    capacity, unless the new object alone is larger than the capacity, and
    then the index holds this object only and the current size is its
    size. *)
Theorem Put_capacity (w : World) (key : string) (data : bytes) (io : PutIO) :
  wf (cache w) →
  total_size (entries (cache w)) + Z.of_nat (length data) <= Int64.max_int →
  ∃ r w',
    Put key data io w = Some (r, w')
    ∧ r ≠ PutErr ErrEvict
    ∧ (∀ e, r = PutErr e →
         (e = ErrCreateTemp ∧ create_ok io = false)
         ∨ (e = ErrWriteFile ∧ copy_ok io = false)
         ∨ e = ErrRename)
    ∧ (∀ filePath, r = PutOk filePath →
         let size := Z.of_nat (length data) in
         maxSizeBytes (cache w') = maxSizeBytes (cache w)
         ∧ (size <= maxSizeBytes (cache w') →
            currentSize (cache w') <= maxSizeBytes (cache w'))
         ∧ (maxSizeBytes (cache w') < size →
            currentSize (cache w') = size
            ∧ entries (cache w') = {[ key := Put_entry key data io ]})).
Proof.
  intros Hwf Hfit.
  destruct (Put_unfold key data io w Hwf) as (w2 & ev & Hspec & Hk & HPut).
  eexists _, _. split; [rewrite HPut; apply f_equal, surjective_pairing|].
  split; [|split].
  - destruct (create_ok io), (copy_ok io), (rename_tmp _ _ _ _); simpl; discriminate.
  - intros e. destruct (create_ok io); simpl; [|intros [= <-]; by left].
    destruct (copy_ok io); simpl; [|intros [= <-]; right; by left].
    destruct (rename_tmp _ _ _ _); simpl; [discriminate|].
    intros [= <-]. right. by right.
  - intros filePath. destruct (create_ok io); simpl; [|discriminate].
    destruct (copy_ok io); simpl; [|discriminate].
    destruct (rename_tmp _ _ _ _) as [d|]; simpl; [|discriminate].
    intros _. rewrite saveMetadata_cache. simpl.
    pose proof (ev_wf _ _ _ _ Hspec) as Hwf2.
    assert (Hmax : maxSizeBytes (cache w2) = maxSizeBytes (cache w)).
    { rewrite (ev_max _ _ _ _ Hspec). apply Put_start_fields. }
    assert (Hpos : 0 <= total_size (entries (cache w2)))
      by apply total_size_nonneg, (wf_size _ Hwf2).
    assert (Hle : total_size (entries (cache w2)) <= total_size (entries (cache w))).
    { etrans; [apply total_size_subseteq; [apply (evicted_to_subseteq _ _ _ _ Hspec)|]|].
      - apply (wf_size _ (wf_Put_start key w Hwf)).
      - simpl. rewrite Put_start_entries.
        apply total_size_le_delete, (wf_size _ Hwf). }
    assert (Hrange : ∀ x, 0 <= x <= Int64.max_int → Int64.wrap x = x).
    { intros x Hx. apply wrap_in_range.
      int64_bounds. lia. }
    assert (Hcur : currentSize (cache w2) = total_size (entries (cache w2))).
    { rewrite (wf_current _ Hwf2). apply Hrange. lia. }
    assert (Hadd : Int64.add (currentSize (cache w2)) (Z.of_nat (length data))
                   = total_size (entries (cache w2)) + Z.of_nat (length data)).
    { unfold Int64.add. rewrite Hcur. apply Hrange. lia. }
    rewrite Hadd, Hmax. split; [done|].
    pose proof (ev_room _ _ _ _ Hspec) as Hroom. unfold over_capacity in Hroom.
    rewrite Hadd, Hmax in Hroom.
    apply andb_false_iff in Hroom as [Hroom|Hroom]; apply bool_decide_eq_false in Hroom.
    + split; [lia|]. intros Hbig. lia.
    + assert (Hnil : accessOrder (cache w2) = []).
      { destruct (accessOrder (cache w2)); [done|]. simpl in Hroom. lia. }
      assert (Hempty : entries (cache w2) = ∅).
      { apply map_empty. intros k. apply eq_None_not_Some.
        rewrite <- (wf_order _ Hwf2), Hnil. apply not_elem_of_nil. }
      rewrite Hempty, total_size_empty. split; [lia|].
      intros _. split; [lia|]. by rewrite insert_empty.
Qed.


Lemma Put_capacity_witness :
  wf (cache sample_held)
  ∧ total_size (entries (cache sample_held)) + Z.of_nat (length (zeros 12))
    <= Int64.max_int
  ∧ ∃ r w',
      Put "b/y" (zeros 12) (sample_io 2) sample_held = Some (r, w')
      ∧ r ≠ PutErr ErrEvict.
Proof.
  assert (Hwf : wf (cache sample_held)) by apply reachable_wf, sample_held_reachable.
  assert (Hfit : total_size (entries (cache sample_held))
                 + Z.of_nat (length (zeros 12)) <= Int64.max_int)
    by (vm_compute; discriminate).
  split; [exact Hwf|]. split; [exact Hfit|].
  destruct (Put_capacity sample_held "b/y" (zeros 12) (sample_io 2) Hwf Hfit)
    as (r & w' & HPut & Hne & _).
  exists r, w'. split; assumption.
Defined.


(** ** Reloading *)

Lemma open_cache_dirs dir maxBytes ord d :
  cacheDir (cache (open_cache dir maxBytes ord d)) = dir
  ∧ filesDir (cache (open_cache dir maxBytes ord d)) = filepath_Join dir "files".
Proof.
  unfold open_cache, loadFromDisk. simpl.
  destruct (metadata d) as [| |l]; simpl; [done..|].
  by destruct (foldl_load_fields d l (empty_cache dir maxBytes)) as (_ & -> & -> & _).
Qed.

Lemma reachable_filesDir (w : World) :
  reachable w → filesDir (cache w) = filepath_Join (cacheDir (cache w)) "files".
Proof.
  assert (Hopen : ∀ dir maxBytes ord d,
             filesDir (cache (open_cache dir maxBytes ord d))
             = filepath_Join (cacheDir (cache (open_cache dir maxBytes ord d))) "files").
  { intros dir maxBytes ord d.
    by destruct (open_cache_dirs dir maxBytes ord d) as [-> ->]. }
  induction 1 as [dir maxBytes ord fs|w w' Hreach IH Hstep]; [apply Hopen|].
  destruct Hstep as [key now w|key data io w r w' Hkey Hord HPut|fs w|maxBytes ord w Hord].
  - unfold Get. destruct (entries (cache w) !! key) as [entry|]; [|done].
    destruct (os_Stat (disk w) (Filename entry)); simpl.
    + unfold move_to_front. by case_decide.
    + by destruct (removeEntry_fields key w) as (_ & -> & -> & _).
  - destruct (reachable_wf _ Hreach) as [Hwf _].
    destruct (Put_unfold key data io w Hwf) as (w2 & ev & Hspec & Hk & Heq).
    rewrite Heq in HPut.
    destruct (Put_start_fields key w) as (_ & Hf & Hc & _).
    assert (H2 : filesDir (cache w2) = filepath_Join (cacheDir (cache w2)) "files").
    { rewrite (ev_filesDir _ _ _ _ Hspec), (ev_cacheDir _ _ _ _ Hspec). simpl.
      by rewrite Hf, Hc. }
    destruct (create_ok io); simpl in HPut.
    2:{ injection HPut as <- <-. by rewrite Hf, Hc. }
    destruct (copy_ok io); simpl in HPut.
    2:{ injection HPut as <- <-. simpl. by rewrite Hf, Hc. }
    destruct (rename_tmp _ _ _ _); injection HPut as <- <-.
    + by rewrite saveMetadata_cache.
    + done.
  - done.
  - apply Hopen.
Qed.

(** What a successful [Put] that wrote its metadata leaves on disk, when
    the strings of the index are valid UTF-8. *)
Lemma Put_ok_disk key data io w filePath w' :
  wf (cache w) → utf8_ok w → valid_utf8 key →
  range_ok (range_order io) → meta_write io = Written →
  Put key data io w = Some (PutOk filePath, w') →
  filePath = filepath_Join (filesDir (cache w)) (sanitizeFilename key)
  ∧ cacheDir (cache w') = cacheDir (cache w)
  ∧ files (disk w') !! sanitizeFilename key = Some data
  ∧ ∃ l, metadata (disk w') = MetaEntries l
         ∧ NoDup (Key <$> l)
         ∧ Put_entry key data io ∈ l.
Proof.
  intros Hwf Hutf Hkey Hord Hwritten HPut.
  destruct (Put_utf8_ok _ _ _ _ _ _ Hkey Hord Hutf HPut) as [Hent' _].
  pose proof (Put_wf _ _ _ _ _ _ Hwf HPut) as Hwf'.
  destruct (Put_ok_parts _ _ _ _ _ _ HPut)
    as (w2 & n & Hrun & Htmp & Hn & -> & Hc & Hf & Hm).
  split; [done|]. split.
  { rewrite Hc. simpl.
    destruct (evict_loop_spec (size (entries (cache (Put_written key data w))))
                (Z.of_nat (length data)) (Put_written key data w))
      as (w2' & ev & Hrun' & Hspec);
      [by apply wf_Put_start|by rewrite size_entries_order; [|apply wf_Put_start]|].
    assert (w2' = w2) as -> by congruence.
    rewrite (ev_cacheDir _ _ _ _ Hspec). simpl. apply Put_start_fields. }
  split; [rewrite Hf; apply lookup_insert_eq|].
  rewrite Hwritten, (saved_entries_exact _ _ Hord Hent') in Hm.
  eexists. split; [exact Hm|]. split; [by apply saved_entries_NoDup|].
  apply saved_entries_elem; [done|]. exists key.
  rewrite Hc. simpl. apply lookup_insert_eq.
Qed.

Lemma wrap_wrap (x : Z) : Int64.wrap (Int64.wrap x) = Int64.wrap x.
Proof. pose proof (wrap_add_l x 0) as H. by rewrite !Z.add_0_r in H. Qed.

(** The first loop of [loadFromDisk] adds the size of every file it finds,
    once for each persisted entry that names it. *)
Lemma foldl_load_current d l c :
  currentSize c = Int64.wrap (currentSize c) →
  currentSize (foldl (load_entry d) c l)
  = Int64.wrap (currentSize c + sum_list (surviving_sizes d l)).
Proof.
  revert c. induction l as [|e l IH]; intros c Hc; simpl.
  - by rewrite Z.add_0_r.
  - unfold surviving_sizes. simpl.
    destruct (os_Stat d (Filename e)) as [sz|] eqn:Hstat; simpl.
    + destruct (load_entry_found d c e sz Hstat) as [_ Hcur].
      rewrite IH by (rewrite Hcur; unfold Int64.add; by rewrite wrap_wrap).
      rewrite Hcur. unfold Int64.add. rewrite wrap_add_l. f_equal.
      fold (surviving_sizes d l). lia.
    + rewrite load_entry_missing by done. by apply IH.
Qed.

Lemma open_cache_current dir maxBytes ord d l :
  metadata d = MetaEntries l →
  currentSize (cache (open_cache dir maxBytes ord d))
  = Int64.wrap (sum_list (surviving_sizes d l)).
Proof.
  intros Hmeta.
  destruct (open_cache_cache dir maxBytes ord d) as (c & -> & _ & _ & Hload).
  rewrite Hmeta in Hload. simpl in Hload. destruct Hload as (_ & -> & _).
  by rewrite foldl_load_current.
Qed.

Lemma surviving_sizes_app d l1 l2 :
  surviving_sizes d (l1 ++ l2) = surviving_sizes d l1 ++ surviving_sizes d l2.
Proof. apply omap_app. Qed.

(** An object whose [Put] succeeded while the write of metadata.json
    failed is not found after a restart. *)
Lemma C3_unsaved_object_is_missed_after_reload :
  Put "b/x" (zeros 6) sample_io_unsaved (sample_fresh 10)
  = Some (PutOk "/c/files/b_x", sample_unsaved)
  ∧ (Get "b/x" 2 sample_unsaved).1 = ("/c/files/b_x", true)
  ∧ files (disk sample_unsaved) !! "b_x" = Some (zeros 6)
  ∧ (Get "b/x" 2 (open_cache "/c" 10 (λ l, l) (disk sample_unsaved))).1 = ("", false).
Proof. vm_compute. by split_and!. Qed.

(** C3, amended.  After a [Put] that succeeded and wrote its metadata, of a
    key that is valid UTF-8 in a cache whose keys are, a cache opened again
    on the same directory answers [Get] of that key with a hit on the path
    [Put] returned, the file there holds the bytes that were stored and the
    entry has their length as its size.  An entry of the metadata whose
    file is no longer there gives no entry to the index that is rebuilt:
    every entry of that index has a file, another one; the current size is
    the one recomputed from the metadata without this entry; and when the
    persisted entries have one key each, the index has nothing under its
    key and the current size is the sum of the sizes of the index. *)
Theorem C3_reload_keeps_stored_objects :
  (∀ (w : World) (key : string) (data : bytes) (io : PutIO) (filePath : string)
     (w' : World) (maxBytes : Z) (ord : RangeOrder) (now : Time),
      reachable w →
      valid_utf8 key →
      range_ok (range_order io) →
      meta_write io = Written →
      Put key data io w = Some (PutOk filePath, w') →
      let w2 := open_cache (cacheDir (cache w')) maxBytes ord (disk w') in
      (Get key now w2).1 = (filePath, true)
      ∧ files (disk w2) !! sanitizeFilename key = Some data
      ∧ ∃ e, entries (cache w2) !! key = Some e
             ∧ Filename e = sanitizeFilename key
             ∧ Size e = Z.of_nat (length data))
  ∧ (∀ (d : Disk) (dir : string) (maxBytes : Z) (ord : RangeOrder)
       (l1 l2 : list Entry) (e : Entry),
      metadata d = MetaEntries (l1 ++ e :: l2) →
      range_ok ord →
      os_Stat d (Filename e) = None →
      let w2 := open_cache dir maxBytes ord d in
      (∀ k e', entries (cache w2) !! k = Some e' →
         Filename e' ≠ Filename e
         ∧ ∃ e0, e0 ∈ l1 ++ l2 ∧ Key e0 = k ∧ Filename e0 = Filename e'
                 ∧ os_Stat d (Filename e0) = Some (Size e'))
      ∧ currentSize (cache w2) = Int64.wrap (sum_list (surviving_sizes d (l1 ++ l2)))
      ∧ (NoDup (Key <$> l1 ++ e :: l2) →
         entries (cache w2) !! Key e = None
         ∧ ¬ (Key e ∈ accessOrder (cache w2))
         ∧ currentSize (cache w2) = Int64.wrap (total_size (entries (cache w2))))).
Proof.
  split.
  - intros w key data io filePath w' maxBytes ord now Hreach Hkey Hord Hwritten HPut w2.
    destruct (reachable_inv _ Hreach) as (Hwf & _ & Hutf).
    destruct (Put_ok_disk _ _ _ _ _ _ Hwf Hutf Hkey Hord Hwritten HPut)
      as (-> & Hdir & Hfile & l & Hmeta & Hnd & Hin).
    assert (Hstat : os_Stat (disk w') (sanitizeFilename key)
                    = Some (Z.of_nat (length data))).
    { unfold os_Stat. by rewrite Hfile. }
    destruct (open_cache_cache (cacheDir (cache w')) maxBytes ord (disk w'))
      as (c & Hc & Hd & _ & Hload).
    rewrite Hmeta in Hload. simpl in Hload. destruct Hload as (Hent & _).
    pose proof (foldl_load_found (disk w') l
                  (empty_cache (cacheDir (cache w')) maxBytes)
                  (Put_entry key data io) _ Hnd Hin Hstat) as Hfound.
    simpl in Hfound. rewrite <- Hent, <- Hc in Hfound. fold w2 in Hfound, Hd.
    assert (HfilesDir : filesDir (cache w2) = filesDir (cache w)).
    { rewrite (reachable_filesDir _ Hreach), <- Hdir.
      apply open_cache_dirs. }
    split.
    { rewrite (Get_hit _ _ _ _ (Z.of_nat (length data)) Hfound).
      - simpl. by rewrite HfilesDir.
      - simpl. by rewrite Hd. }
    split; [by rewrite Hd|]. eexists. split; [exact Hfound|done].
  - intros d dir maxBytes ord l1 l2 e Hmeta Hord Hstat w2.
    destruct (open_cache_cache dir maxBytes ord d) as (c & Hc & Hd & _ & Hload).
    rewrite Hmeta in Hload. simpl in Hload. destruct Hload as (Hent & _).
    fold w2 in Hc. rewrite <- Hc in Hent.
    assert (Hfrom : ∀ k e', entries (cache w2) !! k = Some e' →
              ∃ e0, e0 ∈ l1 ++ e :: l2 ∧ Key e0 = k ∧ Filename e0 = Filename e'
                    ∧ os_Stat d (Filename e0) = Some (Size e')).
    { intros k e'. rewrite Hent. intros [H|(e0 & H0 & Hk & Hs & ->)]%foldl_load_from.
      - simpl in H. by apply lookup_empty_Some in H.
      - by exists e0. }
    split; [|split].
    + intros k e' (e0 & H0 & Hk & Hf & Hs)%Hfrom.
      assert (Hne : Filename e' ≠ Filename e).
      { intros Heq. rewrite Hf, Heq in Hs. congruence. }
      split; [exact Hne|]. exists e0. split; [|done].
      rewrite elem_of_app, elem_of_cons in H0. rewrite elem_of_app.
      destruct H0 as [?|[->|?]]; [by left| |by right]. by rewrite Hf in Hne.
    + unfold w2. rewrite (open_cache_current dir maxBytes ord d _ Hmeta).
      rewrite !surviving_sizes_app. unfold surviving_sizes at 2. simpl.
      by rewrite Hstat.
    + intros Hnd.
      assert (Hwf : wf (cache w2)).
      { apply wf_open_cache; [done|]. intros l' Hl'. congruence. }
      assert (Hnone : entries (cache w2) !! Key e = None).
      { apply eq_None_not_Some. intros [e' (e0 & H0 & Hk & _ & Hs)%Hfrom].
        assert (e0 = e) as ->; [|congruence].
        assert (Hin : e ∈ l1 ++ e :: l2).
        { rewrite elem_of_app, elem_of_cons. right. by left. }
        apply list_elem_of_lookup in H0 as [i Hi], Hin as [j Hj].
        assert (i = j) as ->; [|congruence].
        apply (NoDup_lookup _ _ _ (Key e) Hnd); rewrite list_lookup_fmap.
        + by rewrite Hi, <- Hk.
        + by rewrite Hj. }
      split; [done|]. split.
      { rewrite (wf_order _ Hwf), Hnone. by intros [? ?]. }
      apply (wf_current _ Hwf).
Qed.

Lemma C3_reload_keeps_stored_objects_witness :
  (reachable (sample_fresh 10)
   ∧ valid_utf8 "b/x"
   ∧ range_ok (range_order (sample_io 1))
   ∧ meta_write (sample_io 1) = Written
   ∧ Put "b/x" (zeros 6) (sample_io 1) (sample_fresh 10)
     = Some (PutOk "/c/files/b_x", sample_held)
   ∧ (Get "b/x" 7 (open_cache "/c" 20 reverse (disk sample_held))).1
     = ("/c/files/b_x", true))
  ∧ (metadata (disk sample_stale) = MetaEntries ([] ++ mkEntry "b/x" "b_x" 6 1 1 :: [])
     ∧ range_ok reverse
     ∧ os_Stat (disk sample_stale) "b_x" = None
     ∧ currentSize (cache (open_cache "/c" 20 reverse (disk sample_stale)))
       = Int64.wrap (sum_list (surviving_sizes (disk sample_stale) ([] ++ [])))).
Proof.
  destruct C3_reload_keeps_stored_objects as [Hstored Hgone].
  assert (Hord : range_ok (range_order (sample_io 1))) by (by intros l).
  assert (Hrev : range_ok reverse) by (intros l; apply reverse_Permutation).
  assert (Hkey : valid_utf8 "b/x") by reflexivity.
  assert (HPut : Put "b/x" (zeros 6) (sample_io 1) (sample_fresh 10)
                 = Some (PutOk "/c/files/b_x", sample_held))
    by (vm_compute; reflexivity).
  assert (Hmeta : metadata (disk sample_stale)
                  = MetaEntries ([] ++ mkEntry "b/x" "b_x" 6 1 1 :: []))
    by (vm_compute; reflexivity).
  assert (Hstat : os_Stat (disk sample_stale) "b_x" = None) by (vm_compute; reflexivity).
  split.
  - split; [apply reachable_fresh|]. split; [exact Hkey|]. split; [exact Hord|].
    split; [reflexivity|]. split; [exact HPut|].
    apply (Hstored (sample_fresh 10) "b/x" (zeros 6) (sample_io 1) "/c/files/b_x"
             sample_held 20 reverse 7 (reachable_fresh _ _ _ _) Hkey Hord eq_refl HPut).
  - split; [exact Hmeta|]. split; [exact Hrev|]. split; [exact Hstat|].
    destruct (Hgone (disk sample_stale) "/c" 20 reverse [] [] _ Hmeta Hrev Hstat)
      as (_ & Hcur & _).
    exact Hcur.
Defined.

(** ** Least recently used first *)

Lemma evict_loop_room fuel newSize w :
  over_capacity newSize (cache w) = false → evict_loop fuel newSize w = Some w.
Proof. intros H. destruct fuel; simpl; by rewrite H. Qed.

Lemma evict_loop_one fuel newSize w victim :
  over_capacity newSize (cache w) = true →
  list_Back (accessOrder (cache w)) = Some victim →
  over_capacity newSize
    (cache (with_cache (with_stats incr_Evictions) (removeEntry victim w))) = false →
  evict_loop (S fuel) newSize w
  = Some (with_cache (with_stats incr_Evictions) (removeEntry victim w)).
Proof.
  intros Hover Hback Hroom. simpl. rewrite Hover, Hback.
  by apply evict_loop_room.
Qed.

Lemma Put_ok_cache key data io w filePath w' w2 :
  evict_loop (size (entries (cache (Put_written key data w))))
             (Z.of_nat (length data)) (Put_written key data w) = Some w2 →
  Put key data io w = Some (PutOk filePath, w') →
  cache w' = install (Put_entry key data io) (cache w2).
Proof.
  intros Hrun. rewrite Put_eq. cbv zeta.
  destruct (create_ok io); simpl; [|done].
  destruct (copy_ok io); simpl; [|done].
  unfold evictIfNeeded. rewrite Hrun. simpl.
  destruct (rename_tmp _ _ _ _); [|done].
  intros [= _ <-]. by rewrite saveMetadata_cache.
Qed.

Lemma total_size_uniform (m : gmap string Entry) (s : Z) :
  (∀ k e, m !! k = Some e → Size e = s) → total_size m = Z.of_nat (size m) * s.
Proof.
  induction m as [|k e m Hk IH] using map_ind; intros Hs.
  - rewrite total_size_empty, map_size_empty. lia.
  - rewrite total_size_insert, map_size_insert_None by done.
    rewrite (Hs k e) by apply lookup_insert_eq.
    rewrite IH; [lia|]. intros k' e' H'. apply (Hs k').
    rewrite lookup_insert_ne; [done|]. intros ->. congruence.
Qed.

Lemma uniform_current s max ev keys c :
  uniform s max ev keys c →
  0 <= s → Z.of_nat (length keys) * s <= Int64.max_int →
  currentSize c = Z.of_nat (length keys) * s.
Proof.
  intros Hun Hs Hfit. pose proof (un_wf _ _ _ _ _ Hun) as Hwf.
  rewrite (wf_current _ Hwf), (total_size_uniform _ s (un_size _ _ _ _ _ Hun)).
  rewrite (size_entries_order _ Hwf), (un_order _ _ _ _ _ Hun).
  apply wrap_in_range.
  int64_bounds. nia.
Qed.

Lemma uniform_absent s max ev keys c key :
  uniform s max ev keys c → key ∉ keys → entries c !! key = None.
Proof.
  intros Hun Hk. apply eq_None_not_Some.
  by rewrite <- (wf_order _ (un_wf _ _ _ _ _ Hun)), (un_order _ _ _ _ _ Hun).
Qed.

Lemma uniform_install s max ev keys c entry :
  uniform s max ev keys c → Key entry ∉ keys → Size entry = s → 0 <= s →
  uniform s max ev (Key entry :: keys) (install entry c).
Proof.
  intros Hun Hk Hsize Hs. pose proof (uniform_absent _ _ _ _ _ _ Hun Hk) as Hnone.
  destruct Hun as [Hwf Hord Hsz Hmax Hev]. constructor; simpl.
  - apply wf_install; [done..|lia].
  - unfold list_PushFront. by rewrite Hord.
  - intros k e [[<- <-]|[_ H]]%lookup_insert_Some; [done|by apply (Hsz k)].
  - done.
  - done.
Qed.

Lemma Put_start_absent key w :
  entries (cache w) !! key = None → Put_start key w = w.
Proof.
  intros H. unfold Put_start. rewrite decide_False; [done|].
  rewrite H. by intros [? ?].
Qed.

(** A [Put] for which there is room evicts nothing. *)
Lemma Put_uniform_room s max ev keys w key data io filePath w' :
  uniform s max ev keys (cache w) →
  key ∉ keys → Z.of_nat (length data) = s →
  (Z.of_nat (length keys) + 1) * s <= max →
  (Z.of_nat (length keys) + 1) * s <= Int64.max_int →
  Put key data io w = Some (PutOk filePath, w') →
  uniform s max ev (key :: keys) (cache w').
Proof.
  intros Hun Hk Hlen Hroom Hfit HPut.
  assert (Hs : 0 <= s) by lia.
  pose proof (uniform_absent _ _ _ _ _ _ Hun Hk) as Hnone.
  assert (Hcache : cache (Put_written key data w) = cache w).
  { unfold Put_written. simpl. by rewrite Put_start_absent. }
  assert (Hcur : currentSize (cache w) = Z.of_nat (length keys) * s).
  { apply (uniform_current _ _ _ _ _ Hun); [done|nia]. }
  assert (Hover : over_capacity s (cache w) = false).
  { unfold over_capacity. apply andb_false_iff. left. apply bool_decide_eq_false.
    unfold Int64.add. rewrite Hcur, (un_max _ _ _ _ _ Hun).
    rewrite wrap_in_range; [lia|].
    int64_bounds. nia. }
  assert (Hrun : evict_loop (size (entries (cache (Put_written key data w))))
                    (Z.of_nat (length data)) (Put_written key data w)
                  = Some (Put_written key data w)).
  { apply evict_loop_room. by rewrite Hlen, Hcache. }
  rewrite (Put_ok_cache _ _ _ _ _ _ _ Hrun HPut), Hcache. by apply (uniform_install _ _ _ _ _ (Put_entry key data io)).
Qed.

(** A [Put] into a full cache evicts the back of the list and nothing else. *)
Lemma Put_uniform_full s max ev kept victim w key data io filePath w' :
  uniform s max ev (kept ++ [victim]) (cache w) →
  key ∉ kept ++ [victim] → Z.of_nat (length data) = s → 0 < s →
  (Z.of_nat (length kept) + 1) * s <= max < (Z.of_nat (length kept) + 2) * s →
  (Z.of_nat (length kept) + 2) * s <= Int64.max_int →
  Put key data io w = Some (PutOk filePath, w') →
  uniform s max (Int64.incr ev) (key :: kept) (cache w')
  ∧ entries (cache w') !! victim = None.
Proof.
  intros Hun Hk Hlen Hs Hcap Hfit HPut.
  pose proof (uniform_absent _ _ _ _ _ _ Hun Hk) as Hnone.
  set (w1 := Put_written key data w).
  assert (Hcache : cache w1 = cache w).
  { unfold w1, Put_written. simpl. by rewrite Put_start_absent. }
  assert (Hun1 : uniform s max ev (kept ++ [victim]) (cache w1)) by by rewrite Hcache.
  pose proof (un_wf _ _ _ _ _ Hun1) as Hwf1.
  assert (Hlen' : Z.of_nat (length (kept ++ [victim])) = Z.of_nat (length kept) + 1).
  { rewrite length_app. simpl. lia. }
  assert (Hcur : currentSize (cache w1) = (Z.of_nat (length kept) + 1) * s).
  { rewrite (uniform_current _ _ _ _ _ Hun1), Hlen'; [done|lia|]. rewrite Hlen'. nia. }
  assert (Hrange : ∀ x, 0 <= x <= (Z.of_nat (length kept) + 2) * s → Int64.wrap x = x).
  { intros x Hx. apply wrap_in_range.
    int64_bounds. lia. }
  assert (Hover : over_capacity s (cache w1) = true).
  { unfold over_capacity. apply andb_true_iff. split; apply bool_decide_eq_true.
    - unfold Int64.add. rewrite Hcur, (un_max _ _ _ _ _ Hun1), Hrange; nia.
    - rewrite (un_order _ _ _ _ _ Hun1), length_app. simpl. lia. }
  destruct (removeEntry_back victim kept w1 Hwf1 (un_order _ _ _ _ _ Hun1))
    as (entry & Hin & Hord & Hent & Hcur2).
  destruct (removeEntry_fields victim w1) as (Hmax & _ & _ & Hst).
  set (w2 := with_cache (with_stats incr_Evictions) (removeEntry victim w1)).
  assert (Hun2 : uniform s max (Int64.incr ev) kept (cache w2)).
  { constructor; simpl.
    - apply wf_stats, wf_removeEntry, Hwf1.
    - done.
    - intros k e. rewrite Hent. intros [_ H]%lookup_delete_Some.
      by apply (un_size _ _ _ _ _ Hun1 k).
    - rewrite Hmax. apply (un_max _ _ _ _ _ Hun1).
    - rewrite Hst. by rewrite (un_evictions _ _ _ _ _ Hun1). }
  assert (Hcur3 : currentSize (cache w2) = Z.of_nat (length kept) * s).
  { apply (uniform_current _ _ _ _ _ Hun2); [lia|nia]. }
  assert (Hroom : over_capacity s (cache w2) = false).
  { unfold over_capacity. apply andb_false_iff. left. apply bool_decide_eq_false.
    unfold Int64.add. rewrite Hcur3, (un_max _ _ _ _ _ Hun2), Hrange; nia. }
  assert (Hfuel : size (entries (cache w1)) = S (length kept)).
  { rewrite (size_entries_order _ Hwf1), (un_order _ _ _ _ _ Hun1), length_app.
    simpl. lia. }
  assert (Hrun : evict_loop (size (entries (cache w1))) (Z.of_nat (length data)) w1
                 = Some w2).
  { rewrite Hfuel, Hlen. apply evict_loop_one; [done| |done].
    unfold list_Back. rewrite (un_order _ _ _ _ _ Hun1). apply last_snoc. }
  rewrite (Put_ok_cache _ _ _ _ _ _ w2 Hrun HPut).
  assert (Hkept : key ∉ kept).
  { intros H. apply Hk. rewrite elem_of_app. by left. }
  split.
  - apply (uniform_install _ _ _ _ _ (Put_entry key data io)); [done..|lia].
  - simpl. rewrite lookup_insert_ne.
    + rewrite Hent. apply lookup_delete_eq.
    + intros ->. apply Hk. rewrite elem_of_app, list_elem_of_singleton. by right.
Qed.

(** A [Get] that hits moves the key to the front. *)
Lemma Get_uniform_hit s max ev keys w key now filePath :
  uniform s max ev keys (cache w) →
  (Get key now w).1 = (filePath, true) →
  key ∈ keys
  ∧ uniform s max ev (key :: list_Remove key keys) (cache (Get key now w).2).
Proof.
  intros Hun. pose proof (un_wf _ _ _ _ _ Hun) as Hwf. unfold Get.
  destruct (entries (cache w) !! key) as [entry|] eqn:Hin; [|done].
  destruct (os_Stat (disk w) (Filename entry)); [|done]. simpl. intros _.
  assert (Hk : key ∈ keys).
  { rewrite <- (un_order _ _ _ _ _ Hun). apply (wf_order _ Hwf). eauto. }
  split; [done|].
  assert (Hamap : key ∈ accessMap (touch key now (cache w))).
  { simpl. apply (wf_amap _ Hwf). eauto. }
  constructor; simpl.
  - by apply wf_stats, wf_move_to_front, wf_touch.
  - unfold move_to_front. rewrite decide_True by done. simpl.
    unfold list_MoveToFront. rewrite (un_order _ _ _ _ _ Hun).
    by rewrite decide_True.
  - unfold move_to_front. rewrite decide_True by done. simpl.
    intros k e. rewrite lookup_alter_Some.
    intros [(-> & e0 & H & ->)|[_ H]]; simpl; by apply (un_size _ _ _ _ _ Hun k).
  - unfold move_to_front. rewrite decide_True by done. simpl.
    apply (un_max _ _ _ _ _ Hun).
  - unfold move_to_front. rewrite decide_True by done. simpl.
    apply (un_evictions _ _ _ _ _ Hun).
Qed.

Lemma put_all_app ops1 ops2 w :
  put_all (ops1 ++ ops2) w = put_all ops1 w ≫= put_all ops2.
Proof.
  revert w. induction ops1 as [|[[key data] io] ops1 IH]; intros w; simpl; [done|].
  destruct (Put key data io w) as [[[p|e] w1]|]; simpl; [apply IH|done..].
Qed.

(** A run of [Put]s for which there is room piles the keys up, the last one
    in front. *)
Lemma put_all_fill s max ev n ops keys w w' :
  uniform s max ev keys (cache w) →
  NoDup (op_keys ops ++ keys) → op_sized n ops → Z.of_nat n = s →
  (Z.of_nat (length keys) + Z.of_nat (length ops)) * s <= max →
  (Z.of_nat (length keys) + Z.of_nat (length ops)) * s <= Int64.max_int →
  put_all ops w = Some w' →
  uniform s max ev (reverse (op_keys ops) ++ keys) (cache w').
Proof.
  revert keys w. induction ops as [|[[key data] io] ops IH];
    intros keys w Hun Hnd Hsized Hn Hroom Hfit Hrun; simpl in *.
  - injection Hrun as <-. done.
  - destruct (Put key data io w) as [[[p|e] w1]|] eqn:HPut; [|done..].
    apply NoDup_cons in Hnd as [Hk Hnd].
    rewrite elem_of_app in Hk.
    assert (Hlen : Z.of_nat (length data) = s).
    { rewrite <- Hn. f_equal. apply (Hsized (key, data, io)). by left. }
    assert (Hs : 0 <= s) by lia.
    assert (Hun1 : uniform s max ev (key :: keys) (cache w1)).
    { apply (Put_uniform_room s max ev keys w key data io p w1 Hun);
        [tauto|done|nia|nia|done]. }
    rewrite reverse_cons, <- app_assoc. simpl.
    apply (IH (key :: keys) w1 Hun1).
    + apply NoDup_app. apply NoDup_app in Hnd as (H1 & H2 & H3).
      split; [done|]. split.
      * intros k Hk1 [->|Hk2]%elem_of_cons; [tauto|by apply (H2 k)].
      * apply NoDup_cons. split; [tauto|done].
    + intros op Hop. apply Hsized. by right.
    + done.
    + simpl. nia.
    + simpl. nia.
    + done.
Qed.

Lemma uniform_empty (w : World) :
  wf (cache w) → entries (cache w) = ∅ →
  ∀ s, uniform s (maxSizeBytes (cache w)) (Evictions (stats (cache w))) [] (cache w).
Proof.
  intros Hwf Hempty s. constructor; try done.
  - destruct (accessOrder (cache w)) as [|k l] eqn:Hl; [done|].
    assert (H : is_Some (entries (cache w) !! k)).
    { apply (wf_order _ Hwf). rewrite Hl. by left. }
    rewrite Hempty, lookup_empty in H. by destruct H.
  - intros k e. by rewrite Hempty, lookup_empty.
Qed.

Lemma uniform_dom s max ev keys c k :
  uniform s max ev keys c → k ∈ keys ↔ is_Some (entries c !! k).
Proof.
  intros Hun. rewrite <- (un_order _ _ _ _ _ Hun).
  apply (wf_order _ (un_wf _ _ _ _ _ Hun)).
Qed.

Lemma put_all_single key data io w w' :
  put_all [(key, data, io)] w = Some w' →
  ∃ filePath, Put key data io w = Some (PutOk filePath, w').
Proof.
  simpl. destruct (Put key data io w) as [[[p|e] w1]|]; [|done..].
  intros [= <-]. by exists p.
Qed.

Lemma op_keys_app ops1 ops2 : op_keys (ops1 ++ ops2) = op_keys ops1 ++ op_keys ops2.
Proof. apply fmap_app. Qed.

Lemma op_keys_length ops : length (op_keys ops) = length ops.
Proof. apply length_fmap. Qed.

Lemma list_Remove_absent key l : key ∉ l → list_Remove key l = l.
Proof.
  intros Hk. unfold list_Remove. induction l as [|x l IH]; [done|].
  rewrite not_elem_of_cons in Hk. destruct Hk as [Hx Hl].
  rewrite filter_cons, decide_True by done. by rewrite IH.
Qed.

Lemma Put_start_order key w :
  wf (cache w) →
  accessOrder (cache (Put_start key w)) = list_Remove key (accessOrder (cache w)).
Proof.
  intros Hwf. unfold Put_start. case_decide as Hk.
  - unfold removeEntry. destruct Hk as [e He]. rewrite He.
    rewrite decide_True by (apply (wf_amap _ Hwf); eauto). done.
  - symmetry. apply list_Remove_absent. by rewrite (wf_order _ Hwf).
Qed.

(** C2.  Into an empty cache (a well-formed index without entries) whose
    capacity holds exactly N objects of one size, N+1 successful [Put]s of
    distinct keys evict the key stored first and no other; when the first
    key is read by a [Get] that hits before the last [Put], that [Put]
    evicts the second key instead.  In general, on a well-formed index, a
    successful [Put] puts its key at the front of the recency list and what
    it evicts is the back of the list, and a [Get] that hits moves its key
    to the front. *)
Theorem C2_least_recently_used_is_evicted :
  (∀ (w0 w' : World) (n : nat) (op1 : string * bytes * PutIO)
     (ops : list (string * bytes * PutIO)),
      wf (cache w0) → entries (cache w0) = ∅ →
      ops ≠ [] → (0 < n)%nat →
      NoDup (op_keys (op1 :: ops)) → op_sized n (op1 :: ops) →
      Z.of_nat (length ops) * Z.of_nat n <= maxSizeBytes (cache w0)
        < (Z.of_nat (length ops) + 1) * Z.of_nat n →
      (Z.of_nat (length ops) + 1) * Z.of_nat n <= Int64.max_int →
      put_all (op1 :: ops) w0 = Some w' →
      entries (cache w') !! op1.1.1 = None
      ∧ (∀ k, k ∈ op_keys ops ↔ is_Some (entries (cache w') !! k))
      ∧ accessOrder (cache w') = reverse (op_keys ops)
      ∧ Evictions (stats (cache w')) = Int64.incr (Evictions (stats (cache w0))))
  ∧ (∀ (w0 w1 w' : World) (n : nat) (op1 op2 : string * bytes * PutIO)
       (ops : list (string * bytes * PutIO)) (key : string) (data : bytes)
       (io : PutIO) (now : Time) (hitPath filePath : string),
      wf (cache w0) → entries (cache w0) = ∅ →
      (0 < n)%nat →
      NoDup (op_keys (op1 :: op2 :: ops) ++ [key]) →
      op_sized n (op1 :: op2 :: ops) → length data = n →
      (Z.of_nat (length ops) + 2) * Z.of_nat n <= maxSizeBytes (cache w0)
        < (Z.of_nat (length ops) + 3) * Z.of_nat n →
      (Z.of_nat (length ops) + 3) * Z.of_nat n <= Int64.max_int →
      put_all (op1 :: op2 :: ops) w0 = Some w1 →
      (Get op1.1.1 now w1).1 = (hitPath, true) →
      Put key data io (Get op1.1.1 now w1).2 = Some (PutOk filePath, w') →
      entries (cache w') !! op2.1.1 = None
      ∧ (∀ k, k ∈ key :: op1.1.1 :: op_keys ops ↔ is_Some (entries (cache w') !! k))
      ∧ accessOrder (cache w') = key :: op1.1.1 :: reverse (op_keys ops)
      ∧ Evictions (stats (cache w')) = Int64.incr (Evictions (stats (cache w0))))
  ∧ (∀ (w w' : World) (key : string) (data : bytes) (io : PutIO) (filePath : string),
      wf (cache w) →
      Put key data io w = Some (PutOk filePath, w') →
      ∃ kept evicted,
        list_Remove key (accessOrder (cache w)) = kept ++ evicted
        ∧ accessOrder (cache w') = key :: kept
        ∧ ∀ k, k ∈ evicted → entries (cache w') !! k = None)
  ∧ (∀ (w : World) (key : string) (now : Time) (filePath : string),
      wf (cache w) →
      (Get key now w).1 = (filePath, true) →
      accessOrder (cache (Get key now w).2)
      = key :: list_Remove key (accessOrder (cache w))).
Proof.
  split; [|split; [|split]].
  - intros w0 w' n op1 ops Hwf Hempty Hne Hn Hnd Hsized Hcap Hfit Hrun.
    destruct (exists_last Hne) as (mid & [[key data] io] & ->).
    rewrite length_app in Hcap, Hfit. simpl in Hcap, Hfit.
    rewrite app_comm_cons, put_all_app in Hrun.
    destruct (put_all (op1 :: mid) w0) as [wm|] eqn:Hmid; [|done].
    simpl in Hrun. apply (put_all_single key data io) in Hrun as [p HPut].
    pose proof (uniform_empty w0 Hwf Hempty (Z.of_nat n)) as Hun0.
    assert (Hnd' : NoDup (op_keys (op1 :: mid) ++ [key])).
    { rewrite app_comm_cons, op_keys_app in Hnd. exact Hnd. }
    assert (Hunm : uniform (Z.of_nat n) (maxSizeBytes (cache w0))
                     (Evictions (stats (cache w0)))
                     (reverse (op_keys mid) ++ [op1.1.1]) (cache wm)).
    { pose proof (put_all_fill _ _ _ n (op1 :: mid) [] w0 wm Hun0) as H.
      rewrite !app_nil_r in H. simpl in H. rewrite reverse_cons in H.
      apply H; [by apply NoDup_app in Hnd' as (? & _)| |done|lia|lia|done].
      intros op Hop. apply Hsized. rewrite app_comm_cons, elem_of_app. by left. }
    destruct (Put_uniform_full _ _ _ (reverse (op_keys mid)) op1.1.1 wm key data io p w'
                Hunm) as [Hun' Hgone].
    { rewrite <- reverse_cons. rewrite elem_of_reverse.
      apply NoDup_app in Hnd' as (_ & Hdisj & _). intros Hk.
      apply (Hdisj _ Hk). by left. }
    { f_equal. apply (Hsized (key, data, io)).
      rewrite app_comm_cons, elem_of_app, list_elem_of_singleton. by right. }
    { lia. }
    { rewrite length_reverse, op_keys_length. lia. }
    { rewrite length_reverse, op_keys_length. lia. }
    { done. }
    assert (Hkeys : key :: reverse (op_keys mid) = reverse (op_keys (mid ++ [(key, data, io)]))).
    { rewrite op_keys_app, reverse_app. done. }
    rewrite Hkeys in Hun'.
    split; [done|]. split.
    { intros k. rewrite <- (uniform_dom _ _ _ _ _ k Hun'), elem_of_reverse. done. }
    split; [apply (un_order _ _ _ _ _ Hun')|apply (un_evictions _ _ _ _ _ Hun')].
  - intros w0 w1 w' n op1 op2 ops key data io now hitPath filePath
      Hwf Hempty Hn Hnd Hsized Hlen Hcap Hfit Hrun Hhit HPut.
    pose proof (uniform_empty w0 Hwf Hempty (Z.of_nat n)) as Hun0.
    assert (Hun1 : uniform (Z.of_nat n) (maxSizeBytes (cache w0))
                     (Evictions (stats (cache w0)))
                     (reverse (op_keys ops) ++ [op2.1.1; op1.1.1]) (cache w1)).
    { pose proof (put_all_fill _ _ _ n (op1 :: op2 :: ops) [] w0 w1 Hun0) as H.
      rewrite !app_nil_r in H. simpl in H.
      rewrite !reverse_cons, <- app_assoc in H. simpl in H.
      apply H; [by apply NoDup_app in Hnd as (? & _)|done|done|lia|lia|done]. }
    destruct (Get_uniform_hit _ _ _ _ _ _ now hitPath Hun1 Hhit) as [_ Hun2].
    apply NoDup_app in Hnd as (Hnd1 & Hdisj & _). simpl in Hnd1, Hdisj.
    apply NoDup_cons in Hnd1 as [H1 Hnd1]. apply NoDup_cons in Hnd1 as [H2 Hnd1].
    rewrite not_elem_of_cons in H1. destruct H1 as [H12 H1].
    assert (Hrem : list_Remove op1.1.1 (reverse (op_keys ops) ++ [op2.1.1; op1.1.1])
                   = reverse (op_keys ops) ++ [op2.1.1]).
    { replace (reverse (op_keys ops) ++ [op2.1.1; op1.1.1])
        with ((reverse (op_keys ops) ++ [op2.1.1]) ++ [op1.1.1])
        by (by rewrite <- app_assoc).
      apply list_Remove_snoc.
      rewrite elem_of_app, list_elem_of_singleton, elem_of_reverse. tauto. }
    rewrite Hrem in Hun2.
    destruct (Put_uniform_full _ _ _ (op1.1.1 :: reverse (op_keys ops)) op2.1.1
                _ key data io filePath w' Hun2) as [Hun' Hgone].
    { intros Hk. apply (Hdisj key); [|by left].
      simpl in Hk. rewrite elem_of_cons, elem_of_app, elem_of_reverse,
        list_elem_of_singleton in Hk.
      rewrite !elem_of_cons. tauto. }
    { by rewrite Hlen. }
    { lia. }
    { simpl. rewrite length_reverse, op_keys_length. lia. }
    { simpl. rewrite length_reverse, op_keys_length. lia. }
    { done. }
    split; [done|]. split.
    { intros k. rewrite <- (uniform_dom _ _ _ _ _ k Hun').
      rewrite !elem_of_cons, elem_of_reverse. done. }
    split; [apply (un_order _ _ _ _ _ Hun')|apply (un_evictions _ _ _ _ _ Hun')].
  - intros w w' key data io filePath Hwf HPut.
    destruct (Put_unfold key data io w Hwf) as (w2 & ev & Hspec & Hk & Heq).
    rewrite Heq in HPut.
    destruct (create_ok io); simpl in HPut; [|done].
    destruct (copy_ok io); simpl in HPut; [|done].
    destruct (rename_tmp _ _ _ _); [|done]. injection HPut as _ <-.
    exists (accessOrder (cache w2)), ev. rewrite saveMetadata_cache. simpl.
    split.
    { rewrite <- (ev_order _ _ _ _ Hspec). simpl. symmetry. by apply Put_start_order. }
    split; [done|].
    intros k Hin. destruct (decide (k = key)) as [->|Hne].
    { exfalso. pose proof (wf_nodup _ (wf_Put_start key w Hwf)) as Hnd.
      assert (Hin' : key ∈ accessOrder (cache (Put_start key w))).
      { pose proof (ev_order _ _ _ _ Hspec) as Ho. simpl in Ho. rewrite Ho.
        rewrite elem_of_app. by right. }
      rewrite Put_start_order, list_Remove_elem in Hin' by done. tauto. }
    rewrite lookup_insert_ne by done.
    rewrite (ev_entries _ _ _ _ Hspec). by rewrite decide_True.
  - intros w key now filePath Hwf. unfold Get.
    destruct (entries (cache w) !! key) as [entry|] eqn:Hin; [|done].
    destruct (os_Stat (disk w) (Filename entry)); [|done]. simpl. intros _.
    unfold move_to_front. simpl.
    rewrite decide_True by (apply (wf_amap _ Hwf); eauto). simpl.
    unfold list_MoveToFront.
    by rewrite decide_True by (apply (wf_order _ Hwf); eauto).
Qed.

Lemma sample_op_sized (ops : list (string * Time)) :
  op_sized 3 ((λ p, sample_op p.1 p.2) <$> ops).
Proof.
  intros op [[k t] [-> _]]%list_elem_of_fmap. reflexivity.
Qed.

Lemma C2_least_recently_used_is_evicted_witness :
  (wf (cache (sample_fresh 7))
   ∧ entries (cache (sample_fresh 7)) = ∅
   ∧ put_all [sample_op "b/k1" 1; sample_op "b/k2" 2; sample_op "b/k3" 3]
             (sample_fresh 7) = Some sample_three
   ∧ entries (cache sample_three) !! "b/k1" = None
   ∧ accessOrder (cache sample_three) = ["b/k3"; "b/k2"])
  ∧ (put_all [sample_op "b/k1" 1; sample_op "b/k2" 2] (sample_fresh 7) = Some sample_two
     ∧ (Get "b/k1" 3 sample_two).1 = ("/c/files/b_k1", true)
     ∧ Put "b/k3" (zeros 3) (sample_io 4) (Get "b/k1" 3 sample_two).2
       = Some (PutOk "/c/files/b_k3", sample_touched)
     ∧ entries (cache sample_touched) !! "b/k2" = None
     ∧ accessOrder (cache sample_touched) = ["b/k3"; "b/k1"]).
Proof.
  destruct C2_least_recently_used_is_evicted as (Hfirst & Hsecond & _ & _).
  assert (Hreach : wf (cache (sample_fresh 7))) by apply wf_empty_cache.
  assert (Hempty : entries (cache (sample_fresh 7)) = ∅) by reflexivity.
  assert (Hrun3 : put_all [sample_op "b/k1" 1; sample_op "b/k2" 2; sample_op "b/k3" 3]
                          (sample_fresh 7) = Some sample_three)
    by (vm_compute; reflexivity).
  assert (Hrun2 : put_all [sample_op "b/k1" 1; sample_op "b/k2" 2] (sample_fresh 7)
                  = Some sample_two) by (vm_compute; reflexivity).
  assert (Hhit : (Get "b/k1" 3 sample_two).1 = ("/c/files/b_k1", true))
    by (vm_compute; reflexivity).
  assert (HPut : Put "b/k3" (zeros 3) (sample_io 4) (Get "b/k1" 3 sample_two).2
                 = Some (PutOk "/c/files/b_k3", sample_touched))
    by (vm_compute; reflexivity).
  assert (Hnd3 : NoDup ["b/k1"; "b/k2"; "b/k3"]).
  { apply (bool_decide_unpack _). vm_compute. exact I. }
  split.
  - split; [exact Hreach|]. split; [exact Hempty|]. split; [exact Hrun3|].
    destruct (Hfirst (sample_fresh 7) sample_three 3%nat (sample_op "b/k1" 1)
                [sample_op "b/k2" 2; sample_op "b/k3" 3] Hreach Hempty)
      as (Hgone & _ & Horder & _).
    + discriminate.
    + lia.
    + exact Hnd3.
    + apply (sample_op_sized [("b/k1", 1); ("b/k2", 2); ("b/k3", 3)]).
    + vm_compute. split; [discriminate|reflexivity].
    + vm_compute. discriminate.
    + exact Hrun3.
    + split; [exact Hgone|exact Horder].
  - split; [exact Hrun2|]. split; [exact Hhit|]. split; [exact HPut|].
    destruct (Hsecond (sample_fresh 7) sample_two sample_touched 3%nat
                (sample_op "b/k1" 1) (sample_op "b/k2" 2) [] "b/k3" (zeros 3)
                (sample_io 4) 3 "/c/files/b_k1" "/c/files/b_k3" Hreach Hempty)
      as (Hgone & _ & Horder & _).
    + lia.
    + exact Hnd3.
    + apply (sample_op_sized [("b/k1", 1); ("b/k2", 2)]).
    + reflexivity.
    + vm_compute. split; [discriminate|reflexivity].
    + vm_compute. discriminate.
    + exact Hrun2.
    + exact Hhit.
    + exact HPut.
    + split; [exact Hgone|exact Horder].
Defined.


(** ** The recency order after a restart *)

Lemma sorted_desc_cons (a : entryWithTime) (l : list entryWithTime) :
  sorted_desc (a :: l) → sorted_desc l ∧ ∀ b, b ∈ l → b.2 <= a.2.
Proof.
  intros Hs. split.
  - intros i j x y Hij Hx Hy. apply (Hs (S i) (S j)); [lia|done..].
  - intros b [j Hj]%list_elem_of_lookup. apply (Hs 0%nat (S j)); [lia|done..].
Qed.

(** A list sorted by instants that are all different is determined by its
    elements. *)
Lemma sorted_desc_unique (l1 l2 : list entryWithTime) :
  sorted_desc l1 → sorted_desc l2 → l1 ≡ₚ l2 →
  (∀ a b, a ∈ l1 → b ∈ l1 → a.2 = b.2 → a = b) →
  l1 = l2.
Proof.
  revert l2. induction l1 as [|a l1 IH]; intros l2 Hs1 Hs2 Hperm Hinj.
  - by apply Permutation_nil_l in Hperm.
  - destruct l2 as [|b l2]; [by apply Permutation_nil_r in Hperm|].
    destruct (sorted_desc_cons _ _ Hs1) as [Hs1' Hmax1].
    destruct (sorted_desc_cons _ _ Hs2) as [Hs2' Hmax2].
    assert (Hb : b ∈ a :: l1) by (rewrite Hperm; by left).
    assert (Ha : a ∈ b :: l2) by (rewrite <- Hperm; by left).
    assert (Hab : a = b).
    { apply Hinj; [by left|done|].
      apply elem_of_cons in Hb as [->|Hb]; [done|].
      apply elem_of_cons in Ha as [->|Ha]; [done|].
      specialize (Hmax1 _ Hb). specialize (Hmax2 _ Ha). lia. }
    subst b. f_equal. apply IH; [done..| |].
    + by apply Permutation_cons_inv in Hperm.
    + intros x y Hx Hy. apply Hinj; by right.
Qed.

Lemma with_times_perm (ord : RangeOrder) (m : gmap string Entry) :
  range_ok ord →
  with_times ord m ≡ₚ (λ p : string * Entry, (p.1, AccessTime p.2)) <$> map_to_list m.
Proof. intros Hord. unfold with_times. by rewrite (Hord (map_to_list m)). Qed.

Lemma with_times_elem (ord : RangeOrder) (m : gmap string Entry) (k : string) (t : Time) :
  range_ok ord →
  (k, t) ∈ sort_by_access_time (with_times ord m) ↔
  ∃ e, m !! k = Some e ∧ t = AccessTime e.
Proof.
  intros Hord. rewrite sort_by_access_time_perm, (with_times_perm _ _ Hord).
  rewrite list_elem_of_fmap. split.
  - intros [[k' e] [[= -> ->] H%elem_of_map_to_list]]. by exists e.
  - intros [e [H ->]]. exists (k, e). split; [done|]. by apply elem_of_map_to_list.
Qed.

(** What [loadFromDisk] leaves in the recency list. *)
Lemma open_cache_order dir maxBytes ord d l :
  metadata d = MetaEntries l →
  accessOrder (cache (open_cache dir maxBytes ord d))
  = (sort_by_access_time
       (with_times ord (entries (cache (open_cache dir maxBytes ord d))))).*1.
Proof.
  intros Hmeta.
  destruct (open_cache_cache dir maxBytes ord d) as (c & Hc & _ & _ & Hload).
  rewrite Hmeta in Hload. simpl in Hload. destruct Hload as (He & _ & Ho & _).
  rewrite Hc, Ho. unfold with_times. by rewrite He.
Qed.

Lemma open_cache_entries_ord dir maxBytes ord ord' d :
  entries (cache (open_cache dir maxBytes ord d))
  = entries (cache (open_cache dir maxBytes ord' d)).
Proof.
  destruct (open_cache_cache dir maxBytes ord d) as (c & Hc & _ & _ & Hload).
  destruct (open_cache_cache dir maxBytes ord' d) as (c' & Hc' & _ & _ & Hload').
  rewrite Hc, Hc'. destruct (metadata d) as [| |l]; [congruence..|].
  simpl in *. destruct Hload as (-> & _), Hload' as (-> & _). done.
Qed.

(** C8, amended.  From any metadata file, [loadFromDisk] leaves in the
    recency list the keys of the surviving entries, each once, with access
    times in descending order; two restarts on the same metadata and files
    give the same list when no two surviving entries have the same access
    time. *)
Theorem C8_recency_rebuilt_by_access_time
    (dir : string) (maxBytes : Z) (ord : RangeOrder) (d : Disk) (l : list Entry) :
  metadata d = MetaEntries l →
  range_ok ord →
  let c := cache (open_cache dir maxBytes ord d) in
  (∀ i j ki kj ei ej,
      (i < j)%nat →
      accessOrder c !! i = Some ki → accessOrder c !! j = Some kj →
      entries c !! ki = Some ei → entries c !! kj = Some ej →
      AccessTime ej <= AccessTime ei)
  ∧ accessOrder c ≡ₚ (map_to_list (entries c)).*1
  ∧ (∀ ord', range_ok ord' → no_ties (entries c) →
       accessOrder (cache (open_cache dir maxBytes ord' d)) = accessOrder c).
Proof.
  intros Hmeta Hord c.
  pose proof (open_cache_order dir maxBytes ord d l Hmeta) as Ho. fold c in Ho.
  split; [|split].
  - intros i j ki kj ei ej Hij Hi Hj Hei Hej.
    rewrite Ho, list_lookup_fmap in Hi, Hj.
    destruct (sort_by_access_time _ !! i) as [[ki' ti]|] eqn:Hi'; [|done].
    destruct (sort_by_access_time _ !! j) as [[kj' tj]|] eqn:Hj'; [|done].
    simpl in Hi, Hj. injection Hi as ->. injection Hj as ->.
    pose proof (sort_by_access_time_sorted _ i j _ _ Hij Hi' Hj') as Hle.
    apply list_elem_of_lookup_2, with_times_elem in Hi' as (e1 & H1 & ->); [|done].
    apply list_elem_of_lookup_2, with_times_elem in Hj' as (e2 & H2 & ->); [|done].
    simpl in Hle. congruence.
  - rewrite Ho, sort_by_access_time_perm, (with_times_perm _ _ Hord).
    by rewrite <- list_fmap_compose.
  - intros ord' Hord' Hties.
    rewrite (open_cache_order dir maxBytes ord' d l Hmeta), Ho.
    rewrite <- (open_cache_entries_ord dir maxBytes ord ord' d). fold c.
    f_equal. apply sorted_desc_unique.
    + apply sort_by_access_time_sorted.
    + apply sort_by_access_time_sorted.
    + rewrite !sort_by_access_time_perm, !with_times_perm by done. done.
    + intros [k1 t1] [k2 t2] (e1 & H1 & ->)%with_times_elem
        (e2 & H2 & ->)%with_times_elem; [|done..].
      simpl. intros Ht. by rewrite (Hties k1 k2 e1 e2 H1 H2 Ht), Ht.
Qed.

Lemma C8_recency_rebuilt_by_access_time_witness :
  metadata (disk sample_three)
  = MetaEntries [mkEntry "b/k3" "b_k3" 3 3 3; mkEntry "b/k2" "b_k2" 3 2 2]
  ∧ range_ok reverse
  ∧ accessOrder (cache (open_cache "/c" 7 reverse (disk sample_three)))
    ≡ₚ (map_to_list (entries (cache (open_cache "/c" 7 reverse (disk sample_three))))).*1.
Proof.
  assert (Hmeta : metadata (disk sample_three)
                  = MetaEntries [mkEntry "b/k3" "b_k3" 3 3 3; mkEntry "b/k2" "b_k2" 3 2 2])
    by (vm_compute; reflexivity).
  assert (Hrev : range_ok reverse) by (intros l; apply reverse_Permutation).
  split; [exact Hmeta|]. split; [exact Hrev|].
  apply (C8_recency_rebuilt_by_access_time "/c" 7 reverse (disk sample_three) _ Hmeta Hrev).
Defined.

(** Two restarts on the same metadata and files, ranging over the map in
    two orders, leave two entries of the same instant in two orders. *)
Lemma C8_ties_follow_the_range_order :
  range_ok (λ l, l) ∧ range_ok reverse
  ∧ accessOrder (cache (open_cache "/c" 10 (λ l, l) (disk sample_tied)))
    ≠ accessOrder (cache (open_cache "/c" 10 reverse (disk sample_tied))).
Proof.
  split; [by intros l|]. split; [intros l; apply reverse_Permutation|].
  vm_compute. discriminate.
Qed.

(* ===================================================================== *)
(** * Further properties of the code *)
(* ===================================================================== *)

(** ** Sample states are well formed *)

Lemma sample_held_wf : wf (cache sample_held).
Proof. apply reachable_wf, sample_held_reachable. Qed.

Lemma put_all_wf ops w w' :
  wf (cache w) → put_all ops w = Some w' → wf (cache w').
Proof.
  revert w. induction ops as [|[[key data] io] ops IH]; intros w Hwf; simpl.
  - by intros [= <-].
  - destruct (Put key data io w) as [[[p|e] w1]|] eqn:HPut; [|done..].
    apply IH. by apply (Put_wf _ _ _ _ _ _ Hwf HPut).
Qed.

Lemma sample_two_wf : wf (cache sample_two).
Proof.
  apply (put_all_wf [sample_op "b/k1" 1; sample_op "b/k2" 2] (sample_fresh 7));
    [apply wf_empty_cache|vm_compute; reflexivity].
Qed.

Lemma sample_three_wf : wf (cache sample_three).
Proof.
  apply (put_all_wf [sample_op "b/k1" 1; sample_op "b/k2" 2; sample_op "b/k3" 3]
           (sample_fresh 7)); [apply wf_empty_cache|vm_compute; reflexivity].
Qed.

(** ** More on file names *)

Lemma safe_rune_not_slash (c : ascii) : safe_rune c = true → c ≠ "/"%char.
Proof. intros H ->. discriminate. Qed.

Lemma all_safe_no_slash (s : string) : all_safe s = true → ¬ has_slash s.
Proof.
  induction s as [|c s IH]; simpl.
  - intros _. unfold has_slash. simpl. apply not_elem_of_nil.
  - intros [Hc Hs]%andb_true_iff. rewrite has_slash_cons.
    intros [->|H]; [discriminate|by apply IH].
Qed.

Lemma has_slash_append (s t : string) :
  has_slash (s +:+ t) ↔ has_slash s ∨ has_slash t.
Proof. unfold has_slash. by rewrite append_list, elem_of_app. Qed.

(** X1.  The file name that [sanitizeFilename] makes of a key has no path
    separator. *)
Theorem X1_sanitizeFilename_has_no_separator (key : string) :
  ¬ has_slash (sanitizeFilename key).
Proof.
  unfold sanitizeFilename. rewrite has_slash_append. intros [H|H].
  - revert H. apply all_safe_no_slash. by apply sanitize_loop_safe.
  - by destruct (Ext_spec key) as (_ & _ & Hno & _).
Qed.

Lemma sanitize_loop_mapped (base safe : string) :
  safe_or_slash base = true →
  sanitize_loop base safe = safe +:+ slash_to_underscore base.
Proof.
  revert safe. induction base as [|r rest IH]; intros safe; simpl.
  - intros _. by rewrite append_empty_r.
  - intros [Hr Hrest]%andb_true_iff.
    destruct (safe_rune r) eqn:Hsafe.
    + rewrite IH by done. rewrite append_assoc. simpl.
      destruct (Ascii.eqb_spec r "/") as [->|_]; [discriminate|done].
    + simpl in Hr. rewrite Hr. rewrite IH by done. by rewrite append_assoc.
Qed.

Lemma safe_or_slash_append (s t : string) :
  safe_or_slash (s +:+ t) = safe_or_slash s && safe_or_slash t.
Proof.
  induction s as [|c s IH]; [done|]. rewrite append_cons. simpl.
  by rewrite IH, andb_assoc.
Qed.

Lemma slash_to_underscore_append (s t : string) :
  slash_to_underscore (s +:+ t) = slash_to_underscore s +:+ slash_to_underscore t.
Proof.
  induction s as [|c s IH]; [done|]. rewrite append_cons. simpl.
  by rewrite append_cons, IH.
Qed.

Lemma slash_to_underscore_id (s : string) :
  ¬ has_slash s → slash_to_underscore s = s.
Proof.
  induction s as [|c s IH]; simpl; [done|]. rewrite has_slash_cons. intros H.
  destruct (Ascii.eqb_spec c "/") as [->|_]; [tauto|]. rewrite IH; tauto.
Qed.

(** X2.  For a key made of safe characters and separators,
    [sanitizeFilename] replaces each '/' by '_' and changes nothing else;
    it leaves such a key without separator as it is, and two such keys
    that differ only in '/' against '_' get the same file name. *)
Theorem X2_sanitizeFilename_maps_separators (key : string) :
  safe_or_slash key = true →
  sanitizeFilename key = slash_to_underscore key
  ∧ (¬ has_slash key → sanitizeFilename key = key)
  ∧ (∀ key', safe_or_slash key' = true →
       slash_to_underscore key' = slash_to_underscore key →
       sanitizeFilename key' = sanitizeFilename key).
Proof.
  assert (Hmap : ∀ k, safe_or_slash k = true → sanitizeFilename k = slash_to_underscore k).
  { intros k Hk. unfold sanitizeFilename.
    destruct (Ext_spec k) as (base & Heq & Hno & ->).
    rewrite Heq, safe_or_slash_append in Hk. apply andb_true_iff in Hk as [Hb _].
    rewrite sanitize_loop_mapped by done. simpl.
    rewrite Heq at 2. rewrite slash_to_underscore_append.
    by rewrite (slash_to_underscore_id _ Hno). }
  intros Hkey. split; [by apply Hmap|]. split.
  - intros Hno. rewrite Hmap by done. by apply slash_to_underscore_id.
  - intros key' Hkey' Heq. by rewrite !Hmap, Heq.
Qed.

Lemma X2_sanitizeFilename_maps_separators_witness :
  safe_or_slash "a/b.apk" = true
  ∧ sanitizeFilename "a/b.apk" = "a_b.apk"
  ∧ safe_or_slash "a_b.apk" = true
  ∧ sanitizeFilename "a_b.apk" = sanitizeFilename "a/b.apk".
Proof.
  destruct (X2_sanitizeFilename_maps_separators "a/b.apk" eq_refl) as (H1 & _ & H3).
  split; [reflexivity|]. split; [exact H1|]. split; [reflexivity|].
  apply H3; reflexivity.
Defined.

(** ** What [Get] touches *)

(** X3.  [Get] leaves the disk, the eviction count and the capacity as they
    are.  When it finds the key it counts one hit and no miss, returns the
    path of the entry's file, sets the access time of the entry and changes
    no other entry nor the current size; when it does not, it returns the
    empty path, counts one miss and no hit, and the index is the one before
    without the key. *)
Theorem X3_Get_counts_one_hit_or_one_miss (key : string) (now : Time) (w : World) :
  let r := (Get key now w).1 in
  let c := cache w in
  let c' := cache (Get key now w).2 in
  disk (Get key now w).2 = disk w
  ∧ Evictions (stats c') = Evictions (stats c)
  ∧ maxSizeBytes c' = maxSizeBytes c
  ∧ (r.2 = true →
       Hits (stats c') = Int64.incr (Hits (stats c))
       ∧ Misses (stats c') = Misses (stats c)
       ∧ currentSize c' = currentSize c
       ∧ (∃ e, entries c !! key = Some e
               ∧ r.1 = filepath_Join (filesDir c) (Filename e)
               ∧ entries c' !! key
                 = Some (mkEntry (Key e) (Filename e) (Size e) now (CreateTime e)))
       ∧ (∀ k, k ≠ key → entries c' !! k = entries c !! k))
  ∧ (r.2 = false →
       r.1 = ""
       ∧ Misses (stats c') = Int64.incr (Misses (stats c))
       ∧ Hits (stats c') = Hits (stats c)
       ∧ entries c' = delete key (entries c)).
Proof.
  intros r c c'. split; [apply Get_disk|]. subst r c c'.
  unfold Get. destruct (entries (cache w) !! key) as [entry|] eqn:Hin.
  - destruct (os_Stat (disk w) (Filename entry)) eqn:Hstat; simpl.
    + assert (Hmove : ∀ c, stats (move_to_front key c) = stats c
                          ∧ maxSizeBytes (move_to_front key c) = maxSizeBytes c
                          ∧ currentSize (move_to_front key c) = currentSize c
                          ∧ entries (move_to_front key c) = entries c).
      { intros c. unfold move_to_front. by case_decide. }
      destruct (Hmove (touch key now (cache w))) as (-> & -> & -> & ->). simpl.
      split; [done|]. split; [done|]. split; [|done]. intros _.
      split; [done|]. split; [done|]. split; [done|]. split.
      * exists entry. split; [done|]. split; [done|].
        by rewrite lookup_alter_eq, Hin.
      * intros k Hk. by rewrite lookup_alter_ne.
    + rewrite removeEntry_stats. destruct (removeEntry_fields key w) as (-> & _).
      split; [done|]. split; [done|]. split; [done|]. intros _.
      split; [done|]. split; [done|]. split; [done|]. apply removeEntry_entries.
  - simpl. split; [done|]. split; [done|]. split; [done|]. intros _.
    split; [done|]. split; [done|]. split; [done|].
    symmetry. by apply delete_id.
Qed.

Lemma X3_Get_counts_one_hit_or_one_miss_witness :
  ((Get "b/x" 9 sample_held).1.2 = true
   ∧ Hits (stats (cache (Get "b/x" 9 sample_held).2))
     = Int64.incr (Hits (stats (cache sample_held))))
  ∧ ((Get "b/x" 9 sample_stale).1.2 = false
     ∧ Misses (stats (cache (Get "b/x" 9 sample_stale).2))
       = Int64.incr (Misses (stats (cache sample_stale)))).
Proof.
  split.
  - assert (H : (Get "b/x" 9 sample_held).1.2 = true) by (vm_compute; reflexivity).
    split; [exact H|].
    apply (X3_Get_counts_one_hit_or_one_miss "b/x" 9 sample_held). exact H.
  - assert (H : (Get "b/x" 9 sample_stale).1.2 = false) by (vm_compute; reflexivity).
    split; [exact H|].
    apply (X3_Get_counts_one_hit_or_one_miss "b/x" 9 sample_stale). exact H.
Defined.

(** ** What [Put] leaves *)

(** X4.  A [Put] that returns an error never returns the error of the
    eviction pass, and has only taken away: every file and every entry was
    there before, metadata.json is untouched, and hits and misses are as
    before. *)
Theorem X4_failed_Put_only_removes
    (key : string) (data : bytes) (io : PutIO) (w w' : World) (e : PutError) :
  Put key data io w = Some (PutErr e, w') →
  e ≠ ErrEvict
  ∧ files (disk w') ⊆ files (disk w)
  ∧ metadata (disk w') = metadata (disk w)
  ∧ entries (cache w') ⊆ entries (cache w)
  ∧ Hits (stats (cache w')) = Hits (stats (cache w))
  ∧ Misses (stats (cache w')) = Misses (stats (cache w)).
Proof.
  intros HPut. split.
  - intros ->. by apply (Put_never_ErrEvict _ _ _ _ _ _ HPut).
  - by apply (Put_err_removes key data io w w' e).
Qed.

Lemma X4_failed_Put_only_removes_witness :
  Put "b/x" (zeros 3) sample_io_copy_fails sample_held
  = Some (PutErr ErrWriteFile, sample_failed)
  ∧ files (disk sample_failed) ⊆ files (disk sample_held).
Proof.
  assert (HPut : Put "b/x" (zeros 3) sample_io_copy_fails sample_held
                 = Some (PutErr ErrWriteFile, sample_failed))
    by (vm_compute; reflexivity).
  split; [exact HPut|]. apply (X4_failed_Put_only_removes _ _ _ _ _ _ HPut).
Defined.

Lemma saveMetadata_files ord out w :
  files (disk (saveMetadata ord out w)) = files (disk w).
Proof. by destruct out. Qed.

Lemma install_stats entry c :
  Hits (stats (install entry c)) = Hits (stats c)
  ∧ Misses (stats (install entry c)) = Misses (stats c)
  ∧ Evictions (stats (install entry c)) = Evictions (stats c).
Proof. done. Qed.

Lemma os_Rename_tmp_cases ok n filename d :
  rename_tmp ok (Some n) filename d = None
  ∨ ∃ content,
      files d !! n = Some content
      ∧ rename_tmp ok (Some n) filename d
        = Some (mkDisk (<[filename := content]> (delete n (files d))) (metadata d)).
Proof.
  unfold rename_tmp, os_Rename. destruct ok; [|by left].
  destruct (files d !! n) as [content|]; [right; by exists content|by left].
Qed.

(** A successful [Put], step by step. *)
Lemma Put_ok_unfold key data io w filePath w' :
  wf (cache w) →
  Put key data io w = Some (PutOk filePath, w') →
  ∃ w2 evicted n,
    evicted_to (Z.of_nat (length data)) (Put_written key data w) w2 evicted
    ∧ evict_loop (size (entries (cache (Put_written key data w))))
                 (Z.of_nat (length data)) (Put_written key data w) = Some w2
    ∧ entries (cache w2) !! key = None
    ∧ tmp_name (sanitizeFilename key) = Some n
    ∧ filePath = filepath_Join (filesDir (cache w)) (sanitizeFilename key)
    ∧ cache w' = install (Put_entry key data io) (cache w2)
    ∧ files (disk w') = <[sanitizeFilename key := data]> (delete n (files (disk w2))).
Proof.
  intros Hwf HPut.
  pose proof (wf_Put_start key w Hwf) as Hwf0.
  destruct (evict_loop_spec (size (entries (cache (Put_written key data w))))
              (Z.of_nat (length data)) (Put_written key data w))
    as (w2 & ev & Hrun & Hspec); [done|by rewrite size_entries_order|].
  assert (Hk : entries (cache w2) !! key = None).
  { rewrite (ev_entries _ _ _ _ Hspec). case_decide; [done|].
    simpl. rewrite Put_start_entries. apply lookup_delete_eq. }
  rewrite Put_eq in HPut. cbv zeta in HPut.
  destruct (create_ok io); simpl in HPut; [|done].
  destruct (copy_ok io); simpl in HPut; [|done].
  unfold evictIfNeeded in HPut. rewrite Hrun in HPut. simpl in HPut.
  destruct (rename_tmp _ _ _ _) as [d|] eqn:Hren; [|done].
  injection HPut as <- <-.
  apply rename_tmp_Some in Hren as (n & content & Htmp & Hn & ->).
  assert (content = data) as ->.
  { pose proof (Put_written_tmp key data w n Htmp) as Hdata.
    pose proof (lookup_weaken _ _ _ _ Hn (ev_files _ _ _ _ Hspec)) as Hn'.
    congruence. }
  exists w2, ev, n. split; [done|]. split; [done|]. split; [done|]. split; [done|].
  destruct (Put_start_fields key w) as (_ & Hf & _).
  split; [by rewrite Hf|]. rewrite saveMetadata_cache, saveMetadata_files. done.
Qed.

(** X5.  On a well-formed index a [Put] that succeeds returns the path of
    the key's file name in the files directory; the index then holds under
    the key an entry with this name, the size of the data and the instants
    of the call, the file holds the data, every other entry was there
    before, the key is at the front of the recency list and nowhere else in
    it, the current size is the size of the data plus the sizes of the
    other entries, as an int64, and hits and misses are as before. *)
Theorem X5_Put_replaces_the_entry
    (w w' : World) (key : string) (data : bytes) (io : PutIO) (filePath : string) :
  wf (cache w) →
  Put key data io w = Some (PutOk filePath, w') →
  filePath = filepath_Join (filesDir (cache w)) (sanitizeFilename key)
  ∧ entries (cache w') !! key = Some (Put_entry key data io)
  ∧ files (disk w') !! sanitizeFilename key = Some data
  ∧ (∀ k e, k ≠ key →
       entries (cache w') !! k = Some e → entries (cache w) !! k = Some e)
  ∧ (∃ kept, accessOrder (cache w') = key :: kept ∧ key ∉ kept)
  ∧ currentSize (cache w')
    = Int64.wrap (Z.of_nat (length data)
                  + total_size (delete key (entries (cache w'))))
  ∧ Hits (stats (cache w')) = Hits (stats (cache w))
  ∧ Misses (stats (cache w')) = Misses (stats (cache w)).
Proof.
  intros Hwf HPut.
  destruct (Put_ok_unfold _ _ _ _ _ _ Hwf HPut)
    as (w2 & ev & n & Hspec & Hrun & Hk & Htmp & -> & Hc & Hf).
  assert (Hwf' : wf (cache w')).
  { by apply (Put_wf _ _ _ _ _ _ Hwf HPut). }
  assert (Hin : entries (cache w') !! key = Some (Put_entry key data io)).
  { rewrite Hc. simpl. apply lookup_insert_eq. }
  assert (Hcur : currentSize (cache w')
                 = Int64.wrap (Z.of_nat (length data)
                               + total_size (delete key (entries (cache w'))))).
  { rewrite (wf_current _ Hwf'), (total_size_delete _ _ _ Hin). simpl.
    f_equal. lia. }
  split; [done|]. split; [done|]. rewrite Hf.
  split; [apply lookup_insert_eq|]. split; [|split; [|split; [exact Hcur|]]];
    rewrite Hc; simpl.
  { intros k e Hne. rewrite lookup_insert_ne by done. intros He.
    pose proof (lookup_weaken _ _ _ _ He (evicted_to_subseteq _ _ _ _ Hspec)) as H1.
    simpl in H1. rewrite Put_start_entries in H1.
    by apply lookup_delete_Some in H1 as [_ H1]. }
  { exists (accessOrder (cache w2)). split; [done|].
    rewrite (wf_order _ (ev_wf _ _ _ _ Hspec)), Hk. by intros [? ?]. }
  destruct (evict_loop_keeps _ _ _ _ Hrun) as (_ & _ & -> & ->). simpl.
  by rewrite Put_start_stats.
Qed.

Lemma X5_Put_replaces_the_entry_witness :
  wf (cache sample_held)
  ∧ Put "b/x" (zeros 4) (sample_io 2) sample_held
    = Some (PutOk "/c/files/b_x",
            after_Put "b/x" (zeros 4) (sample_io 2) sample_held)
  ∧ files (disk (after_Put "b/x" (zeros 4) (sample_io 2) sample_held)) !! "b_x"
    = Some (zeros 4).
Proof.
  assert (HPut : Put "b/x" (zeros 4) (sample_io 2) sample_held
                 = Some (PutOk "/c/files/b_x",
                         after_Put "b/x" (zeros 4) (sample_io 2) sample_held))
    by (vm_compute; reflexivity).
  split; [exact sample_held_wf|]. split; [exact HPut|].
  apply (X5_Put_replaces_the_entry _ _ _ _ _ _ sample_held_wf HPut).
Defined.

(** X6.  After a [Put] that succeeded, in any state, [Get] of the key is a
    hit on the path that [Put] returned, which is the key's file name in
    the files directory, and the file holds the data. *)
Theorem X6_Get_after_Put_hits
    (w w' : World) (key : string) (data : bytes) (io : PutIO) (filePath : string)
    (now : Time) :
  Put key data io w = Some (PutOk filePath, w') →
  (Get key now w').1 = (filePath, true)
  ∧ files (disk w') !! sanitizeFilename key = Some data
  ∧ filePath = filepath_Join (filesDir (cache w')) (sanitizeFilename key).
Proof.
  intros HPut.
  destruct (Put_ok_parts _ _ _ _ _ _ HPut)
    as (w2 & n & Hrun & Htmp & Hn & -> & Hc & Hf & _).
  assert (Hin : entries (cache w') !! key = Some (Put_entry key data io)).
  { rewrite Hc. simpl. apply lookup_insert_eq. }
  assert (Hdir : filesDir (cache w') = filesDir (cache w)).
  { rewrite Hc. simpl. destruct (evict_loop_keeps _ _ _ _ Hrun) as (_ & -> & _).
    simpl. apply Put_start_fields. }
  assert (Hfile : files (disk w') !! sanitizeFilename key = Some data).
  { rewrite Hf. apply lookup_insert_eq. }
  split; [|split; [exact Hfile|by rewrite Hdir]].
  rewrite (Get_hit _ _ _ _ (Z.of_nat (length data)) Hin).
  - simpl. by rewrite Hdir.
  - unfold os_Stat. simpl. by rewrite Hfile.
Qed.

Lemma X6_Get_after_Put_hits_witness :
  Put "b/x" (zeros 4) (sample_io 2) sample_held
  = Some (PutOk "/c/files/b_x",
          after_Put "b/x" (zeros 4) (sample_io 2) sample_held)
  ∧ (Get "b/x" 3 (after_Put "b/x" (zeros 4) (sample_io 2) sample_held)).1
    = ("/c/files/b_x", true).
Proof.
  assert (HPut : Put "b/x" (zeros 4) (sample_io 2) sample_held
                 = Some (PutOk "/c/files/b_x",
                         after_Put "b/x" (zeros 4) (sample_io 2) sample_held))
    by (vm_compute; reflexivity).
  split; [exact HPut|].
  apply (X6_Get_after_Put_hits _ _ _ _ _ _ 3 HPut).
Defined.

(** X7.  Whatever [Put] returns, other than the error of creating the
    temporary file, the temporary file of the key is not in the files
    directory afterwards; it is named after the key's file name with .tmp
    appended, for a file name that is not the name of a directory. *)
Theorem X7_Put_leaves_no_temporary_file
    (w w' : World) (key : string) (data : bytes) (io : PutIO) (r : PutResult)
    (n : string) :
  Put key data io w = Some (r, w') →
  r ≠ PutErr ErrCreateTemp →
  tmp_name (sanitizeFilename key) = Some n →
  n = sanitizeFilename key +:+ ".tmp" ∧ files (disk w') !! n = None.
Proof.
  intros HPut Hr Htmp.
  assert (Hn : n = sanitizeFilename key +:+ ".tmp").
  { unfold tmp_name in Htmp. destruct (is_dir_name _); [done|]. by injection Htmp. }
  split; [done|]. clear Hn.
  rewrite Put_eq in HPut. cbv zeta in HPut. rewrite Htmp in HPut.
  destruct (create_ok io); cbn [negb] in HPut; [|by injection HPut as <- _].
  destruct (copy_ok io); cbn [negb] in HPut.
  2:{ injection HPut as _ <-. simpl. apply lookup_delete_eq. }
  destruct (evictIfNeeded _ _) as [[err w2]|] eqn:Hev; [|done].
  pose proof (evictIfNeeded_nil _ _ _ _ Hev) as ->.
  destruct (os_Rename_tmp_cases (rename_ok io) n (sanitizeFilename key) (disk w2))
    as [Hren|(content & Hc & Hren)]; rewrite Hren in HPut.
  - injection HPut as _ <-. simpl. apply lookup_delete_eq.
  - injection HPut as _ <-. rewrite saveMetadata_files. simpl.
    rewrite lookup_insert_ne by (symmetry; apply (tmp_name_neq _ _ Htmp)).
    apply lookup_delete_eq.
Qed.

Lemma X7_Put_leaves_no_temporary_file_witness :
  Put "b/x" (zeros 3) sample_io_copy_fails sample_held
  = Some (PutErr ErrWriteFile, sample_failed)
  ∧ tmp_name (sanitizeFilename "b/x") = Some "b_x.tmp"%string
  ∧ files (disk sample_failed) !! "b_x.tmp" = None.
Proof.
  assert (HPut : Put "b/x" (zeros 3) sample_io_copy_fails sample_held
                 = Some (PutErr ErrWriteFile, sample_failed))
    by (vm_compute; reflexivity).
  assert (Htmp : tmp_name (sanitizeFilename "b/x") = Some "b_x.tmp"%string)
    by reflexivity.
  assert (Hr : PutErr ErrWriteFile ≠ PutErr ErrCreateTemp) by discriminate.
  split; [exact HPut|]. split; [exact Htmp|].
  apply (X7_Put_leaves_no_temporary_file _ _ _ _ _ _ _ HPut Hr Htmp).
Defined.

(** ** How much a [Put] evicts *)

(** An eviction run counts its victims, and its last victim had to go: with
    it the index was over capacity. *)
Lemma evict_loop_victims (fuel : nat) (newSize : Z) (w : World) :
  wf (cache w) →
  (length (accessOrder (cache w)) ≤ fuel)%nat →
  ∃ w' evicted,
    evict_loop fuel newSize w = Some w'
    ∧ accessOrder (cache w) = accessOrder (cache w') ++ evicted
    ∧ Evictions (stats (cache w'))
      = Nat.iter (length evicted) Int64.incr (Evictions (stats (cache w)))
    ∧ (evicted = [] ∧ w' = w
       ∨ ∃ v rest e,
           evicted = v :: rest
           ∧ entries (cache w) !! v = Some e
           ∧ Int64.add (Int64.wrap (total_size (entries (cache w')) + Size e)) newSize
             > maxSizeBytes (cache w)).
Proof.
  revert w. induction fuel as [|fuel IH]; intros w Hwf Hlen; simpl.
  - destruct (over_capacity newSize (cache w)) eqn:Hover.
    + unfold over_capacity in Hover. apply andb_true_iff in Hover as [_ H].
      apply bool_decide_eq_true in H. lia.
    + exists w, []. rewrite app_nil_r. split; [done|]. split; [done|].
      split; [done|]. by left.
  - destruct (over_capacity newSize (cache w)) eqn:Hover.
    2:{ exists w, []. rewrite app_nil_r. split; [done|]. split; [done|].
        split; [done|]. by left. }
    unfold list_Back. destruct (last (accessOrder (cache w))) as [victim|] eqn:Hlast.
    2:{ apply last_None in Hlast. unfold over_capacity in Hover.
        apply andb_true_iff in Hover as [_ H]. apply bool_decide_eq_true in H.
        rewrite Hlast in H. simpl in H. lia. }
    apply last_Some in Hlast as [l Hl].
    destruct (removeEntry_back victim l w Hwf Hl) as (entry & Hin & Hord & Hent & Hcur).
    destruct (removeEntry_fields victim w) as (Hmax & _ & _ & Hst).
    set (w1 := with_cache (with_stats incr_Evictions) (removeEntry victim w)).
    destruct (IH w1) as (w' & evicted & Hrun & Horder & Hcount & Hlast).
    { apply wf_stats, wf_removeEntry, Hwf. }
    { subst w1. simpl. rewrite Hord. rewrite Hl, length_app in Hlen.
      simpl in Hlen. lia. }
    exists w', (evicted ++ [victim]). split; [done|]. subst w1. simpl in *.
    split. { rewrite Hl, app_assoc. f_equal. by rewrite <- Hord. }
    split.
    { rewrite Hcount, Hst, length_app. simpl.
      replace (length evicted + 1)%nat with (S (length evicted)) by lia.
      by rewrite Nat.iter_succ_r. }
    right. destruct Hlast as [[-> ->]|(v & rest & e & -> & Hv & Hgt)].
    + exists victim, [], entry. split; [done|]. split; [done|]. simpl.
      rewrite Hent, (total_size_delete _ _ _ Hin).
      replace (total_size (entries (cache w)) - Size entry + Size entry)
        with (total_size (entries (cache w))) by lia.
      rewrite <- (wf_current _ Hwf).
      unfold over_capacity in Hover. apply andb_true_iff in Hover as [H _].
      by apply bool_decide_eq_true in H.
    + exists v, (rest ++ [victim]), e. split; [done|]. split.
      * rewrite Hent in Hv. by apply lookup_delete_Some in Hv as [_ Hv].
      * by rewrite <- Hmax.
Qed.

(** X8.  On a well-formed index whose bytes fit an int64 together with the
    new object, a [Put] that succeeds keeps the front of the recency list,
    evicts the rest, and counts one eviction for each key it evicts; and it
    evicts no more than needed: with the entry it evicted last the cache
    would be over its capacity. *)
Theorem X8_Put_evicts_no_more_than_needed
    (w w' : World) (key : string) (data : bytes) (io : PutIO) (filePath : string) :
  wf (cache w) →
  total_size (entries (cache w)) + Z.of_nat (length data) <= Int64.max_int →
  Put key data io w = Some (PutOk filePath, w') →
  ∃ kept evicted,
    list_Remove key (accessOrder (cache w)) = kept ++ evicted
    ∧ accessOrder (cache w') = key :: kept
    ∧ Evictions (stats (cache w'))
      = Nat.iter (length evicted) Int64.incr (Evictions (stats (cache w)))
    ∧ (evicted = [] ∨
       ∃ v rest e,
         evicted = v :: rest
         ∧ entries (cache w) !! v = Some e
         ∧ currentSize (cache w') + Size e > maxSizeBytes (cache w)).
Proof.
  intros Hwf Hfit HPut.
  destruct (Put_ok_unfold _ _ _ _ _ _ Hwf HPut)
    as (w2 & ev & n & Hspec & Hrun & Hk & Htmp & _ & Hc & _).
  pose proof (wf_Put_start key w Hwf) as Hwf0.
  destruct (evict_loop_victims (size (entries (cache (Put_written key data w))))
              (Z.of_nat (length data)) (Put_written key data w))
    as (w2' & evicted & Hrun' & Horder & Hcount & Hlast);
    [done|by rewrite size_entries_order|].
  rewrite Hrun in Hrun'. injection Hrun' as <-.
  exists (accessOrder (cache w2)), evicted. rewrite Hc. simpl in *.
  split. { rewrite <- Horder. symmetry. by apply Put_start_order. }
  split; [done|]. rewrite Put_start_stats in Hcount. split; [done|].
  destruct Hlast as [[-> _]|(v & rest & e & -> & Hv & Hgt)]; [by left|right].
  rewrite Put_start_entries in Hv. apply lookup_delete_Some in Hv as [_ Hv].
  exists v, rest, e. split; [done|]. split; [done|].
  destruct (Put_start_fields key w) as (Hmax & _). rewrite Hmax in Hgt.
  pose proof (ev_wf _ _ _ _ Hspec) as Hwf2.
  assert (Hpos : 0 <= total_size (entries (cache w2)))
    by apply total_size_nonneg, (wf_size _ Hwf2).
  assert (Hsz : 0 <= Size e) by apply (wf_size _ Hwf v e Hv).
  assert (Hle : total_size (entries (cache w2)) + Size e
                <= total_size (entries (cache w))).
  { assert (Hsub : <[v := e]> (entries (cache w2)) ⊆ entries (cache w)).
    { apply insert_subseteq_l; [done|].
      etrans; [apply (evicted_to_subseteq _ _ _ _ Hspec)|]. simpl.
      rewrite Put_start_entries. apply delete_subseteq. }
    assert (Hnone : entries (cache w2) !! v = None).
    { rewrite (ev_entries _ _ _ _ Hspec). rewrite decide_True; [done|].
      assert (Heq : ev = v :: rest).
      { pose proof (ev_order _ _ _ _ Hspec) as Ho. simpl in Ho, Horder.
        rewrite Horder in Ho. by apply app_inv_head in Ho. }
      rewrite Heq. by left. }
    pose proof (total_size_subseteq _ _ Hsub (wf_size _ Hwf)) as Hle.
    rewrite (total_size_insert _ _ e Hnone) in Hle. lia. }
  rewrite (wf_current _ Hwf2).
  unfold Int64.add in *.
  rewrite (wrap_fits (total_size (entries (cache w2)) + Size e)) in Hgt by lia.
  rewrite wrap_fits in Hgt by lia.
  rewrite (wrap_fits (total_size (entries (cache w2)))) by lia.
  rewrite wrap_fits by lia. lia.
Qed.

Lemma X8_Put_evicts_no_more_than_needed_witness :
  wf (cache sample_two)
  ∧ Put "b/k3" (zeros 3) (sample_io 3) sample_two
    = Some (PutOk "/c/files/b_k3", sample_three)
  ∧ ∃ kept evicted,
      list_Remove "b/k3" (accessOrder (cache sample_two)) = kept ++ evicted
      ∧ accessOrder (cache sample_three) = "b/k3"%string :: kept.
Proof.
  assert (HPut : Put "b/k3" (zeros 3) (sample_io 3) sample_two
                 = Some (PutOk "/c/files/b_k3", sample_three))
    by (vm_compute; reflexivity).
  assert (Hfit : total_size (entries (cache sample_two)) + Z.of_nat (length (zeros 3))
                 <= Int64.max_int) by (vm_compute; discriminate).
  split; [exact sample_two_wf|]. split; [exact HPut|].
  destruct (X8_Put_evicts_no_more_than_needed _ _ _ _ _ _
              sample_two_wf Hfit HPut) as (kept & evicted & H1 & H2 & _).
  exists kept, evicted. split; assumption.
Defined.

(** ** What a restart rebuilds *)

(** X9.  What a restart builds from a directory: the disk is untouched;
    every entry of the index is stored under its key and has its file, with
    the size of the file; the hit, miss and eviction counts are zero, the
    capacity is the one given and the totals of [stats] are those of the
    index; without metadata, or with metadata that cannot be read, the
    index is empty; and with metadata the current size is the sum, as an
    int64, of the sizes of the files of the persisted entries, one for each
    entry whose file exists. *)
Theorem X9_loaded_entries_have_their_files
    (dir : string) (maxBytes : Z) (ord : RangeOrder) (d : Disk) :
  let w := open_cache dir maxBytes ord d in
  disk w = d
  ∧ (∀ k e, entries (cache w) !! k = Some e →
       Key e = k ∧ os_Stat d (Filename e) = Some (Size e))
  ∧ Hits (stats (cache w)) = 0
  ∧ Misses (stats (cache w)) = 0
  ∧ Evictions (stats (cache w)) = 0
  ∧ MaxBytes (stats (cache w)) = maxBytes
  ∧ maxSizeBytes (cache w) = maxBytes
  ∧ TotalBytes (stats (cache w)) = currentSize (cache w)
  ∧ EntryCount (stats (cache w)) = Z.of_nat (size (entries (cache w)))
  ∧ (metadata d = MetaAbsent ∨ metadata d = MetaInvalid →
       entries (cache w) = ∅ ∧ currentSize (cache w) = 0
       ∧ accessOrder (cache w) = [])
  ∧ (∀ l, metadata d = MetaEntries l →
       currentSize (cache w) = Int64.wrap (sum_list (surviving_sizes d l))).
Proof.
  intros w. subst w.
  assert (Hcur : ∀ l, metadata d = MetaEntries l →
            currentSize (cache (open_cache dir maxBytes ord d))
            = Int64.wrap (sum_list (surviving_sizes d l))).
  { intros l. apply open_cache_current. }
  revert Hcur. unfold open_cache, loadFromDisk. simpl. intros Hcur.
  destruct (metadata d) as [| |l] eqn:Hmeta; simpl.
  - by split_and!.
  - by split_and!.
  - simpl in Hcur.
    destruct (foldl_load_fields d l (empty_cache dir maxBytes)) as (Hmax & _ & _ & Hst).
    rewrite Hst, Hmax. simpl.
    split; [done|]. split; [|split_and!; try done; by intros [?|?]].
    intros k e [H|(e0 & _ & Hk & Hs & ->)]%foldl_load_from.
    + simpl in H. by apply lookup_empty_Some in H.
    + done.
Qed.

Lemma X9_loaded_entries_have_their_files_witness :
  entries (cache (open_cache "/c" 10 (λ l, l) (mkDisk ∅ MetaInvalid))) = ∅.
Proof.
  destruct (X9_loaded_entries_have_their_files "/c" 10 (λ l, l) (mkDisk ∅ MetaInvalid))
    as (_ & _ & _ & _ & _ & _ & _ & _ & _ & H & _).
  apply H. by right.
Defined.

Lemma refreshed_same (e : Entry) : refreshed e (Size e) = e.
Proof. by destruct e. Qed.

(** X10.  Round trip of the metadata: on a well-formed index, when the
    strings of the entries are valid UTF-8 and every entry has its file
    with the size it records, a cache opened on what [saveMetadata] wrote
    has the same entries and the same current size, and its recency list
    has the same keys. *)
Theorem X10_saved_metadata_loads_back
    (w : World) (ord1 ord2 : RangeOrder) (dir : string) (maxBytes : Z) :
  wf (cache w) →
  range_ok ord1 → range_ok ord2 →
  (∀ k e, entries (cache w) !! k = Some e →
     valid_utf8 (Key e) ∧ valid_utf8 (Filename e)
     ∧ os_Stat (disk w) (Filename e) = Some (Size e)) →
  let w2 := open_cache dir maxBytes ord2 (disk (saveMetadata ord1 Written w)) in
  entries (cache w2) = entries (cache w)
  ∧ currentSize (cache w2) = currentSize (cache w)
  ∧ accessOrder (cache w2) ≡ₚ accessOrder (cache w).
Proof.
  intros Hwf Hord1 Hord2 Hall.
  assert (Hfiles : ∀ k e, entries (cache w) !! k = Some e →
            os_Stat (disk w) (Filename e) = Some (Size e)).
  { intros k e He. by apply (Hall k e He). }
  set (l := (ord1 (map_to_list (entries (cache w)))).*2).
  set (d := disk (saveMetadata ord1 Written w)). intros w2.
  assert (Hmeta : metadata d = MetaEntries l).
  { unfold d, l. simpl. f_equal. apply saved_entries_exact; [done|].
    intros k e He. apply json_entry_valid.
    destruct (Hall k e He) as (H1 & H2 & _). by split. }
  assert (Hstat : ∀ name, os_Stat d name = os_Stat (disk w) name) by done.
  assert (Hnd : NoDup (Key <$> l)) by by apply saved_entries_NoDup.
  assert (Hl : ∀ e, e ∈ l ↔ ∃ k, entries (cache w) !! k = Some e).
  { intros e. unfold l. rewrite list_elem_of_fmap.
    setoid_rewrite (Hord1 (map_to_list (entries (cache w)))). split.
    - intros [[k e'] [-> H%elem_of_map_to_list]]. by exists k.
    - intros [k H]. exists (k, e). split; [done|]. by apply elem_of_map_to_list. }
  assert (Hwf2 : wf (cache w2)).
  { apply wf_open_cache; [done|]. intros l' Hl'. rewrite Hmeta in Hl'.
    by injection Hl' as <-. }
  destruct (open_cache_cache dir maxBytes ord2 d) as (c & Hc & _ & _ & Hload).
  rewrite Hmeta in Hload. simpl in Hload. destruct Hload as (Hent & _).
  fold w2 in Hc. rewrite <- Hc in Hent.
  assert (Heq : entries (cache w2) = entries (cache w)).
  { apply map_eq. intros k. rewrite Hent.
    destruct (entries (cache w) !! k) as [e|] eqn:Hk.
    - assert (Hin : e ∈ l) by (apply Hl; eauto).
      pose proof (foldl_load_found d l (empty_cache dir maxBytes) e (Size e) Hnd Hin)
        as Hfound.
      rewrite Hstat, (Hfiles k e Hk), refreshed_same in Hfound.
      rewrite (wf_key _ Hwf k e Hk) in Hfound. by apply Hfound.
    - apply eq_None_not_Some.
      intros [e' [H|(e0 & H0 & Hk0 & _)]%foldl_load_from].
      + simpl in H. by apply lookup_empty_Some in H.
      + apply Hl in H0 as [k0 H0]. rewrite (wf_key _ Hwf k0 e0 H0) in Hk0.
        congruence. }
  split; [done|]. split.
  - by rewrite (wf_current _ Hwf2), (wf_current _ Hwf), Heq.
  - apply NoDup_Permutation; [apply (wf_nodup _ Hwf2)|apply (wf_nodup _ Hwf)|].
    intros k. by rewrite (wf_order _ Hwf2), (wf_order _ Hwf), Heq.
Qed.

Lemma sample_ops_range_ok (ops : list (string * Time)) :
  ∀ op, op ∈ (λ p, sample_op p.1 p.2) <$> ops → range_ok (range_order op.2).
Proof. intros op [[k t] [-> _]]%list_elem_of_fmap l. done. Qed.

Lemma X10_saved_metadata_loads_back_witness :
  wf (cache sample_three)
  ∧ range_ok (λ l, l) ∧ range_ok reverse
  ∧ (∀ k e, entries (cache sample_three) !! k = Some e →
       valid_utf8 (Key e) ∧ valid_utf8 (Filename e)
       ∧ os_Stat (disk sample_three) (Filename e) = Some (Size e))
  ∧ entries (cache (open_cache "/c" 7 reverse
                      (disk (saveMetadata (λ l, l) Written sample_three))))
    = entries (cache sample_three).
Proof.
  assert (Hwf : wf (cache sample_three)) by exact sample_three_wf.
  assert (Hid : range_ok (λ l, l)) by (by intros l).
  assert (Hrev : range_ok reverse) by (intros l; apply reverse_Permutation).
  assert (Hfiles : ∀ k e, entries (cache sample_three) !! k = Some e →
            valid_utf8 (Key e) ∧ valid_utf8 (Filename e)
            ∧ os_Stat (disk sample_three) (Filename e) = Some (Size e)).
  { apply (bool_decide_unpack
             (map_Forall (λ _ e, valid_utf8 (Key e) ∧ valid_utf8 (Filename e)
                                 ∧ os_Stat (disk sample_three) (Filename e)
                                   = Some (Size e))
                         (entries (cache sample_three)))).
    vm_compute. exact I. }
  split; [exact Hwf|]. split; [exact Hid|]. split; [exact Hrev|].
  split; [exact Hfiles|].
  apply (X10_saved_metadata_loads_back sample_three (λ l, l) reverse "/c" 7
           Hwf Hid Hrev Hfiles).
Defined.

(** ** More on the downloader *)

Lemma fetch_inv_snoc_query log r b a :
  fetch_inv log → fetch_inv (log ++ [GetBucketLocation r b a]).
Proof.
  intros Hinv l1 r' b' o f l2 Heq.
  destruct l2 as [|c l2 _] using rev_ind.
  - apply app_inj_tail in Heq as [_ Heq]. discriminate.
  - rewrite app_comm_cons, app_assoc in Heq.
    apply app_inj_tail in Heq as [Heq _]. by apply (Hinv _ _ _ _ _ _ Heq).
Qed.

Lemma fetch_inv_snoc_fetch log r b o f location :
  fetch_inv log →
  GetBucketLocation "us-east-1" b (Some location) ∈ log →
  r = region_of location →
  fetch_inv (log ++ [GetObject r b o f]).
Proof.
  intros Hinv Hin Hr l1 r' b' o' f' l2 Heq.
  destruct l2 as [|c l2 _] using rev_ind.
  - apply app_inj_tail in Heq as [<- [= <- <- <- <-]]. by exists location.
  - rewrite app_comm_cons, app_assoc in Heq.
    apply app_inj_tail in Heq as [Heq _]. by apply (Hinv _ _ _ _ _ _ Heq).
Qed.

Lemma getClientForBucket_from_log be bucket s :
  regions_from_log s → fetch_inv (calls s) →
  let '(client, s') := getClientForBucket be bucket s in
  regions_from_log s' ∧ fetch_inv (calls s')
  ∧ (∀ region, client = Some region →
       bucketRegions (downloader s') !! bucket = Some region).
Proof.
  intros Hreg Hfetch. unfold getClientForBucket.
  destruct (bucketRegions (downloader s) !! bucket) as [region|] eqn:Hb.
  { split; [done|]. split; [done|]. by intros ? [= <-]. }
  destruct (locate be (calls s) bucket) as [location|].
  - split; [|split].
    + intros b r. simpl. destruct (decide (bucket = b)) as [<-|Hne].
      * rewrite lookup_insert_eq. intros [= <-]. exists location.
        split; [|done]. rewrite elem_of_app, list_elem_of_singleton. by right.
      * rewrite lookup_insert_ne by done. intros (loc & Hin & ->)%Hreg.
        exists loc. split; [|done]. rewrite elem_of_app. by left.
    + simpl. by apply fetch_inv_snoc_query.
    + intros region [= <-]. simpl. apply lookup_insert_eq.
  - split; [|split; [|done]].
    + intros b r. simpl. intros (loc & Hin & ->)%Hreg.
      exists loc. split; [|done]. rewrite elem_of_app. by left.
    + simpl. by apply fetch_inv_snoc_query.
Qed.

Lemma Download_from_log be key s :
  regions_from_log s → fetch_inv (calls s) →
  regions_from_log (Download be key s).2 ∧ fetch_inv (calls (Download be key s).2).
Proof.
  intros Hreg Hfetch. unfold Download.
  destruct (parseS3Key key) as [[bucket objectKey]|]; [|done].
  pose proof (getClientForBucket_from_log be bucket s Hreg Hfetch) as Hc.
  destruct (getClientForBucket be bucket s) as [[region|] s1];
    [|by destruct Hc as (? & ? & _)].
  destruct Hc as (Hreg1 & Hfetch1 & Hclient).
  destruct (Hreg1 bucket region (Hclient region eq_refl)) as (loc & Hin & Hr).
  assert (H : regions_from_log
                (mkS3 (downloader s1)
                   (calls s1 ++ [GetObject region bucket objectKey
                      (bool_decide (is_Some (fetch be (calls s1) region bucket objectKey)))]))
              ∧ fetch_inv
                  (calls s1 ++ [GetObject region bucket objectKey
                      (bool_decide (is_Some (fetch be (calls s1) region bucket objectKey)))])).
  { split.
    - intros b r. simpl. intros (loc' & Hin' & ->)%Hreg1.
      exists loc'. split; [|done]. rewrite elem_of_app. by left.
    - by apply (fetch_inv_snoc_fetch _ _ _ _ _ loc). }
  by destruct (fetch be (calls s1) region bucket objectKey).
Qed.

Lemma Download_queries be key s :
  queries_inv (calls s) → queries_inv (calls (Download be key s).2).
Proof.
  intros Hinv. unfold Download.
  destruct (parseS3Key key) as [[bucket objectKey]|]; [|done].
  assert (Hc : queries_inv (calls (getClientForBucket be bucket s).2)).
  { unfold getClientForBucket.
    destruct (bucketRegions (downloader s) !! bucket); [done|].
    destruct (locate be (calls s) bucket); simpl; intros r b a;
      rewrite elem_of_app, list_elem_of_singleton;
      (intros [Hin|[= -> _ _]]; [by apply (Hinv r b a)|done]). }
  destruct (getClientForBucket be bucket s) as [[region|] s1]; [|done].
  simpl in Hc.
  assert (H : queries_inv
                (calls s1 ++ [GetObject region bucket objectKey
                   (bool_decide (is_Some (fetch be (calls s1) region bucket objectKey)))])).
  { intros r b a. rewrite elem_of_app, list_elem_of_singleton.
    intros [Hin|[=]]. by apply (Hc r b a). }
  by destruct (fetch be (calls s1) region bucket objectKey).
Qed.

(** X11.  In any run of [Download]s from a new downloader, whatever region
    it was configured with, every location query is sent to us-east-1 and
    every object is fetched in the region that an earlier location query
    of the run was answered with for its bucket, us-east-1 when the answer
    was empty. *)
Theorem X11_objects_are_fetched_in_the_answered_region
    (be : Backend) (region0 : string) (keys : list string) :
  let s := download_all be keys (mkS3 (NewS3Downloader region0) []) in
  (∀ r b a, GetBucketLocation r b a ∈ calls s → r = "us-east-1"%string)
  ∧ (∀ l1 r b o f l2,
       calls s = l1 ++ GetObject r b o f :: l2 →
       ∃ location,
         GetBucketLocation "us-east-1" b (Some location) ∈ l1
         ∧ r = (if String.eqb location "" then "us-east-1"%string else location)).
Proof.
  intros s.
  assert (H : regions_from_log s ∧ fetch_inv (calls s) ∧ queries_inv (calls s)).
  { subst s.
    assert (Hgen : ∀ s0, regions_from_log s0 → fetch_inv (calls s0) →
              queries_inv (calls s0) →
              regions_from_log (download_all be keys s0)
              ∧ fetch_inv (calls (download_all be keys s0))
              ∧ queries_inv (calls (download_all be keys s0))).
    { induction keys as [|key keys IH]; intros s0 H1 H2 H3; [done|]. simpl.
      destruct (Download_from_log be key s0 H1 H2) as [H1' H2'].
      apply IH; [done..|]. by apply Download_queries. }
    apply Hgen.
    - intros b r. simpl. by rewrite lookup_empty.
    - intros l1 r b o f l2 Heq. simpl in Heq. by destruct l1.
    - intros r b a Hin. simpl in Hin. by apply elem_of_nil in Hin. }
  destruct H as (_ & H1 & H2). split; [exact H2|exact H1].
Qed.

Lemma X11_objects_are_fetched_in_the_answered_region_witness :
  calls (download_all sample_backend ["b/x"; "b/y"]
           (mkS3 (NewS3Downloader "ap-south-1") []))
  = [GetBucketLocation "us-east-1" "b" (Some "eu-west-1"%string)]
    ++ GetObject "eu-west-1" "b" "x" true :: [GetObject "eu-west-1" "b" "y" true]
  ∧ ∃ location,
      GetBucketLocation "us-east-1" "b" (Some location)
        ∈ [GetBucketLocation "us-east-1" "b" (Some "eu-west-1"%string)]
      ∧ "eu-west-1"%string
        = (if String.eqb location "" then "us-east-1"%string else location).
Proof.
  split; [reflexivity|].
  apply (proj2 (X11_objects_are_fetched_in_the_answered_region
                  sample_backend "ap-south-1" ["b/x"; "b/y"])
           [GetBucketLocation "us-east-1" "b" (Some "eu-west-1"%string)]
           "eu-west-1"%string "b"%string "x"%string true
           [GetObject "eu-west-1" "b" "y" true]).
  reflexivity.
Defined.

Lemma getClientForBucket_extends be bucket s :
  let '(client, s') := getClientForBucket be bucket s in
  (∃ new, calls s' = calls s ++ new ∧ (length new ≤ 1)%nat
          ∧ ∀ region b o f, GetObject region b o f ∉ new)
  ∧ (∀ b region, bucketRegions (downloader s) !! b = Some region →
       bucketRegions (downloader s') !! b = Some region)
  ∧ (∀ region, client = Some region →
       bucketRegions (downloader s') !! bucket = Some region).
Proof.
  unfold getClientForBucket.
  destruct (bucketRegions (downloader s) !! bucket) as [region|] eqn:Hb.
  { split; [|split; [done|by intros ? [= <-]]].
    exists []. rewrite app_nil_r. split; [done|]. split; [simpl; lia|].
    intros ????. apply not_elem_of_nil. }
  destruct (locate be (calls s) bucket) as [location|]; simpl.
  - split; [|split].
    + eexists. split; [done|]. split; [simpl; lia|].
      intros ????. rewrite list_elem_of_singleton. done.
    + intros b region Hr. destruct (decide (bucket = b)) as [<-|Hne]; [congruence|].
      by rewrite lookup_insert_ne.
    + intros region [= <-]. apply lookup_insert_eq.
  - split; [|split; [done|done]].
    eexists. split; [done|]. split; [simpl; lia|].
    intros ????. rewrite list_elem_of_singleton. done.
Qed.

(** X12.  One [Download] adds at most two calls to the log and leaves the
    calls made before, and never changes the region stored for a bucket.
    An object it fetches is the one of its key, split at the first
    separator, fetched in the region then stored for the bucket, and found
    exactly when [Download] returns it.  When [Download] returns an
    object, the fetch is its last call and the body and size are those
    that the service gave, the size being 0 when the service gave none. *)
Theorem X12_Download_extends_the_log
    (be : Backend) (key : string) (s : S3State) (r : DownloadResult) (s' : S3State) :
  Download be key s = (r, s') →
  (∃ new,
     calls s' = calls s ++ new ∧ (length new ≤ 2)%nat
     ∧ ∀ region b o f, GetObject region b o f ∈ new →
         key = b +:+ String "/" o ∧ ¬ has_slash b
         ∧ bucketRegions (downloader s') !! b = Some region
         ∧ (f = true ↔ ∃ body size, r = Downloaded body size))
  ∧ (∀ b region, bucketRegions (downloader s) !! b = Some region →
       bucketRegions (downloader s') !! b = Some region)
  ∧ (∀ body size, r = Downloaded body size →
       ∃ region b o obj log,
         calls s' = log ++ [GetObject region b o true]
         ∧ fetch be log region b o = Some obj
         ∧ body = Body obj
         ∧ size = default 0 (ContentLength obj)).
Proof.
  unfold Download. pose proof (parseS3Key_spec key) as Hkey.
  destruct (parseS3Key key) as [[bucket objectKey]|].
  2:{ intros [= <- <-]. split; [|split; [done|done]].
      exists []. rewrite app_nil_r. split; [done|]. split; [simpl; lia|].
      intros ???? Hin. by apply elem_of_nil in Hin. }
  destruct Hkey as [Hkey Hbucket].
  pose proof (getClientForBucket_extends be bucket s) as Hc.
  destruct (getClientForBucket be bucket s) as [[region|] s1].
  2:{ intros [= <- <-]. destruct Hc as ((new & Hnew & Hlen & Hno) & Hmono & _).
      split; [|split; [done|done]].
      exists new. split; [done|]. split; [lia|].
      intros ???? Hin. by apply Hno in Hin. }
  destruct Hc as ((new & Hnew & Hlen & Hno) & Hmono & Hclient).
  specialize (Hclient region eq_refl).
  destruct (fetch be (calls s1) region bucket objectKey) as [obj|] eqn:Hfetch;
    intros [= <- <-]; simpl.
  - split; [|split; [done|]].
    + exists (new ++ [GetObject region bucket objectKey true]).
      rewrite app_assoc, <- Hnew. split; [done|].
      split; [rewrite length_app; simpl; lia|].
      intros region' b o f. rewrite elem_of_app, list_elem_of_singleton.
      intros [Hin|[= -> -> -> ->]]; [by apply Hno in Hin|].
      split_and!; [done..|]. split; [eauto|done].
    + intros body size [= <- <-]. exists region, bucket, objectKey, obj, (calls s1).
      split_and!; [done..|].
      by destruct (ContentLength obj).
  - split; [|split; [done|done]].
    exists (new ++ [GetObject region bucket objectKey false]).
    rewrite app_assoc, <- Hnew.
    split; [done|].
    split; [rewrite length_app; simpl; lia|].
    intros region' b o f. rewrite elem_of_app, list_elem_of_singleton.
    intros [Hin|[= -> -> -> ->]]; [by apply Hno in Hin|].
    split_and!; [done..|]. split; [done|]. by intros (? & ? & ?).
Qed.

Lemma X12_Download_extends_the_log_witness :
  Download sample_backend "b/x" sample_s3
  = (Downloaded (zeros 4) 4,
     mkS3 (mkDownloader "us-east-1" {["b"%string := "eu-west-1"%string]})
          [GetBucketLocation "us-east-1" "b" (Some "eu-west-1"%string);
           GetObject "eu-west-1" "b" "x" true])
  ∧ ∃ new,
      [GetBucketLocation "us-east-1" "b" (Some "eu-west-1"%string);
       GetObject "eu-west-1" "b" "x" true] = calls sample_s3 ++ new
      ∧ (length new ≤ 2)%nat.
Proof.
  assert (H : Download sample_backend "b/x" sample_s3
              = (Downloaded (zeros 4) 4,
                 mkS3 (mkDownloader "us-east-1" {["b"%string := "eu-west-1"%string]})
                   [GetBucketLocation "us-east-1" "b" (Some "eu-west-1"%string);
                    GetObject "eu-west-1" "b" "x" true])) by reflexivity.
  split; [exact H|].
  destruct (X12_Download_extends_the_log _ _ _ _ _ H) as ((new & Hnew & Hlen & _) & _).
  exists new. by split.
Defined.

(** ** The handler *)

Lemma Get_found_held key now w filePath w' :
  wf (cache w) →
  Get key now w = ((filePath, true), w') →
  held_at key filePath w'.
Proof.
  intros Hwf. unfold Get.
  destruct (entries (cache w) !! key) as [entry|] eqn:Hin; [|done].
  destruct (os_Stat (disk w) (Filename entry)) as [sz|] eqn:Hstat; [|done].
  intros [= <- <-].
  assert (Hk : key ∈ accessMap (cache w)) by (by apply (wf_amap _ Hwf)).
  assert (Ho : key ∈ accessOrder (cache w)) by (by apply (wf_order _ Hwf)).
  exists (mkEntry (Key entry) (Filename entry) (Size entry) now (CreateTime entry)).
  unfold with_cache, move_to_front. simpl. rewrite decide_True by done. simpl.
  split_and!.
  - by rewrite lookup_alter_eq, Hin.
  - done.
  - unfold os_Stat in Hstat. by destruct (files (disk w) !! Filename entry).
  - unfold list_MoveToFront. by rewrite decide_True.
Qed.

Lemma Put_ok_held key data io w filePath w' :
  wf (cache w) →
  Put key data io w = Some (PutOk filePath, w') →
  held_at key filePath w'.
Proof.
  intros Hwf HPut.
  destruct (Put_ok_unfold _ _ _ _ _ _ Hwf HPut)
    as (w2 & ev & n & Hspec & Hrun & Hk & Htmp & -> & Hc & Hf).
  exists (Put_entry key data io). rewrite Hc, Hf. simpl. split_and!.
  - apply lookup_insert_eq.
  - rewrite (ev_filesDir _ _ _ _ Hspec). simpl.
    by destruct (Put_start_fields key w) as (_ & -> & _).
  - rewrite lookup_insert_eq. by eexists.
  - done.
Qed.

Lemma HandleFile_hit be path io srv filePath :
  reserved (TrimPrefix_slash path) = false →
  held_at (TrimPrefix_slash path) filePath (world srv) →
  ∃ srv', HandleFile be "GET" path io srv = Some (ServeFile filePath, srv')
          ∧ s3 srv' = s3 srv ∧ disk (world srv') = disk (world srv).
Proof.
  intros Hres (e & Hin & -> & [content Hfile] & _). unfold HandleFile.
  unfold reserved in Hres. rewrite Hres. simpl.
  rewrite (Get_hit _ _ _ e (Z.of_nat (length content)) Hin)
    by (unfold os_Stat; by rewrite Hfile).
  by eexists.
Qed.

(** X13.  When [HandleFile] serves a file from a well-formed index, the
    method was GET, the key of the path is in the index and is the most
    recently used one, the path served is that of its entry and the file
    exists; and the next GET of the same path is served the same file from
    the cache, whatever the storage service and the environment do: the
    state of the downloader and the disk stay as they are. *)
Theorem X13_served_file_is_held_and_hit_next
    (be : Backend) (method path : string) (io : RequestIO) (srv srv' : Server)
    (filePath : string) :
  wf (cache (world srv)) →
  HandleFile be method path io srv = Some (ServeFile filePath, srv') →
  method = "GET"%string
  ∧ (∃ e, entries (cache (world srv')) !! TrimPrefix_slash path = Some e
          ∧ filePath = filepath_Join (filesDir (cache (world srv'))) (Filename e)
          ∧ is_Some (files (disk (world srv')) !! Filename e)
          ∧ head (accessOrder (cache (world srv'))) = Some (TrimPrefix_slash path))
  ∧ (∀ be' io',
       ∃ srv'', HandleFile be' "GET" path io' srv' = Some (ServeFile filePath, srv'')
                ∧ s3 srv'' = s3 srv'
                ∧ disk (world srv'') = disk (world srv')).
Proof.
  intros Hwf Hserve.
  assert (H : method = "GET"%string
              ∧ reserved (TrimPrefix_slash path) = false
              ∧ held_at (TrimPrefix_slash path) filePath (world srv')).
  { unfold HandleFile in Hserve.
    destruct (String.eqb method "GET") eqn:Hm; simpl in Hserve; [|done].
    apply String.eqb_eq in Hm. split; [done|].
    fold (reserved (TrimPrefix_slash path)) in Hserve.
    destruct (reserved (TrimPrefix_slash path)); [done|]. split; [done|].
    pose proof (Get_wf (TrimPrefix_slash path) (now_get io) (world srv) Hwf) as Hwf1.
    destruct (Get (TrimPrefix_slash path) (now_get io) (world srv))
      as [[p found] w1] eqn:HGet.
    destruct found.
    - injection Hserve as <- <-. simpl. by apply (Get_found_held _ _ _ _ _ Hwf HGet).
    - destruct (Download be (TrimPrefix_slash path) (s3 srv)) as [[body size|err] s1];
        [|done].
      destruct (Put (TrimPrefix_slash path) body (put_io io) w1)
        as [[[p2|err] w2]|] eqn:HPut; [|done..].
      injection Hserve as <- <-. simpl. by apply (Put_ok_held _ _ _ _ _ _ Hwf1 HPut). }
  destruct H as (Hm & Hres & Hheld). split; [done|]. split; [exact Hheld|].
  intros be' io'. by apply HandleFile_hit.
Qed.

Lemma X13_served_file_is_held_and_hit_next_witness :
  wf (cache (world sample_server))
  ∧ HandleFile sample_backend "GET" "/b/x" sample_request_io sample_server
    = Some (ServeFile "/c/files/b_x", sample_served)
  ∧ ∃ srv'',
      HandleFile sample_backend_down "GET" "/b/x" sample_request_io sample_served
      = Some (ServeFile "/c/files/b_x", srv'')
      ∧ s3 srv'' = s3 sample_served.
Proof.
  assert (Hreach : wf (cache (world sample_server))) by apply wf_empty_cache.
  assert (Hserve : HandleFile sample_backend "GET" "/b/x" sample_request_io sample_server
                   = Some (ServeFile "/c/files/b_x", sample_served))
    by (vm_compute; reflexivity).
  split; [exact Hreach|]. split; [exact Hserve|].
  destruct (X13_served_file_is_held_and_hit_next _ _ _ _ _ _ _ Hreach Hserve)
    as (_ & _ & Hnext).
  destruct (Hnext sample_backend_down sample_request_io) as (srv'' & H1 & H2 & _).
  exists srv''. split; assumption.
Defined.




(** ** File names in reachable states *)

Lemma reachable_named (w : World) : reachable w → named_ok w.
Proof.
  induction 1 as [dir maxBytes ord fs|w w' Hreach [Hent Hmeta] Hstep].
  - split; [|by rewrite open_cache_disk].
    destruct (open_cache_cache dir maxBytes ord (mkDisk fs MetaAbsent))
      as (c & -> & _ & _ & ->).
    intros k e He. simpl in He. by apply lookup_empty_Some in He.
  - destruct (reachable_inv _ Hreach) as (Hwf & _ & Hutf).
    destruct Hstep
      as [key now w|key data io w r w' Hkey Hord HPut|fs w|maxBytes ord w Hord].
    + split.
      * intros k e' (e & He & -> & -> & _)%Get_entries_from. by apply (Hent k).
      * rewrite Get_metadata. exact Hmeta.
    + assert (Hent' : ∀ k e, entries (cache w') !! k = Some e →
                        Filename e = sanitizeFilename (Key e)).
      { intros k e He.
        destruct (Put_entries_from _ _ _ _ _ _ _ _ HPut He) as [[_ ->]|He'];
          [done|by apply (Hent k)]. }
      split; [exact Hent'|].
      destruct (Put_utf8_ok _ _ _ _ _ _ Hkey Hord Hutf HPut) as [Hvalid _].
      destruct r as [filePath|err].
      * destruct (Put_ok_parts _ _ _ _ _ _ HPut)
          as (w2 & n & _ & _ & _ & _ & _ & _ & Hm).
        rewrite Hm. destruct (meta_write io); [|exact Hmeta|done].
        intros l e [= <-]. rewrite (saved_entries_exact _ _ Hord Hvalid).
        intros [k Hk]%saved_entries_elem; [|done]. by apply (Hent' k).
      * destruct (Put_err_removes _ _ _ _ _ _ HPut) as (_ & -> & _). exact Hmeta.
    + done.
    + unfold named_ok. rewrite open_cache_disk. split; [|exact Hmeta].
      destruct (open_cache_cache (cacheDir (cache w)) maxBytes ord (disk w))
        as (c & -> & _ & _ & Hc).
      destruct (metadata (disk w)) as [| |l] eqn:Hl.
      * rewrite Hc. intros k e He. simpl in He. by apply lookup_empty_Some in He.
      * rewrite Hc. intros k e He. simpl in He. by apply lookup_empty_Some in He.
      * destruct Hc as (-> & _). intros k e'.
        intros [He|(e & He & _ & _ & ->)]%foldl_load_from.
        -- simpl in He. by apply lookup_empty_Some in He.
        -- simpl. by apply (Hmeta l).
Qed.

(** X15.  In every reachable state an entry of the index has the file name
    that [sanitizeFilename] gives its key, a name without separator, and
    the entries of metadata.json have the file names of their keys too. *)
Theorem X15_entries_are_named_after_their_keys (w : World) (k : string) (e : Entry) :
  reachable w →
  entries (cache w) !! k = Some e →
  Filename e = sanitizeFilename k
  ∧ ¬ has_slash (Filename e)
  ∧ (∀ l e', metadata (disk w) = MetaEntries l → e' ∈ l →
       Filename e' = sanitizeFilename (Key e')).
Proof.
  intros Hreach He. destruct (reachable_wf _ Hreach) as [Hwf _].
  destruct (reachable_named _ Hreach) as [Hent Hmeta].
  assert (Hname : Filename e = sanitizeFilename k).
  { rewrite (Hent k e He). by rewrite (wf_key _ Hwf k e He). }
  split; [exact Hname|]. split; [|exact Hmeta].
  rewrite Hname. unfold sanitizeFilename. rewrite has_slash_append. intros [H|H].
  - revert H. apply all_safe_no_slash. by apply sanitize_loop_safe.
  - by destruct (Ext_spec k) as (_ & _ & Hno & _).
Qed.

Lemma X15_entries_are_named_after_their_keys_witness :
  reachable sample_held
  ∧ (∃ e, entries (cache sample_held) !! "b/x" = Some e
          ∧ Filename e = sanitizeFilename "b/x"
          ∧ ¬ has_slash (Filename e)).
Proof.
  split; [exact sample_held_reachable|].
  exists (Put_entry "b/x" (zeros 6) (sample_io 1)).
  assert (H : entries (cache sample_held) !! "b/x"
              = Some (Put_entry "b/x" (zeros 6) (sample_io 1)))
    by (vm_compute; reflexivity).
  split; [exact H|].
  destruct (X15_entries_are_named_after_their_keys _ _ _ sample_held_reachable H)
    as (H1 & H2 & _).
  by split.
Defined.

(** X16.  Two keys with one file name share the file: when a [Put] of a key
    succeeds in a reachable state and another key with the same file name
    is still in the index, the entry of the other key is as it was, both
    entries name the one file, the file holds the new data, and a [Get] of
    the other key is a hit on the path that [Put] returned. *)
Theorem X16_keys_with_one_file_name_share_the_file
    (w w' : World) (k1 k2 : string) (data : bytes) (io : PutIO)
    (filePath : string) (e : Entry) (now : Time) :
  reachable w →
  k1 ≠ k2 →
  sanitizeFilename k1 = sanitizeFilename k2 →
  Put k2 data io w = Some (PutOk filePath, w') →
  entries (cache w') !! k1 = Some e →
  entries (cache w) !! k1 = Some e
  ∧ entries (cache w') !! k2 = Some (Put_entry k2 data io)
  ∧ Filename e = Filename (Put_entry k2 data io)
  ∧ files (disk w') !! Filename e = Some data
  ∧ (Get k1 now w').1 = (filePath, true).
Proof.
  intros Hreach Hne Hsame HPut He. destruct (reachable_wf _ Hreach) as [Hwf _].
  destruct (reachable_named _ Hreach) as [Hent _].
  destruct (Put_entries_from _ _ _ _ _ _ _ _ HPut He) as [[-> _]|He0]; [done|].
  assert (Hname : Filename e = sanitizeFilename k2).
  { rewrite (Hent k1 e He0), (wf_key _ Hwf k1 e He0). exact Hsame. }
  destruct (Put_ok_unfold _ _ _ _ _ _ Hwf HPut)
    as (w2 & ev & n & Hspec & Hrun & Hk & Htmp & -> & Hc & Hf).
  assert (Hfile : files (disk w') !! Filename e = Some data).
  { rewrite Hf, Hname. apply lookup_insert_eq. }
  split; [exact He0|]. split; [rewrite Hc; simpl; apply lookup_insert_eq|].
  split; [exact Hname|]. split; [exact Hfile|].
  rewrite (Get_hit _ _ _ e (Z.of_nat (length data)) He)
    by (unfold os_Stat; by rewrite Hfile).
  simpl. rewrite Hc, Hname. simpl. rewrite (ev_filesDir _ _ _ _ Hspec). simpl.
  by destruct (Put_start_fields k2 w) as (_ & -> & _).
Qed.

Lemma X16_keys_with_one_file_name_share_the_file_witness :
  reachable sample_held
  ∧ Put "b_x" (zeros 3) (sample_io 2) sample_held
    = Some (PutOk "/c/files/b_x", sample_shared)
  ∧ entries (cache sample_shared) !! "b/x"
    = Some (Put_entry "b/x" (zeros 6) (sample_io 1))
  ∧ files (disk sample_shared) !! "b_x" = Some (zeros 3)
  ∧ (Get "b/x" 3 sample_shared).1 = ("/c/files/b_x", true).
Proof.
  assert (HPut : Put "b_x" (zeros 3) (sample_io 2) sample_held
                 = Some (PutOk "/c/files/b_x", sample_shared))
    by (vm_compute; reflexivity).
  assert (He : entries (cache sample_shared) !! "b/x"
               = Some (Put_entry "b/x" (zeros 6) (sample_io 1)))
    by (vm_compute; reflexivity).
  assert (Hne : "b/x"%string ≠ "b_x"%string) by discriminate.
  assert (Hsame : sanitizeFilename "b/x" = sanitizeFilename "b_x") by reflexivity.
  split; [exact sample_held_reachable|]. split; [exact HPut|]. split; [exact He|].
  destruct (X16_keys_with_one_file_name_share_the_file
              _ _ _ _ _ _ _ _ 3 sample_held_reachable Hne Hsame HPut He)
    as (_ & _ & _ & Hfile & Hget).
  split; [exact Hfile|exact Hget].
Defined.

(** ** The statistics *)

Lemma stats_ok_removeEntry key w :
  stats_ok (cache w) → stats_ok (cache (removeEntry key w)).
Proof.
  unfold stats_ok.
  by destruct (removeEntry_fields key w) as (-> & _ & -> & ->).
Qed.

Lemma stats_ok_evict_loop fuel newSize w w' :
  evict_loop fuel newSize w = Some w' → stats_ok (cache w) → stats_ok (cache w').
Proof.
  revert w. induction fuel as [|fuel IH]; intros w; simpl.
  - destruct (over_capacity newSize (cache w)); [done|]. by intros [= <-].
  - destruct (over_capacity newSize (cache w)); [|by intros [= <-]].
    destruct (list_Back (accessOrder (cache w))) as [victim|]; [|by intros [= <-]].
    intros Hrun Hok. apply (IH _ Hrun).
    apply (stats_ok_removeEntry victim) in Hok. exact Hok.
Qed.

Lemma stats_ok_Put key data io w r w' :
  Put key data io w = Some (r, w') → stats_ok (cache w) → stats_ok (cache w').
Proof.
  intros HPut Hok.
  assert (Hok0 : stats_ok (cache (Put_start key w))).
  { unfold stats_ok. by destruct (Put_start_fields key w) as (-> & _ & -> & ->). }
  revert HPut. rewrite Put_eq. cbv zeta.
  destruct (create_ok io); simpl; [|by intros [= _ <-]].
  destruct (copy_ok io); simpl; [|by intros [= _ <-]].
  destruct (evictIfNeeded _ _) as [[err w2]|] eqn:Hev; [|done].
  pose proof (evictIfNeeded_nil _ _ _ _ Hev) as ->.
  apply evictIfNeeded_loop in Hev.
  apply stats_ok_evict_loop in Hev; [|exact Hok0].
  destruct (rename_tmp _ _ _ _); intros [= _ <-]; [|exact Hev].
  rewrite saveMetadata_cache. exact Hev.
Qed.

Lemma stats_ok_Get key now w :
  stats_ok (cache w) → stats_ok (cache (Get key now w).2).
Proof.
  intros Hok. unfold Get. destruct (entries (cache w) !! key) as [entry|]; [|done].
  destruct (os_Stat (disk w) (Filename entry)); simpl.
  - unfold move_to_front. by case_decide.
  - by apply (stats_ok_removeEntry key) in Hok.
Qed.

Lemma stats_ok_open_cache dir maxBytes ord d :
  stats_ok (cache (open_cache dir maxBytes ord d)).
Proof.
  unfold open_cache, loadFromDisk, stats_ok. simpl.
  destruct (metadata d) as [| |l]; simpl; [done..|].
  by destruct (foldl_load_fields d l (empty_cache dir maxBytes)) as (-> & _ & -> & ->).
Qed.

Lemma reachable_stats_ok w : reachable w → stats_ok (cache w).
Proof.
  induction 1 as [dir maxBytes ord fs|w w' Hreach IH Hstep].
  - apply stats_ok_open_cache.
  - destruct Hstep
      as [key now w|key data io w r w' Hkey Hord HPut|fs w|maxBytes ord w Hord].
    + by apply stats_ok_Get.
    + by apply (stats_ok_Put _ _ _ _ _ _ HPut).
    + done.
    + apply stats_ok_open_cache.
Qed.

(** X17.  In every reachable state [GetStats] reports the capacity and the
    directory of the cache, and as entry count the length of the recency
    list, which is the number of keys of the index; the hit, miss and
    eviction counts are those of [stats]. *)
Theorem X17_GetStats_reports_the_index (w : World) :
  reachable w →
  MaxBytes (GetStats w) = maxSizeBytes (cache w)
  ∧ CacheDir (GetStats w) = cacheDir (cache w)
  ∧ EntryCount (GetStats w) = Z.of_nat (length (accessOrder (cache w)))
  ∧ EntryCount (GetStats w) = Z.of_nat (size (dom (entries (cache w))))
  ∧ Hits (GetStats w) = Hits (stats (cache w))
  ∧ Misses (GetStats w) = Misses (stats (cache w))
  ∧ Evictions (GetStats w) = Evictions (stats (cache w)).
Proof.
  intros Hreach. destruct (reachable_wf _ Hreach) as [Hwf _].
  destruct (reachable_stats_ok _ Hreach) as [Hmax Hdir].
  unfold GetStats, len_entries. simpl.
  rewrite size_dom, <- (size_entries_order _ Hwf). by rewrite Hmax, Hdir.
Qed.

Lemma X17_GetStats_reports_the_index_witness :
  reachable sample_held
  ∧ MaxBytes (GetStats sample_held) = 10
  ∧ EntryCount (GetStats sample_held) = 1.
Proof.
  split; [exact sample_held_reachable|].
  destruct (X17_GetStats_reports_the_index sample_held sample_held_reachable)
    as (H1 & _ & H3 & _).
  rewrite H1, H3. split; vm_compute; reflexivity.
Defined.

Lemma GB_exact (g : Z) :
  - 2 ^ 33 <= g < 2 ^ 33 → GB g = g * 1073741824.
Proof.
  intros Hg. unfold GB, Int64.mul.
  rewrite (wrap_in_range (g * 1024)) by (int64_bounds; lia).
  rewrite (wrap_in_range (g * 1024 * 1024)) by (int64_bounds; lia).
  rewrite (wrap_in_range (g * 1024 * 1024 * 1024)) by (int64_bounds; lia).
  lia.
Qed.

(** X18.  [NewDiskLRUCache] fails when the directory cannot be created;
    otherwise it leaves the disk as it is, the directories are the one
    given and its files directory, and [GetStats] reports the capacity,
    which is an int64: the gigabytes given times 2^30 from -2^33 up to,
    and not including, 2^33 gigabytes, and -2^63 for 2^33 gigabytes. *)
Theorem X18_NewDiskLRUCache_capacity
    (dir : string) (maxSizeGB : Z) (mkdir_ok : bool) (ord : RangeOrder) (d : Disk) :
  (mkdir_ok = false → NewDiskLRUCache dir maxSizeGB mkdir_ok ord d = None)
  ∧ (mkdir_ok = true →
       ∃ w, NewDiskLRUCache dir maxSizeGB mkdir_ok ord d = Some w
            ∧ disk w = d
            ∧ cacheDir (cache w) = dir
            ∧ filesDir (cache w) = filepath_Join dir "files"
            ∧ MaxBytes (GetStats w) = maxSizeBytes (cache w)
            ∧ Int64.in_range (maxSizeBytes (cache w))
            ∧ (- 2 ^ 33 <= maxSizeGB < 2 ^ 33 →
                 maxSizeBytes (cache w) = maxSizeGB * 1073741824)
            ∧ (maxSizeGB = 2 ^ 33 → maxSizeBytes (cache w) = - 2 ^ 63)).
Proof.
  split; [by intros ->|]. intros ->. eexists. split; [reflexivity|].
  rewrite open_cache_disk. split; [done|].
  destruct (open_cache_dirs dir (GB maxSizeGB) ord d) as [-> ->].
  split; [done|]. split; [done|].
  destruct (stats_ok_open_cache dir (GB maxSizeGB) ord d) as [Hmax _].
  split; [exact Hmax|].
  destruct (open_cache_cache dir (GB maxSizeGB) ord d) as (c & -> & _ & -> & _).
  split; [|split].
  - unfold GB, Int64.mul at 1, Int64.wrap. int64_bounds.
    pose proof (Z.mod_pos_bound
                  (Int64.mul (Int64.mul maxSizeGB 1024) 1024 * 1024 + 2 ^ 63) (2 ^ 64)).
    lia.
  - apply GB_exact.
  - intros ->. vm_compute. reflexivity.
Qed.

Lemma X18_NewDiskLRUCache_capacity_witness :
  ∃ w, NewDiskLRUCache "/c" 2 true (λ l, l) (mkDisk ∅ MetaAbsent) = Some w
       ∧ maxSizeBytes (cache w) = 2147483648.
Proof.
  destruct (proj2 (X18_NewDiskLRUCache_capacity "/c" 2 true (λ l, l)
                     (mkDisk ∅ MetaAbsent)) eq_refl)
    as (w & Hnew & _ & _ & _ & _ & _ & Hcap & _).
  exists w. split; [exact Hnew|]. rewrite Hcap; [reflexivity|lia].
Defined.

(** ** What decides the result of [Put] *)

Lemma removeEntry_files_keep key w n :
  (∀ e, entries (cache w) !! key = Some e → Filename e ≠ n) →
  files (disk (removeEntry key w)) !! n = files (disk w) !! n.
Proof.
  intros Hne. unfold removeEntry.
  destruct (entries (cache w) !! key) as [e|] eqn:He; [|done].
  specialize (Hne e eq_refl).
  destruct (decide (key ∈ accessMap (cache w))); simpl;
    by rewrite lookup_delete_ne.
Qed.

(** An eviction run leaves the files that no entry has. *)
Lemma evict_loop_files_keep fuel newSize w w' n :
  evict_loop fuel newSize w = Some w' →
  (∀ k e, entries (cache w) !! k = Some e → Filename e ≠ n) →
  files (disk w') !! n = files (disk w) !! n.
Proof.
  revert w. induction fuel as [|fuel IH]; intros w; simpl.
  - destruct (over_capacity newSize (cache w)); [done|]. by intros [= <-].
  - destruct (over_capacity newSize (cache w)); [|by intros [= <-]].
    destruct (list_Back (accessOrder (cache w))) as [victim|]; [|by intros [= <-]].
    intros Hrun Hne. rewrite (IH _ Hrun).
    + simpl. apply removeEntry_files_keep. intros e. apply Hne.
    + intros k e. simpl. rewrite removeEntry_entries.
      intros [_ He]%lookup_delete_Some. by apply (Hne k).
Qed.

(** X19.  On a well-formed index none of whose entries has the temporary
    file of the key as its file, what [Put] returns does not depend on the
    data: the error of creating or of writing the temporary file when the
    environment makes that fail, the rename error when the rename fails or
    the file name is that of a directory, and otherwise the path of the
    file. *)
Theorem X19_Put_result_does_not_depend_on_the_data
    (w : World) (key : string) (data : bytes) (io : PutIO) :
  wf (cache w) →
  (∀ k e, entries (cache w) !! k = Some e →
     Filename e ≠ sanitizeFilename key +:+ ".tmp") →
  ∃ w',
    Put key data io w
    = Some (if negb (create_ok io) then PutErr ErrCreateTemp
            else if negb (copy_ok io) then PutErr ErrWriteFile
            else if rename_ok io && negb (is_dir_name (sanitizeFilename key))
                 then PutOk (filepath_Join (filesDir (cache w)) (sanitizeFilename key))
                 else PutErr ErrRename,
            w').
Proof.
  intros Hwf Hfree.
  destruct (evict_loop_spec (size (entries (cache (Put_written key data w))))
              (Z.of_nat (length data)) (Put_written key data w))
    as (w2 & ev & Hrun & Hspec);
    [by apply wf_Put_start|by rewrite size_entries_order; [|apply wf_Put_start]|].
  rewrite Put_eq. cbv zeta.
  destruct (create_ok io); simpl; [|by eexists].
  destruct (copy_ok io); simpl; [|by eexists].
  unfold evictIfNeeded. rewrite Hrun. simpl.
  destruct (tmp_name (sanitizeFilename key)) as [n|] eqn:Htmp.
  2:{ unfold tmp_name in Htmp. destruct (is_dir_name _); [|done].
      rewrite andb_false_r. by eexists. }
  assert (Hdir : is_dir_name (sanitizeFilename key) = false).
  { unfold tmp_name in Htmp. by destruct (is_dir_name _). }
  assert (Hn : n = sanitizeFilename key +:+ ".tmp").
  { unfold tmp_name in Htmp. rewrite Hdir in Htmp. by injection Htmp. }
  rewrite Hdir, andb_true_r. simpl.
  destruct (rename_ok io); [|by eexists].
  assert (Hfile : files (disk w2) !! n = Some data).
  { rewrite (evict_loop_files_keep _ _ _ _ n Hrun).
    - by apply Put_written_tmp.
    - intros k e. simpl. rewrite Put_start_entries.
      intros [_ He]%lookup_delete_Some. rewrite Hn. by apply (Hfree k). }
  unfold os_Rename. rewrite Hfile.
  destruct (Put_start_fields key w) as (_ & -> & _). by eexists.
Qed.

Lemma X19_Put_result_does_not_depend_on_the_data_witness :
  wf (cache sample_held)
  ∧ ∃ w', Put "b/y" (zeros 12) (sample_io 2) sample_held
          = Some (PutOk "/c/files/b_y", w').
Proof.
  split; [exact sample_held_wf|].
  assert (Hfree : ∀ k e, entries (cache sample_held) !! k = Some e →
            Filename e ≠ sanitizeFilename "b/y" +:+ ".tmp").
  { apply (bool_decide_unpack
             (map_Forall (λ _ e, Filename e ≠ sanitizeFilename "b/y" +:+ ".tmp")
                         (entries (cache sample_held)))).
    vm_compute. exact I. }
  destruct (X19_Put_result_does_not_depend_on_the_data
              sample_held "b/y" (zeros 12) (sample_io 2) sample_held_wf Hfree)
    as [w' HPut].
  exists w'. exact HPut.
Defined.
